(** * meeting-autopilot: deterministic extraction and tier arbitration

    A shallow embedding of [src/main.py]: the preprocessor, the compound
    splitter, the seven capability extractors, the schema validator, the
    quality estimator, the candidate scorer and [generate_hybrid].

    Modelling conventions.
    - Text is a [string] over 8-bit characters and is read as ASCII:
      letters are [A-Za-z], digits [0-9], white space is what
      [str.isspace] accepts below 128.
    - Python's [re] patterns are kept verbatim as strings and parsed by
      [rx] / [rxi] into a small syntax tree that a backtracking matcher
      interprets with Python's priorities (leftmost start, alternatives
      left to right, greedy or lazy repetition, captures, look-ahead).
    - Integers are [Z]; the float scores of the source only ever hold
      integers, so they are [Z] as well; the quality ratio and the
      confidences are rationals [Q].
    - A Python exception is the [Raised] outcome of [Exc]. *)

From Stdlib Require Import List String Ascii Bool Arith ZArith QArith Lia.
From Stdlib Require Import DecimalString Qminmax.
From Stdlib Require DecimalPos OrderedTypeEx.
From Stdlib Require Import Sorted Permutation.
Import ListNotations.
Close Scope Q_scope.
Close Scope Z_scope.
Open Scope nat_scope.
Open Scope string_scope.
Open Scope bool_scope.

Set Implicit Arguments.

(* ================================================================== *)
(** ** Characters and Python string methods *)
(* ================================================================== *)

Module Str.

Definition chars := list ascii.

Definition of_string (s : string) : chars := list_ascii_of_string s.
Definition to_string (l : chars) : string := string_of_list_ascii l.

Definition code (c : ascii) : nat := nat_of_ascii c.

Definition in_range (lo hi : nat) (c : ascii) : bool :=
  (lo <=? code c)%nat && (code c <=? hi)%nat.

Definition is_upper (c : ascii) : bool := in_range 65 90 c.
Definition is_lower (c : ascii) : bool := in_range 97 122 c.
Definition is_digit (c : ascii) : bool := in_range 48 57 c.
Definition is_alpha (c : ascii) : bool := is_upper c || is_lower c.

(** [\w] of [re]: letters, digits and the underscore. *)
Definition is_word (c : ascii) : bool :=
  is_alpha c || is_digit c || (code c =? 95)%nat.

(** [str.isspace]: tab, LF, VT, FF, CR, the separators 28..31 and blank. *)
Definition is_space (c : ascii) : bool :=
  in_range 9 13 c || in_range 28 32 c.

Definition lower_c (c : ascii) : ascii :=
  if is_upper c then ascii_of_nat (code c + 32) else c.
Definition upper_c (c : ascii) : ascii :=
  if is_lower c then ascii_of_nat (code c - 32) else c.

Definition lower_l (l : chars) : chars := map lower_c l.
Definition upper_l (l : chars) : chars := map upper_c l.

(** [s.lower()] and [s.upper()]. *)
Definition lower (s : string) : string := to_string (lower_l (of_string s)).
Definition upper (s : string) : string := to_string (upper_l (of_string s)).

Fixpoint drop_while (p : ascii -> bool) (l : chars) : chars :=
  match l with
  | [] => []
  | c :: l' => if p c then drop_while p l' else l
  end.

Definition lstrip_by (p : ascii -> bool) (l : chars) : chars := drop_while p l.
Definition rstrip_by (p : ascii -> bool) (l : chars) : chars :=
  rev (drop_while p (rev l)).
Definition strip_by (p : ascii -> bool) (l : chars) : chars :=
  rstrip_by p (lstrip_by p l).

Definition mem_c (set : chars) (c : ascii) : bool :=
  existsb (fun d => Ascii.eqb d c) set.

(** [s.strip()], [s.strip(set)], [s.rstrip(set)], [s.lstrip(set)]. *)
Definition strip (s : string) : string :=
  to_string (strip_by is_space (of_string s)).
Definition strip_chars (set : string) (s : string) : string :=
  to_string (strip_by (mem_c (of_string set)) (of_string s)).

Fixpoint prefix_l (p l : chars) : bool :=
  match p, l with
  | [], _ => true
  | a :: p', b :: l' => Ascii.eqb a b && prefix_l p' l'
  | _ :: _, [] => false
  end.

Fixpoint contains_l (needle hay : chars) : bool :=
  prefix_l needle hay ||
  match hay with
  | [] => false
  | _ :: hay' => contains_l needle hay'
  end.

(** [needle in hay] and [s.startswith(p)]. *)
Definition contains (needle hay : string) : bool :=
  contains_l (of_string needle) (of_string hay).
Definition startswith (s p : string) : bool :=
  prefix_l (of_string p) (of_string s).

Definition mem_s (s : string) (set : list string) : bool :=
  existsb (String.eqb s) set.

(** [sep.join(parts)]. *)
Fixpoint join (sep : string) (parts : list string) : string :=
  match parts with
  | [] => ""
  | [p] => p
  | p :: rest => p ++ sep ++ join sep rest
  end.

(** [s.split()]: the maximal runs of non-blank characters. *)
Fixpoint split_ws_go (l : chars) (cur : chars) : list chars :=
  match l with
  | [] => match cur with [] => [] | _ => [rev cur] end
  | c :: l' =>
      if is_space c
      then match cur with
           | [] => split_ws_go l' []
           | _ => rev cur :: split_ws_go l' []
           end
      else split_ws_go l' (c :: cur)
  end.

Definition split_ws (s : string) : list string :=
  map to_string (split_ws_go (of_string s) []).

Definition non_empty (s : string) : bool :=
  match s with EmptyString => false | _ => true end.

(** [str(n)] for a non-negative machine-independent integer. *)
Definition dec (n : Z) : string :=
  NilZero.string_of_int (Z.to_int n).

Definition digit_val (c : ascii) : Z := Z.of_nat (code c - 48).

(** [int(s)] on a string of decimal digits (the only use in the source:
    the text of a [\d]-group). *)
Definition int_of_digits (s : string) : Z :=
  fold_left (fun acc c => 10 * acc + digit_val c)%Z (of_string s) 0%Z.

(** [f"{n:02d}"] for [n >= 0]. *)
Definition dec2 (n : Z) : string :=
  if (n <? 10)%Z then "0" ++ dec n else dec n.

Definition quote : ascii := ascii_of_nat 34.
Definition backslash : ascii := ascii_of_nat 92.
Definition newline : ascii := ascii_of_nat 10.

End Str.

(* ================================================================== *)
(** ** A backtracking matcher for the [re] patterns of the source *)
(* ================================================================== *)

Module Re.
Import Str.

(** One member of a bracket class, or a single-character atom. *)
Inductive citem : Type :=
| IChr (c : ascii)
| IRng (lo hi : ascii)
| ISpace                   (* \s *)
| IDigit                   (* \d *)
| IDot.                    (* .  : anything but a newline *)

Record cls : Type := Cls { c_neg : bool; c_ci : bool; c_items : list citem }.

Definition item_match (c : ascii) (i : citem) : bool :=
  match i with
  | IChr d => Ascii.eqb d c
  | IRng lo hi => in_range (code lo) (code hi) c
  | ISpace => is_space c
  | IDigit => is_digit c
  | IDot => negb (Ascii.eqb c newline)
  end.

Definition cls_match (k : cls) (c : ascii) : bool :=
  let hit x := existsb (item_match x) (c_items k) in
  xorb (c_neg k)
       (if c_ci k then hit c || hit (lower_c c) || hit (upper_c c) else hit c).

Inductive regex : Type :=
| REps
| RCls (k : cls)
| RCat (r1 r2 : regex)
| RAlt (r1 r2 : regex)
| RMany (greedy : bool) (lo : nat) (hi : option nat) (k : cls)
| ROpt (r : regex)
| RGrp (n : nat) (r : regex)
| RLook (r : regex)
| RBol
| REol
| RWordB
| RFail.

(** The cursor: the character just before it, its offset, and the text
    still ahead. *)
Record cursor : Type := Cur { c_prev : option ascii; c_pos : nat; c_rest : chars }.

Definition caps := list (nat * chars).

Definition advance (c : ascii) (cu : cursor) (rest : chars) : cursor :=
  Cur (Some c) (S (c_pos cu)) rest.

Definition word_opt (o : option ascii) : bool :=
  match o with Some c => is_word c | None => false end.

Definition at_boundary (cu : cursor) : bool :=
  xorb (word_opt (c_prev cu)) (word_opt (hd_error (c_rest cu))).

Definition at_eol (cu : cursor) : bool :=
  match c_rest cu with
  | [] => true
  | [c] => Ascii.eqb c newline
  | _ => false
  end.

Definition hi_allows (hi : option nat) : bool :=
  match hi with Some 0 => false | _ => true end.
Definition hi_pred (hi : option nat) : option nat :=
  match hi with Some n => Some (pred n) | None => None end.

Section Repeat.
Variable A : Type.
Variable k : cls.
Variable cont : cursor -> option A.

(** [k{lo,hi}], longest first, then [k{lo,hi}?], shortest first. *)
Fixpoint rep_greedy (lo : nat) (hi : option nat) (prev : option ascii)
         (pos : nat) (rest : chars) {struct rest} : option A :=
  let stop := if (lo =? 0)%nat then cont (Cur prev pos rest) else None in
  match rest with
  | c :: rest' =>
      if cls_match k c && hi_allows hi then
        match rep_greedy (pred lo) (hi_pred hi) (Some c) (S pos) rest' with
        | Some r => Some r
        | None => stop
        end
      else stop
  | [] => stop
  end.

Fixpoint rep_lazy (lo : nat) (hi : option nat) (prev : option ascii)
         (pos : nat) (rest : chars) {struct rest} : option A :=
  let more :=
    match rest with
    | c :: rest' =>
        if cls_match k c && hi_allows hi
        then rep_lazy (pred lo) (hi_pred hi) (Some c) (S pos) rest'
        else None
    | [] => None
    end in
  if (lo =? 0)%nat then
    match cont (Cur prev pos rest) with
    | Some r => Some r
    | None => more
    end
  else more.
End Repeat.

(** The text between two cursors of one scan. *)
Definition slice (from to : cursor) : chars :=
  firstn (c_pos to - c_pos from) (c_rest from).

Fixpoint rmatch (r : regex) {A : Type} (cu : cursor) (cs : caps)
         (cont : cursor -> caps -> option A) {struct r} : option A :=
  match r with
  | REps => cont cu cs
  | RCls k =>
      match c_rest cu with
      | c :: rest' => if cls_match k c then cont (advance c cu rest') cs else None
      | [] => None
      end
  | RCat r1 r2 => rmatch r1 cu cs (fun cu' cs' => rmatch r2 cu' cs' cont)
  | RAlt r1 r2 =>
      match rmatch r1 cu cs cont with
      | Some x => Some x
      | None => rmatch r2 cu cs cont
      end
  | RMany g lo hi k =>
      (if g then rep_greedy else rep_lazy) A k (fun cu' => cont cu' cs)
        lo hi (c_prev cu) (c_pos cu) (c_rest cu)
  | ROpt r1 =>
      match rmatch r1 cu cs cont with
      | Some x => Some x
      | None => cont cu cs
      end
  | RGrp n r1 => rmatch r1 cu cs (fun cu' cs' => cont cu' ((n, slice cu cu') :: cs'))
  | RLook r1 =>
      match rmatch r1 cu cs (fun _ cs' => Some cs') with
      | Some cs' => cont cu cs'
      | None => None
      end
  | RBol => if (c_pos cu =? 0)%nat then cont cu cs else None
  | REol => if at_eol cu then cont cu cs else None
  | RWordB => if at_boundary cu then cont cu cs else None
  | RFail => None
  end.

(** A match object: where it starts, the cursor after it, the groups. *)
Record mtch : Type := Mtch { m_start : cursor; m_end : cursor; m_caps : caps }.

Definition match_at (r : regex) (cu : cursor) : option mtch :=
  rmatch r cu [] (fun cu' cs => Some (Mtch cu cu' cs)).

Fixpoint search_from (r : regex) (prev : option ascii) (pos : nat)
         (rest : chars) {struct rest} : option mtch :=
  match match_at r (Cur prev pos rest) with
  | Some m => Some m
  | None =>
      match rest with
      | c :: rest' => search_from r (Some c) (S pos) rest'
      | [] => None
      end
  end.

Fixpoint assoc_caps (n : nat) (cs : caps) : option chars :=
  match cs with
  | [] => None
  | (m, t) :: cs' => if (n =? m)%nat then Some t else assoc_caps n cs'
  end.

(** [re.search(r, s)], [re.match(r, s)], [m.group(n)]. *)
Definition search (r : regex) (s : string) : option mtch :=
  search_from r None 0 (of_string s).
Definition match_ (r : regex) (s : string) : option mtch :=
  match_at r (Cur None 0 (of_string s)).
Definition group (m : mtch) (n : nat) : option string :=
  option_map to_string (assoc_caps n (m_caps m)).
Definition found (o : option mtch) : bool :=
  match o with Some _ => true | None => false end.

Definition m_len (m : mtch) : nat := c_pos (m_end m) - c_pos (m_start m).

(** [re.sub(r, repl, s)] for a literal [repl]: scan left to right, a
    match at the cursor is replaced and its characters skipped. *)
Fixpoint sub_go (r : regex) (repl : chars) (prev : option ascii) (pos : nat)
         (rest : chars) (skip : nat) {struct rest} : chars :=
  match skip with
  | S skip' =>
      match rest with
      | c :: rest' => sub_go r repl (Some c) (S pos) rest' skip'
      | [] => []
      end
  | O =>
      match match_at r (Cur prev pos rest) with
      | Some m =>
          app repl
            match rest with
            | c :: rest' =>
                match m_len m with
                | O => c :: sub_go r repl (Some c) (S pos) rest' 0
                | S n => sub_go r repl (Some c) (S pos) rest' n
                end
            | [] => []
            end
      | None =>
          match rest with
          | c :: rest' => c :: sub_go r repl (Some c) (S pos) rest' 0
          | [] => []
          end
      end
  end.

Definition sub (r : regex) (repl : string) (s : string) : string :=
  to_string (sub_go r (of_string repl) None 0 (of_string s) 0).

(** [re.split(r, s)] for a pattern without capturing groups. *)
Fixpoint split_go (r : regex) (prev : option ascii) (pos : nat)
         (rest : chars) (skip : nat) (cur : chars) {struct rest} : list chars :=
  match skip with
  | S skip' =>
      match rest with
      | c :: rest' => split_go r (Some c) (S pos) rest' skip' cur
      | [] => [rev cur]
      end
  | O =>
      match rest with
      | [] => [rev cur]
      | c :: rest' =>
          match match_at r (Cur prev pos rest) with
          | Some m =>
              match m_len m with
              | O => split_go r (Some c) (S pos) rest' 0 (c :: cur)
              | S n => rev cur :: split_go r (Some c) (S pos) rest' n []
              end
          | None => split_go r (Some c) (S pos) rest' 0 (c :: cur)
          end
      end
  end.

Definition split (r : regex) (s : string) : list string :=
  map to_string (split_go r None 0 (of_string s) 0 []).

End Re.

(* ================================================================== *)
(** ** Reading a pattern of [re] syntax *)
(* ================================================================== *)

Module Pat.
Import Str Re.

Definition ch (c : ascii) (s : string) : bool :=
  match s with
  | String d EmptyString => Ascii.eqb c d
  | _ => false
  end.

Inductive atom : Type :=
| ACls (k : cls)
| ARe (r : regex).

Definition lit (ci : bool) (c : ascii) : cls := Cls false ci [IChr c].

Definition cat (r1 r2 : regex) : regex :=
  match r2 with
  | REps => r1
  | _ => RCat r1 r2
  end.

(** The members of a bracket class, up to the closing bracket. *)
Fixpoint class_items (l : chars) : option (list citem * chars) :=
  match l with
  | [] => None
  | a :: l1 =>
      if ch a "]" then Some ([], l1)
      else if ch a "\" then
        match l1 with
        | e :: l2 =>
            let i := if ch e "s" then ISpace else if ch e "d" then IDigit else IChr e in
            match class_items l2 with
            | Some (is_, l3) => Some (i :: is_, l3)
            | None => None
            end
        | [] => None
        end
      else
        match l1 with
        | m :: b :: l2 =>
            if ch m "-" && negb (ch b "]") then
              match class_items l2 with
              | Some (is_, l3) => Some (IRng a b :: is_, l3)
              | None => None
              end
            else
              match class_items l1 with
              | Some (is_, l3) => Some (IChr a :: is_, l3)
              | None => None
              end
        | _ =>
            match class_items l1 with
            | Some (is_, l3) => Some (IChr a :: is_, l3)
            | None => None
            end
        end
  end.

Fixpoint number (l : chars) (acc : nat) : nat * chars :=
  match l with
  | c :: l' => if is_digit c then number l' (10 * acc + (code c - 48)) else (acc, l)
  | [] => (acc, [])
  end.

(** The bounds of a quantifier at the head of [l], if there is one. *)
Definition bounds (l : chars) : option (nat * option nat * chars) :=
  match l with
  | c :: l1 =>
      if ch c "*" then Some (0, None, l1)
      else if ch c "+" then Some (1, None, l1)
      else if ch c "?" then Some (0, Some 1, l1)
      else if ch c "{" then
        let '(lo, l2) := number l1 0 in
        match l2 with
        | d :: l3 =>
            if ch d "}" then Some (lo, Some lo, l3)
            else if ch d "," then
              let '(hi, l4) := number l3 0 in
              match l4 with
              | e :: l5 => if ch e "}" then Some (lo, Some hi, l5) else None
              | [] => None
              end
            else None
        | [] => None
        end
      else None
  | [] => None
  end.

Definition quantify (a : atom) (l : chars) : option (regex * chars) :=
  match bounds l with
  | None => Some (match a with ACls k => RCls k | ARe r => r end, l)
  | Some (lo, hi, l1) =>
      let '(greedy, l2) :=
        match l1 with
        | c :: l2 => if ch c "?" then (false, l2) else (true, l1)
        | [] => (true, l1)
        end in
      match a with
      | ACls k => Some (RMany greedy lo hi k, l2)
      | ARe r =>
          match lo, hi, greedy with
          | 0, Some 1, true => Some (ROpt r, l2)
          | _, _, _ => None
          end
      end
  end.

Definition closed (o : option (regex * nat * chars)) (wrap : regex -> regex)
  : option (atom * nat * chars) :=
  match o with
  | Some (r, n, c :: l) => if ch c ")" then Some (ARe (wrap r), n, l) else None
  | _ => None
  end.

Fixpoint p_alt (fuel : nat) (ci : bool) (n : nat) (l : chars)
  : option (regex * nat * chars) :=
  match fuel with
  | O => None
  | S f =>
      match p_seq f ci n l with
      | Some (r1, n1, l1) =>
          match l1 with
          | c :: l2 =>
              if ch c "|" then
                match p_alt f ci n1 l2 with
                | Some (r2, n2, l3) => Some (RAlt r1 r2, n2, l3)
                | None => None
                end
              else Some (r1, n1, l1)
          | [] => Some (r1, n1, l1)
          end
      | None => None
      end
  end
with p_seq (fuel : nat) (ci : bool) (n : nat) (l : chars)
  : option (regex * nat * chars) :=
  match fuel with
  | O => None
  | S f =>
      match l with
      | [] => Some (REps, n, l)
      | c :: _ =>
          if ch c "|" || ch c ")" then Some (REps, n, l)
          else
            match p_atom f ci n l with
            | Some (a, n1, l1) =>
                match quantify a l1 with
                | Some (r1, l2) =>
                    match p_seq f ci n1 l2 with
                    | Some (r2, n2, l3) => Some (cat r1 r2, n2, l3)
                    | None => None
                    end
                | None => None
                end
            | None => None
            end
      end
  end
with p_atom (fuel : nat) (ci : bool) (n : nat) (l : chars)
  : option (atom * nat * chars) :=
  match fuel with
  | O => None
  | S f =>
      match l with
      | [] => None
      | c :: l1 =>
          if ch c "(" then
            match l1 with
            | q :: k :: l2 =>
                if ch q "?" && ch k ":" then closed (p_alt f ci n l2) (fun r => r)
                else if ch q "?" && ch k "=" then closed (p_alt f ci n l2) RLook
                else closed (p_alt f ci (S n) l1) (RGrp n)
            | _ => closed (p_alt f ci (S n) l1) (RGrp n)
            end
          else if ch c "[" then
            match l1 with
            | h :: l2 =>
                let '(neg, body) := if ch h "^" then (true, l2) else (false, l1) in
                match class_items body with
                | Some (is_, l3) => Some (ACls (Cls neg ci is_), n, l3)
                | None => None
                end
            | [] => None
            end
          else if ch c "\" then
            match l1 with
            | e :: l2 =>
                if ch e "b" then Some (ARe RWordB, n, l2)
                else if ch e "s" then Some (ACls (Cls false false [ISpace]), n, l2)
                else if ch e "d" then Some (ACls (Cls false false [IDigit]), n, l2)
                else Some (ACls (lit ci e), n, l2)
            | [] => None
            end
          else if ch c "." then Some (ACls (Cls false false [IDot]), n, l1)
          else if ch c "^" then Some (ARe RBol, n, l1)
          else if ch c "$" then Some (ARe REol, n, l1)
          else Some (ACls (lit ci c), n, l1)
      end
  end.

Definition parse (ci : bool) (p : string) : regex :=
  match p_alt (4 * String.length p + 8) ci 1 (of_string p) with
  | Some (r, _, []) => r
  | _ => RFail
  end.

End Pat.

(** [re.compile(p)] and [re.compile(p, re.IGNORECASE)]. *)
Definition rx (p : string) : Re.regex := Pat.parse false p.
Definition rxi (p : string) : Re.regex := Pat.parse true p.

Definition grp (m : Re.mtch) (n : nat) : string :=
  match Re.group m n with Some s => s | None => "" end.

(* ================================================================== *)
(** ** Data model *)
(* ================================================================== *)

(** A JSON / Python argument value. *)
#[warnings="-register-all"] Inductive value : Type :=
| VNone
| VBool (b : bool)
| VInt (n : Z)
| VStr (s : string)
| VList (l : list value).

(** An argument dictionary, in insertion order. *)
Definition args := list (string * value).

(** A candidate call [{"name": ..., "arguments": {...}}]; a missing
    name reads as the empty string and missing arguments as the empty
    dictionary, the defaults every [call.get] of the source supplies. *)
Record call : Type := Call { name : string; arguments : args }.

(** A tool descriptor: its name and [parameters.required]. *)
Record tool : Type := Tool { t_name : string; t_required : list string }.

(** A conversation turn. *)
Record message : Type := Msg { role : string; content : string }.

(** Outcome of code that may raise. *)
Inductive Exc (A : Type) : Type :=
| Ok (a : A)
| Raised.
Arguments Ok {A} a.
Arguments Raised {A}.

Definition bindE {A B : Type} (m : Exc A) (f : A -> Exc B) : Exc B :=
  match m with
  | Ok a => f a
  | Raised => Raised
  end.

Notation "x <- m ;; k" := (bindE m (fun x => k))
  (at level 61, m at next level, right associativity).

Fixpoint lookup (k : string) (d : args) : option value :=
  match d with
  | [] => None
  | (k', v) :: d' => if String.eqb k k' then Some v else lookup k d'
  end.

(** [d.get(k)]: [None] when the key is absent. *)
Definition get (d : args) (k : string) : value :=
  match lookup k d with
  | Some v => v
  | None => VNone
  end.

(** [{t["name"]: t for t in tools}[name]]: the last descriptor of that
    name wins. *)
Definition tool_map_get (tools : list tool) (nm : string) : option tool :=
  find (fun t => String.eqb (t_name t) nm) (rev tools).

(* ================================================================== *)
(** ** Query pre-processing *)
(* ================================================================== *)

Definition _TRANSFORMS : list (string * string) :=
  [ ("\bwake me up at\b", "set an alarm for");
    ("\bwake me up\b",    "set an alarm");
    ("\balert me at\b",   "set an alarm for") ].

Definition _preprocess (messages : list message) : list message :=
  map (fun m =>
         if String.eqb (role m) "user" then
           Msg (role m)
               (fold_left (fun c pr => Re.sub (rxi (fst pr)) (snd pr) c)
                          _TRANSFORMS (content m))
         else m)
      messages.

Definition _TOOL_KEYWORDS (nm : string) : list string :=
  if String.eqb nm "get_weather" then
    ["weather"; "temperature"; "forecast"; "hot"; "cold"; "rain"; "sunny"]
  else if String.eqb nm "set_alarm" then ["alarm"; "wake"; "alert"]
  else if String.eqb nm "send_message" then
    ["message"; "send"; "text"; "tell"; "say"; "write"]
  else if String.eqb nm "create_reminder" then
    ["remind"; "reminder"; "remember"; "note"; "memo"]
  else if String.eqb nm "search_contacts" then
    ["find"; "search"; "look"; "contact"; "directory"]
  else if String.eqb nm "play_music" then
    ["play"; "music"; "song"; "listen"; "hear"; "playlist"; "beats"; "track";
     "jazz"; "classical"; "rock"; "pop"]
  else if String.eqb nm "set_timer" then ["timer"; "countdown"; "count down"]
  else [].

(* ================================================================== *)
(** ** Schema validation *)
(* ================================================================== *)

(** The pair [(ok, diagnostic)] of [_validate]: the diagnostic names the
    unknown tool, or the tool and the required parameter it lacks. *)
Inductive verdict : Type :=
| Valid
| UnknownTool (nm : string)
| MissingParam (nm req : string).

Definition is_valid (v : verdict) : bool :=
  match v with Valid => true | _ => false end.

(** [val is None or val == "" or (isinstance(val, list) and not val)]. *)
Definition is_missing (v : value) : bool :=
  match v with
  | VNone => true
  | VStr EmptyString => true
  | VList [] => true
  | _ => false
  end.

Definition validate_call (tools : list tool) (c : call) : verdict :=
  match tool_map_get tools (name c) with
  | None => UnknownTool (name c)
  | Some t =>
      match find (fun req => is_missing (get (arguments c) req)) (t_required t) with
      | Some req => MissingParam (name c) req
      | None => Valid
      end
  end.

Fixpoint _validate (calls : list call) (tools : list tool) : verdict :=
  match calls with
  | [] => Valid
  | c :: rest =>
      match validate_call tools c with
      | Valid => _validate rest tools
      | bad => bad
      end
  end.

(* ================================================================== *)
(** ** Duplicate removal *)
(* ================================================================== *)

Module Json.
Import Str.

Definition hex_digit (n : nat) : ascii :=
  ascii_of_nat (if (n <? 10)%nat then (48 + n)%nat else (87 + n)%nat).

(** One character of a JSON string under [ensure_ascii]. *)
Definition escape (c : ascii) : string :=
  let n := code c in
  if (n =? 34)%nat then String backslash (String quote "")
  else if (n =? 92)%nat then String backslash (String backslash "")
  else if (n =? 10)%nat then String backslash "n"
  else if (n =? 13)%nat then String backslash "r"
  else if (n =? 9)%nat then String backslash "t"
  else if (n =? 8)%nat then String backslash "b"
  else if (n =? 12)%nat then String backslash "f"
  else if (n <? 32)%nat || (126 <? n)%nat then
    String backslash
      ("u00" ++ String (hex_digit (n / 16)) (String (hex_digit (n mod 16)) ""))
  else String c "".

Definition str (s : string) : string :=
  String quote (concat "" (map escape (of_string s)) ++ String quote "").

Fixpoint val (v : value) : string :=
  match v with
  | VNone => "null"
  | VBool true => "true"
  | VBool false => "false"
  | VInt n => dec n
  | VStr s => str s
  | VList l => "[" ++ join "," (map val l) ++ "]"
  end.

Fixpoint insert (kv : string * value) (d : args) : args :=
  match d with
  | [] => [kv]
  | kv' :: d' =>
      if String.leb (fst kv) (fst kv') then kv :: d else kv' :: insert kv d'
  end.

Definition sort_keys (d : args) : args := fold_right insert [] d.

(** [json.dumps(d, sort_keys=True, separators=(",", ":"))]. *)
Definition dumps (d : args) : string :=
  "{" ++ join "," (map (fun kv => str (fst kv) ++ ":" ++ val (snd kv)) (sort_keys d))
      ++ "}".

End Json.

Definition _call_key (c : call) : string * string :=
  (name c, Json.dumps (arguments c)).

Definition key_eqb (a b : string * string) : bool :=
  String.eqb (fst a) (fst b) && String.eqb (snd a) (snd b).

Section Dedupe.
Variables (A K : Type) (key : A -> K) (eqb : K -> K -> bool).

Definition seen_mem (k : K) (seen : list K) : bool := existsb (eqb k) seen.

(** The loop of [_dedupe_calls] with its [seen] set. *)
Fixpoint dedupe_from (seen : list K) (l : list A) : list A :=
  match l with
  | [] => []
  | c :: rest =>
      if seen_mem (key c) seen then dedupe_from seen rest
      else c :: dedupe_from (key c :: seen) rest
  end.
End Dedupe.

Definition _dedupe_calls (calls : list call) : list call :=
  dedupe_from _call_key key_eqb [] calls.

(* ================================================================== *)
(** ** Deterministic parser: vocabulary and time forms *)
(* ================================================================== *)

Definition _ACTION_HINTS : list string :=
  [ "weather"; "forecast"; "temperature"; "hot"; "cold"; "rain"; "raining";
    "sunny"; "snow"; "snowing"; "humid";
    "alarm"; "wake me up"; "wake me"; "alert me";
    "timer"; "countdown"; "count down";
    "remind"; "reminder"; "remember";
    "find"; "look up"; "lookup"; "search"; "contact";
    "play"; "music"; "song"; "listen"; "playlist";
    "text"; "message"; "send"; "tell"; "notify" ].

Definition _WEATHER_CUES : list string :=
  [ "weather"; "forecast"; "temperature"; "hot"; "cold"; "rain"; "raining";
    "rainy"; "sunny"; "snow"; "snowing"; "humid"; "humidity"; "windy" ].

Definition _PRONOUNS : list string := ["him"; "her"; "them"].

Definition _WORD_TO_NUM : list (string * Z) :=
  [ ("zero", 0); ("one", 1); ("two", 2); ("three", 3); ("four", 4);
    ("five", 5); ("six", 6); ("seven", 7); ("eight", 8); ("nine", 9);
    ("ten", 10); ("eleven", 11); ("twelve", 12); ("thirteen", 13);
    ("fourteen", 14); ("fifteen", 15); ("sixteen", 16); ("seventeen", 17);
    ("eighteen", 18); ("nineteen", 19); ("twenty", 20); ("thirty", 30);
    ("forty", 40); ("fifty", 50); ("sixty", 60) ]%Z.

(** [_WORD_TO_NUM[w]]; every use indexes with the lower-cased text of a
    group that alternates over keys of the table. *)
Definition word_to_num (w : string) : Z :=
  match find (fun kv => String.eqb (fst kv) w) _WORD_TO_NUM with
  | Some kv => snd kv
  | None => 0%Z
  end.

Definition _TIME_AMPM_RE : Re.regex :=
  rx "\b(\d{1,2})(?::(\d{2}))?\s*([AaPp])\.?\s*[Mm]\.?\b".
Definition _TIME_24_RE : Re.regex := rx "\b([01]?\d|2[0-3]):([0-5]\d)\b".
Definition _MESSAGE_MARKER_RE : Re.regex :=
  rxi "\b(?:saying|to say|that says|saying that|say)\b".
Definition _BARE_HOUR_NUM_RE : Re.regex :=
  rxi "\b(?:at|for)\s+(\d{1,2})(?::([0-5]\d))?\b".
Definition _BARE_HOUR_WORD_RE : Re.regex :=
  rxi "\b(?:at|for)\s+(zero|one|two|three|four|five|six|seven|eight|nine|ten|eleven|twelve)\b".

(** The strip set of [_clean_span]: blank, tab, LF, CR, the double
    quote, the apostrophe, the back-tick and [. , ; : ! ?]. *)
Definition clean_set : string :=
  Str.to_string
    (map ascii_of_nat [32; 9; 10; 13; 34; 39; 96; 46; 44; 59; 58; 33; 63]).

Definition _clean_span (text : string) : string :=
  let s := Str.strip (Re.sub (rx "\s+") " " text) in
  Str.strip_chars clean_set s.

Definition _contains_action (text : string) : bool :=
  let low := Str.lower text in
  existsb (fun k => Str.contains k low) _ACTION_HINTS.

(** [[p.strip() for p in pieces if p and p.strip()]]. *)
Definition stripped_pieces (pieces : list string) : list string :=
  map Str.strip
      (filter (fun p => Str.non_empty p && Str.non_empty (Str.strip p)) pieces).

(** The re-merge loop over [segments[1:]], starting from [current]. *)
Fixpoint merge_segments (current : string) (segs : list string) : list string :=
  match segs with
  | [] => [Str.strip current]
  | seg :: rest =>
      if Re.found (Re.search _MESSAGE_MARKER_RE current)
         && negb (_contains_action seg)
      then merge_segments (current ++ " and " ++ seg) rest
      else if _contains_action seg
      then Str.strip current :: merge_segments seg rest
      else merge_segments (current ++ " and " ++ seg) rest
  end.

(** One comma chunk; [segments[0]] raises [IndexError] on a chunk that
    holds nothing but conjunctions. *)
Definition split_chunk (chunk : string) : Exc (list string) :=
  let segments :=
    stripped_pieces
      (Re.split (rxi "\b(?:and|then|also|plus|after that|next)\b|&") chunk) in
  match segments with
  | [] => Raised
  | [s] => Ok [s]
  | s :: rest => Ok (merge_segments s rest)
  end.

Fixpoint split_chunks (chunks : list string) : Exc (list string) :=
  match chunks with
  | [] => Ok []
  | chunk :: rest =>
      here <- split_chunk chunk ;;
      more <- split_chunks rest ;;
      Ok (here ++ more)%list
  end.

Definition _split_actions (query : string) : Exc (list string) :=
  let comma_parts := stripped_pieces (Re.split (rx "\s*[,;]\s*") query) in
  parts <- split_chunks comma_parts ;;
  Ok (match parts with [] => [Str.strip query] | _ => parts end).

(** The alternation of the number words with value at most [hi]. *)
Definition words_upto (hi : Z) : string :=
  Str.join "|" (map fst (filter (fun kv => (0 <=? snd kv)%Z && (snd kv <=? hi)%Z)
                                _WORD_TO_NUM)).

Definition int_or0 (o : option string) : Z :=
  match o with
  | Some s => if Str.non_empty s then Str.int_of_digits s else 0%Z
  | None => 0%Z
  end.

(** [(hour, minute, "A" | "P")] of a 12-hour time, or [None]. *)
Definition _parse_ampm_time (text : string) : option (Z * Z * string) :=
  match Re.search _TIME_AMPM_RE text with
  | None =>
      match Re.search
              (rxi ("\b(" ++ words_upto 12 ++ ")\s*([AaPp])\.?\s*[Mm]\.?\b")) text with
      | Some m_word =>
          let hour := word_to_num (Str.lower (grp m_word 1)) in
          let hour := if (hour =? 0)%Z then 12%Z else hour in
          Some (hour, 0%Z, Str.upper (grp m_word 2))
      | None =>
          if Re.found (Re.search (rxi "\bnoon\b") text) then Some (12%Z, 0%Z, "P")
          else if Re.found (Re.search (rxi "\bmidnight\b") text)
          then Some (12%Z, 0%Z, "A")
          else None
      end
  | Some m =>
      let hour := Str.int_of_digits (grp m 1) in
      let minute := int_or0 (Re.group m 2) in
      let ampm := Str.upper (grp m 3) in
      Some (hour, minute, ampm)
  end.

(** The [{"hour": h, "minute": m}] of an alarm, as the pair [(h, m)]. *)
Definition _parse_alarm_args (text : string) : option (Z * Z) :=
  match _parse_ampm_time text with
  | Some (hour, minute, ampm) =>
      let hour :=
        if String.eqb ampm "A" && (hour =? 12)%Z then 0%Z
        else if String.eqb ampm "P" && (hour <? 12)%Z then (hour + 12)%Z
        else hour in
      Some (Z.abs hour, Z.abs minute)
  | None =>
      match Re.search _TIME_24_RE text with
      | Some m24 =>
          Some (Str.int_of_digits (grp m24 1), Str.int_of_digits (grp m24 2))
      | None =>
          let bare_word :=
            match Re.search _BARE_HOUR_WORD_RE text with
            | Some m_bare_word =>
                Some (word_to_num (Str.lower (grp m_bare_word 1)), 0%Z)
            | None => None
            end in
          match Re.search _BARE_HOUR_NUM_RE text with
          | Some m_bare =>
              let hour := Str.int_of_digits (grp m_bare 1) in
              let minute := int_or0 (Re.group m_bare 2) in
              if (0 <=? hour)%Z && (hour <=? 23)%Z then Some (hour, minute)
              else bare_word
          | None => bare_word
          end
      end
  end.

Definition _parse_reminder_time (text : string) : option string :=
  match _parse_ampm_time text with
  | Some (hour, minute, ampm) =>
      let hour := (((hour - 1) mod 12) + 1)%Z in
      Some (Str.dec hour ++ ":" ++ Str.dec2 minute ++ " "
              ++ (if String.eqb ampm "A" then "AM" else "PM"))
  | None =>
      match Re.search _TIME_24_RE text with
      | Some m24 =>
          let hour := Str.int_of_digits (grp m24 1) in
          let minute := Str.int_of_digits (grp m24 2) in
          let ampm := if (hour <? 12)%Z then "AM" else "PM" in
          let h12 := if (hour mod 12 =? 0)%Z then 12%Z else (hour mod 12)%Z in
          Some (Str.dec h12 ++ ":" ++ Str.dec2 minute ++ " " ++ ampm)
      | None => None
      end
  end.

Definition _parse_minutes (text : string) : option Z :=
  match Re.search (rxi "\b(\d+)\s*(?:minutes?|mins?)\b") text with
  | Some m => Some (Z.abs (Str.int_of_digits (grp m 1)))
  | None =>
  match Re.search (rxi "\b(\d+)\s*-\s*(?:minutes?|mins?)\b") text with
  | Some m => Some (Z.abs (Str.int_of_digits (grp m 1)))
  | None =>
  match Re.search (rxi "\b(\d+)\s*(?:m|min)\b") text with
  | Some m => Some (Z.abs (Str.int_of_digits (grp m 1)))
  | None =>
  match Re.search
          (rxi ("\b(" ++ Str.join "|" (map fst _WORD_TO_NUM)
                      ++ ")\s+(?:minutes?|mins?)\b")) text with
  | Some m => Some (word_to_num (Str.lower (grp m 1)))
  | None => None
  end end end end.

(* ================================================================== *)
(** ** Deterministic parser: the argument extractors *)
(* ================================================================== *)

(** [m = re.search(p1, s); if not m: m = re.search(p2, s); ...]. *)
Fixpoint first_search (pats : list string) (s : string) : option Re.mtch :=
  match pats with
  | [] => None
  | p :: rest =>
      match Re.search (rxi p) s with
      | Some m => Some m
      | None => first_search rest s
      end
  end.

(** [re.sub(p, "", s, flags=re.IGNORECASE)]. *)
Definition cut (p : string) (s : string) : string := Re.sub (rxi p) "" s.

(** Python's truth value of an optional string. *)
Definition truthy (o : option string) : bool :=
  match o with Some s => Str.non_empty s | None => false end.

Definition or_else (a b : option string) : option string :=
  if truthy a then a else b.

Definition _extract_weather_location (part : string) : option string :=
  match first_search
          [ "\b(?:weather|forecast|temperature)(?:\s+like)?\s+(?:in|for|at)\s+(.+)$";
            "\b(?:what(?:'s| is)?\s+)?weather\s+([A-Za-z][A-Za-z\s'\-]+)$";
            "\b(?:in|for|at)\s+(.+?)\s+(?:weather|forecast|temperature)\b";
            "\b([A-Za-z][A-Za-z\s'\-]+?)\s+(?:weather|forecast|temperature)\b";
            "\b(?:how\s+)?(?:hot|cold|warm|cool|rainy|sunny|windy|humid|snowy|raining|snowing)(?:\s+is\s+it)?\s+(?:in|for|at)\s+(.+)$";
            "\bis\s+it\s+(?:raining|snowing|sunny|cold|hot|windy|humid)\s+(?:in|for|at)\s+(.+)$";
            "\b(?:in|for|at)\s+([A-Za-z][A-Za-z\s'\-]+)$" ]
          part with
  | None => None
  | Some m =>
      let location := _clean_span (grp m 1) in
      let location := cut "^(?:could you|can you|would you|please|kindly)\s+" location in
      let location := cut "^(?:what(?:'s| is)?\s+)" location in
      let location := cut "^(?:check|get|show|tell me|give me)\s+" location in
      let location := cut "^(?:the\s+weather\s+(?:in|for|at)\s+)" location in
      let location := cut "^(?:weather\s+(?:in|for|at)\s+)" location in
      let location :=
        Str.strip (cut "^(?:the\s+city\s+of\s+|city\s+of\s+)" location) in
      let location :=
        Str.strip
          (cut "\b(?:today|tomorrow|tonight|now|right now|currently|outside|please)\b.*$"
               location) in
      Some (_clean_span location)
  end.

Definition _extract_search_query (part : string) : option string :=
  match first_search
          [ "\b(?:find|look up|lookup|look for|search(?: for)?)\s+(.+?)(?=\s+(?:in|from)\s+my\s+contacts?\b|$)";
            "\b(?:find|look up|lookup|look for|search(?: for)?)\s+(.+?)(?=\s+in\s+contacts?\b|$)";
            "\bsearch\s+contacts?\s+for\s+(.+)$";
            "\bfind\s+contact\s+named\s+(.+)$";
            "\bcontacts?\s+(?:for|named)\s+(.+)$" ]
          part with
  | None => None
  | Some m =>
      let query := _clean_span (grp m 1) in
      let query :=
        cut "^(?:for\s+|contact\s+named\s+|contacts?\s+named\s+|named\s+)" query in
      let query := cut "\s+(?:in|from)\s+my\s+contacts?\b.*$" query in
      let query := cut "\s+in\s+contacts?\b.*$" query in
      Some (_clean_span query)
  end.

Definition recipient_patterns : list string :=
  [ "\bsend\s+(?:a\s+)?message\s+saying\s+.+?\s+to\s+(.+)$";
    "\bsend\s+(?:a\s+)?message\s+to\s+(.+?)(?=\s+(?:saying|to say|that says|saying that)\b|$)";
    "\bsend\s+(.+?)\s+(?:(?:a|the)\s+)?message\b";
    "\bsend\s+(.+?)\s+(?:(?:a|the)\s+)?text\b";
    "\bsend\s+(.+?)\s+(?:(?:a|the)\s+)?note\b";
    "\bsend\s+(?:a\s+)?message\s+.+?\s+to\s+(.+)$";
    "\bsend\s+(him|her|them)\s+(?:a\s+)?message\b";
    "\btext\s+(.+?)(?=\s+(?:saying|to say|that says|saying that)\b)";
    "\bmessage\s+(.+?)(?=\s+(?:saying|to say|that says|saying that)\b)";
    "\btell\s+(.+?)(?=\s+(?:saying|to say|that says|saying that)\b)";
    "\bnotify\s+(.+?)(?=\s+(?:saying|to say|that says|saying that)\b)" ].

(** The body of the [for pat in patterns] loop of
    [_extract_message_recipient]: [None] stands for [continue]. *)
Definition recipient_of (pat part : string) : option string :=
  match Re.search (rxi pat) part with
  | None => None
  | Some m =>
      let candidate := _clean_span (grp m 1) in
      let candidate := cut "^(?:to\s+)" candidate in
      let candidate := cut "\s+(?:(?:a|the)\s+)?(?:message|text|note)\b.*$" candidate in
      let candidate := cut "\s+(?:a|an|the)\s+(?:quick|short|brief|little)\s*$" candidate in
      let candidate := cut "\s+(?:quick|short|brief|little)\s*$" candidate in
      let candidate := cut "\s+(?:a|an|the)$" candidate in
      if Str.mem_s (Str.lower candidate)
                   ["a"; "an"; "the"; "saying"; "to"; "message"; "text"]
      then None
      else Some (_clean_span candidate)
  end.

Fixpoint recipient_loop (pats : list string) (part : string) : option string :=
  match pats with
  | [] => None
  | pat :: rest =>
      match recipient_of pat part with
      | Some r => Some r
      | None => recipient_loop rest part
      end
  end.

Definition _extract_message_recipient (part : string) : option string :=
  recipient_loop recipient_patterns part.

Definition _extract_message_body (part : string) : option string :=
  match Re.search
          (rxi "\bsend\s+(?:a\s+)?message\s+saying\s+(.+?)\s+to\s+[A-Za-z][A-Za-z\s'\-]*$")
          part with
  | Some m => Some (_clean_span (grp m 1))
  | None =>
  match Re.search (rxi "\bmessage\s+[A-Za-z][A-Za-z\s'\-]*\s*[:\-]\s*(.+)$") part with
  | Some m => Some (_clean_span (grp m 1))
  | None =>
  match Re.search (rxi "\b(?:saying|to say|that says|saying that)\s+(.+)$") part with
  | Some m => Some (_clean_span (grp m 1))
  | None => None
  end end end.

Definition name_like (tok : string) : bool :=
  Re.found (Re.match_ (rx "^[A-Za-z][A-Za-z'\-]*$") tok).

(** [tok[0].isupper()]. *)
Definition head_upper (tok : string) : bool :=
  match tok with
  | String c _ => Str.is_upper c
  | EmptyString => false
  end.

(** The last resort of [_extract_message_direct]: the first word (or two
    capitalised words) after the verb is the recipient, the rest the body. *)
Definition direct_tail (part : string) : option string * option string :=
  match Re.search (rxi "\b(?:text|message|tell|notify|send)\s+(.+)$") part with
  | None => (None, None)
  | Some m =>
      let tail := _clean_span (grp m 1) in
      if negb (Str.non_empty tail) then (None, None)
      else
        match Str.split_ws tail with
        | [] => (None, None)
        | t0 :: ts =>
            if match ts with
               | t1 :: _ =>
                   Str.mem_s (Str.lower t0) ["a"; "an"; "the"]
                   && Str.mem_s (Str.lower t1) ["message"; "text"; "note"]
               | [] => false
               end
            then (None, None)
            else
              let two :=
                match ts with
                | t1 :: _ =>
                    negb (Str.mem_s (Str.lower t0) _PRONOUNS)
                    && (name_like t0 && name_like t1)
                    && (head_upper t0 && head_upper t1)
                | [] => false
                end in
              let rec_tokens := if two then firstn 2 (t0 :: ts) else [t0] in
              let recipient := _clean_span (Str.join " " rec_tokens) in
              let body :=
                _clean_span (Str.join " " (skipn (List.length rec_tokens) (t0 :: ts))) in
              if negb (Str.non_empty body) then (Some recipient, None)
              else (Some recipient, Some body)
        end
  end.

Definition direct_named (part : string) : option (string * string) :=
  match Re.search
          (rxi "\bsend\s+(.+?)\s+(?:(?:the|a)\s+)?(?:message|text|note)\s+(.+)$")
          part with
  | None => None
  | Some send_named =>
      let rec_ := _clean_span (grp send_named 1) in
      let rec_ := cut "^(?:to\s+)" rec_ in
      let rec_ := cut "\s+(?:a|an|the)$" rec_ in
      let body := _clean_span (grp send_named 2) in
      if Str.non_empty rec_
         && negb (Str.mem_s (Str.lower rec_) ["a"; "an"; "the"])
         && Str.non_empty body
      then Some (rec_, body)
      else None
  end.

Definition direct_send_to (part : string) : option (string * string) :=
  match Re.search
          (rxi "\bsend\s+(?:(?:a|the)\s+)?(?:message|text|note)\s+to\s+(.+?)(?=\s+(?:saying|to say|that says|saying that)\b|$)")
          part with
  | None => None
  | Some send_to =>
      let rec_ := _clean_span (grp send_to 1) in
      match _extract_message_body part with
      | Some body =>
          if Str.non_empty rec_ && Str.non_empty body then Some (rec_, body) else None
      | None => None
      end
  end.

Definition _extract_message_direct (part : string) : option string * option string :=
  match direct_send_to part with
  | Some (r, b) => (Some r, Some b)
  | None =>
      match direct_named part with
      | Some (r, b) => (Some r, Some b)
      | None => direct_tail part
      end
  end.

(** [re.sub(r"^the\s+", "", title)] when the mode word is [about]. *)
Definition title_of (mode title : string) : string :=
  let title := _clean_span title in
  let title := if String.eqb (Str.lower mode) "about" then cut "^the\s+" title else title in
  _clean_span title.

Definition _extract_reminder_title (part : string) : option string :=
  match Re.search (rxi "\bremind me\s+(about|to)\s+(.+?)\s+at\b") part with
  | Some m => Some (title_of (grp m 1) (grp m 2))
  | None =>
  match Re.search (rxi "\bremind me\s+(.+?)\s+at\b") part with
  | Some m => Some (_clean_span (cut "^the\s+" (_clean_span (grp m 1))))
  | None =>
  match Re.search (rxi "\bremind me\s+at\s+.+?\s+(about|to)\s+(.+)$") part with
  | Some m => Some (title_of (grp m 1) (grp m 2))
  | None =>
  match Re.search (rxi "\b(?:create\s+)?reminder\s+(?:about|to|for)\s+(.+?)\s+at\b") part with
  | Some m => Some (_clean_span (grp m 1))
  | None => None
  end end end end.

Definition _extract_song (part : string) : option string :=
  match Re.search (rxi "\bplay\s+some\s+(.+?)\s+music\b") part with
  | Some m => Some (_clean_span (grp m 1))
  | None =>
  match Re.search (rxi "\b(?:listen to|hear)\s+(.+)$") part with
  | Some m => Some (_clean_span (grp m 1))
  | None =>
  match Re.search (rxi "\bplay\s+(.+)$") part with
  | None => None
  | Some m =>
      let song := _clean_span (grp m 1) in
      let song := cut "^(?:the\s+song\s+|song\s+|the\s+music\s+|music\s+)" song in
      let song := cut "^some\s+" song in
      let song := Str.strip (cut "\bplease\b$" song) in
      Some (_clean_span song)
  end end end.

(* ================================================================== *)
(** ** Deterministic parser: one span *)
(* ================================================================== *)

(** The request-scoped context dictionary [{"last_contact": ...}]. *)
Record context : Type := Ctx { last_contact : option string }.

Definition has (nm : string) (available : list string) : bool :=
  Str.mem_s nm available.

(** The trigger cues of the seven capabilities, read on the lower-cased
    span. *)
Definition search_cue (low : string) : bool :=
  Str.contains "contact" low || Str.contains "find " low
  || Str.contains "look up" low || Str.contains "search" low.

Definition message_cue (low : string) : bool :=
  Str.contains "message" low
  || Str.contains "text " low || Str.startswith low "text"
  || Str.contains "send " low
  || Str.contains "tell " low
  || Str.contains "notify " low || Str.startswith low "notify".

Definition reminder_cue (low : string) : bool :=
  Str.contains "remind" low || Str.contains "reminder" low
  || Str.contains "remember " low.

Definition alarm_cue (low : string) : bool :=
  Str.contains "alarm" low || Str.contains "wake me up" low
  || Str.contains "wake me" low || Str.contains "alert me" low.

Definition timer_cue (low : string) : bool :=
  Str.contains "timer" low || Str.contains "countdown" low
  || Str.contains "count down" low.

Definition weather_cue (low : string) : bool :=
  existsb (fun k => Str.contains k low) _WEATHER_CUES.

Definition music_cue (low : string) : bool :=
  Str.contains "play " low || Str.contains "music" low
  || Str.contains "song" low || Str.contains "listen " low
  || Str.contains "playlist" low || Str.startswith low "hear ".

Definition parse_search (part low : string) (available : list string)
  : option (call * context) :=
  if has "search_contacts" available && search_cue low
  then
    match _extract_search_query part with
    | Some query =>
        if Str.non_empty query
        then Some (Call "search_contacts" [("query", VStr query)], Ctx (Some query))
        else None
    | None => None
    end
  else None.

(** The recipient and the body of a message span: the template
    extractors first, the direct style for whatever they left open. *)
Definition message_fields (part : string) : option string * option string :=
  let recipient := _extract_message_recipient part in
  let body := _extract_message_body part in
  if negb (truthy recipient) || negb (truthy body) then
    let '(d_rec, d_body) := _extract_message_direct part in
    (or_else recipient d_rec, or_else body d_body)
  else (recipient, body).

Definition parse_message (part low : string) (available : list string)
           (ctx : context) : option (call * context) :=
  if has "send_message" available && message_cue low
  then
    let '(recipient, body) := message_fields part in
    match recipient with
    | Some r =>
        if Str.non_empty r then
          let r :=
            if Str.mem_s (Str.lower r) _PRONOUNS && truthy (last_contact ctx)
            then match last_contact ctx with Some lc => lc | None => r end
            else r in
          match body with
          | Some b =>
              if Str.non_empty b
              then Some (Call "send_message"
                              [("recipient", VStr r); ("message", VStr b)],
                         Ctx (Some r))
              else None
          | None => None
          end
        else None
    | None => None
    end
  else None.

Definition parse_reminder (part low : string) (available : list string)
  : option call :=
  if has "create_reminder" available && reminder_cue low
  then
    match _extract_reminder_title part, _parse_reminder_time part with
    | Some title, Some t =>
        if Str.non_empty title && Str.non_empty t
        then Some (Call "create_reminder" [("title", VStr title); ("time", VStr t)])
        else None
    | _, _ => None
    end
  else None.

Definition parse_alarm (part low : string) (available : list string)
  : option call :=
  if has "set_alarm" available && alarm_cue low
  then
    match _parse_alarm_args part with
    | Some (h, m) => Some (Call "set_alarm" [("hour", VInt h); ("minute", VInt m)])
    | None => None
    end
  else None.

Definition parse_timer (part low : string) (available : list string)
  : option call :=
  if has "set_timer" available && timer_cue low
  then
    match _parse_minutes part with
    | Some mins => Some (Call "set_timer" [("minutes", VInt mins)])
    | None => None
    end
  else None.

Definition parse_weather (part low : string) (available : list string)
  : option call :=
  if has "get_weather" available && weather_cue low
  then
    match _extract_weather_location part with
    | Some location =>
        if Str.non_empty location
        then Some (Call "get_weather" [("location", VStr location)])
        else None
    | None => None
    end
  else None.

Definition parse_music (part low : string) (available : list string)
  : option call :=
  if has "play_music" available && music_cue low
  then
    match _extract_song part with
    | Some song =>
        if Str.non_empty song
        then Some (Call "play_music" [("song", VStr song)])
        else None
    | None => None
    end
  else None.

Definition keep (ctx : context) (o : option call) : option (call * context) :=
  option_map (fun c => (c, ctx)) o.

Fixpoint first_some {A : Type} (l : list (option A)) : option A :=
  match l with
  | [] => None
  | Some a :: _ => Some a
  | None :: rest => first_some rest
  end.

(** The call of one span, if any, and the context after it; the seven
    capabilities are tried in the fixed order of the source. *)
Definition _parse_part (part : string) (available : list string) (ctx : context)
  : option call * context :=
  let low := Str.lower part in
  match first_some
          [ parse_search part low available;
            parse_message part low available ctx;
            keep ctx (parse_reminder part low available);
            keep ctx (parse_alarm part low available);
            keep ctx (parse_timer part low available);
            keep ctx (parse_weather part low available);
            keep ctx (parse_music part low available) ] with
  | Some (c, ctx') => (Some c, ctx')
  | None => (None, ctx)
  end.

(** The [for part in parts] loop of [generate_hybrid]. *)
Fixpoint parse_parts (parts : list string) (available : list string)
         (ctx : context) : list call :=
  match parts with
  | [] => []
  | part :: rest =>
      match _parse_part part available ctx with
      | (Some c, ctx') => c :: parse_parts rest available ctx'
      | (None, ctx') => parse_parts rest available ctx'
      end
  end.

Definition _estimate_expected_actions (parts : list string) : Z :=
  match parts with
  | [] => 0%Z
  | _ =>
      Z.max 1 (Z.of_nat (List.length (filter _contains_action parts)))
  end.

(* ================================================================== *)
(** ** Candidate scoring and deterministic quality *)
(* ================================================================== *)

Module Py.
Import Str.

Definition hex2 (n : nat) : string :=
  String (Json.hex_digit (n / 16)) (String (Json.hex_digit (n mod 16)) "").

(** [repr(s)] of a string: single quotes unless the text holds an
    apostrophe and no double quote. *)
Definition repr_str (s : string) : string :=
  let l := of_string s in
  let q := if mem_c l "'"%char && negb (mem_c l quote) then quote else "'"%char in
  let esc (c : ascii) : string :=
    let n := code c in
    if Ascii.eqb c q || Ascii.eqb c backslash then String backslash (String c "")
    else if (n =? 10)%nat then String backslash "n"
    else if (n =? 13)%nat then String backslash "r"
    else if (n =? 9)%nat then String backslash "t"
    else if (n <? 32)%nat || (n =? 127)%nat then String backslash ("x" ++ hex2 n)
    else String c "" in
  String q (concat "" (map esc l) ++ String q "").

Fixpoint repr (v : value) : string :=
  match v with
  | VNone => "None"
  | VBool true => "True"
  | VBool false => "False"
  | VInt n => dec n
  | VStr s => repr_str s
  | VList l => "[" ++ join ", " (map repr l) ++ "]"
  end.

(** [str(v)]. *)
Definition str (v : value) : string :=
  match v with
  | VStr s => s
  | _ => repr v
  end.

End Py.

(** [any(kw in q for kw in _TOOL_KEYWORDS.get(name, []))]. *)
Definition keyword_hit (nm q : string) : bool :=
  existsb (fun kw => Str.contains kw q) (_TOOL_KEYWORDS nm).

(** [re.search(rf"\b{re.escape(str(abs(int(v))))}\b", q)]; the escaped
    text is a run of digits. *)
Definition number_in (n : Z) (q : string) : bool :=
  Re.found (Re.search (rx ("\b" ++ Str.dec (Z.abs n) ++ "\b")) q).

(** [[t for t in re.split(r"[^a-z0-9]+", s) if t]]. *)
Definition tokens (s : string) : list string :=
  filter Str.non_empty (Re.split (rx "[^a-z0-9]+") s).

(** [hit >= max(1, len(toks) - 1)] for a non-empty token list. *)
Definition most_tokens_in (s q : string) : bool :=
  let toks := tokens s in
  match toks with
  | [] => false
  | _ =>
      let hit := List.length (filter (fun t => Str.contains t q) toks) in
      (Nat.max 1 (List.length toks - 1) <=? hit)%nat
  end.

(** [int(v)] of a value that is an instance of [int]. *)
Definition as_int (v : value) : option Z :=
  match v with
  | VInt n => Some n
  | VBool b => Some (if b then 1 else 0)%Z
  | _ => None
  end.

Definition arg_score (q : string) (v : value) : Z :=
  match as_int v with
  | Some n => if number_in n q then 2%Z else 0%Z
  | None =>
      match v with
      | VStr t =>
          let s := Str.lower (Str.strip t) in
          if negb (Str.non_empty s) then 0%Z
          else if Str.contains s q then 3%Z
          else if most_tokens_in s q then 1%Z
          else 0%Z
      | _ => 0%Z
      end
  end.

Definition get_or (d : args) (k : string) (dflt : value) : value :=
  match lookup k d with Some v => v | None => dflt end.

Definition fillers : list string := ["a"; "an"; "the"; "message"; "text"; "saying"].

Definition action_words : list string :=
  ["remind"; "alarm"; "timer"; "weather"; "play"; "search"; "contact";
   "message"; "text"].

(** The penalties on a [send_message] call. *)
Definition message_penalty (q : string) (a : args) : Z :=
  let rec_ := Str.lower (Str.strip (Py.str (get_or a "recipient" (VStr "")))) in
  let msg := Str.lower (Str.strip (Py.str (get_or a "message" (VStr "")))) in
  ((if Str.mem_s rec_ fillers then 20 else 0)
   + (if Str.contains "@" rec_ && negb (Str.contains "@" q) then 10 else 0)
   + (if Str.non_empty msg
         && (2 <=? List.length (filter (fun w => Str.contains w msg) action_words))%nat
      then 8 else 0))%Z.

Definition sumZ (l : list Z) : Z := fold_right Z.add 0%Z l.

(** What one call adds to the score of its set. *)
Definition call_score (q : string) (c : call) : Z :=
  ((if keyword_hit (name c) q then 4 else 0)
   + sumZ (map (fun kv => arg_score q (snd kv)) (arguments c))
   - (if String.eqb (name c) "send_message"
      then message_penalty q (arguments c) else 0))%Z.

Definition duplicate_names (calls : list call) : Z :=
  let names := map name calls in
  (Z.of_nat (List.length names)
   - Z.of_nat (List.length (nodup string_dec names)))%Z.

Definition _candidate_score (calls : list call) (tools : list tool)
           (query : string) (expected_actions : Z) : Z :=
  match calls with
  | [] => (-10000)%Z
  | _ =>
      let n := Z.of_nat (List.length calls) in
      let q := Str.lower query in
      ((if is_valid (_validate calls tools) then 100 else -100)
       + 15 * n
       - (if (expected_actions =? 0) then 0 else 6 * Z.abs (n - expected_actions))
       - 4 * duplicate_names calls
       + sumZ (map (call_score q) calls))%Z
  end.

Definition Qltb (a b : Q) : bool := negb (Qle_bool b a).

(** [max(a, b)] and [min(a, b)] of Python on two numbers. *)
Definition py_max (a b : Q) : Q := if Qltb a b then b else a.
Definition py_min (a b : Q) : Q := if Qltb b a then b else a.

(** Credit earned by one required parameter (out of 2). *)
Definition req_credit (q : string) (v : value) : Z :=
  match as_int v with
  | Some n => if number_in n q then 2%Z else 1%Z
  | None =>
      match v with
      | VStr t =>
          let s := Str.lower (Str.strip t) in
          if negb (Str.non_empty s) then 0%Z
          else if Str.contains s q then 2%Z
          else if most_tokens_in s q then 1%Z
          else 0%Z
      | _ => 0%Z
      end
  end.

Definition required_of (tools : list tool) (nm : string) : list string :=
  match tool_map_get tools nm with
  | Some t => t_required t
  | None => []
  end.

(** [(score, max_score)] accumulated over the calls. *)
Definition quality_credit (tools : list tool) (q : string) (c : call) : Z * Z :=
  let required := required_of tools (name c) in
  ((if keyword_hit (name c) q then 2 else 0)
   + sumZ (map (fun req => req_credit q (get (arguments c) req)) required),
   2 + 2 * Z.of_nat (List.length required))%Z.

Definition _deterministic_quality (calls : list call) (tools : list tool)
           (query : string) : Q :=
  match calls with
  | [] => 0%Q
  | _ =>
      if negb (is_valid (_validate calls tools)) then 0%Q
      else
        let q := Str.lower query in
        let credits := map (quality_credit tools q) calls in
        let score := sumZ (map fst credits) in
        let max_score := sumZ (map snd credits) in
        if (max_score <=? 0)%Z then 0%Q
        else py_max 0%Q (py_min 1%Q (Qmake score (Z.to_pos max_score)))
  end.

(* ================================================================== *)
(** ** The hybrid strategy *)
(* ================================================================== *)

(** What [generate_cactus] returns. *)
Record tier_result : Type :=
  Tier { tier_calls : list call; tier_time_ms : Q; tier_confidence : Q }.

(** What [generate_hybrid] returns. *)
Record hybrid_result : Type :=
  Hybrid { function_calls : list call; total_time_ms : Q;
           confidence : Q; source : string }.

(** The external collaborators of one request.
    - [generate_cactus msgs tools]: the on-device tier, which may raise
      (model initialisation, decoding) or return its cleaned payload;
    - [probe_completion]: the [cactus_complete] call of
      [_ondevice_probe_ms], which may raise or return a payload; the
      payload is represented by the [total_time_ms] read from it, [None]
      when it does not parse;
    - [clock_ms]: the wall-clock time the request took. *)
Record world : Type :=
  World { generate_cactus : list message -> list tool -> Exc tier_result;
          probe_completion : Exc (option Q);
          clock_ms : Q }.

(** Calls that leave the process. *)
Inductive event : Type :=
| CactusInference
| CactusProbe.

(** [_ondevice_probe_ms]: only the decoding of the payload sits inside
    the [try]; the model call itself is not guarded. *)
Definition _ondevice_probe_ms (w : world) : Exc Q :=
  payload <- probe_completion w ;;
  Ok (match payload with
      | Some t => if Qltb 0 t then t else 1%Q
      | None => 1%Q
      end).

Inductive origin : Type := Det | LocalTier | Merged.

Definition det_bonus (o : origin) : Z :=
  match o with Det => 1%Z | _ => 0%Z end.

(** The state after the deterministic pass. *)
Record det_state : Type :=
  DetState { msgs : list message; user_query : string; parts : list string;
             expected_actions : Z; det_calls : list call;
             det_valid : bool; det_quality : Q }.

Definition nonempty {A : Type} (l : list A) : bool :=
  match l with [] => false | _ => true end.

Definition deterministic_pass (messages : list message) (tools : list tool)
  : Exc det_state :=
  let msgs := _preprocess messages in
  let user_query :=
    Str.strip (Str.join " " (map content
                 (filter (fun m => String.eqb (role m) "user") msgs))) in
  let available := map t_name tools in
  parts <- (if Str.non_empty user_query then _split_actions user_query else Ok []) ;;
  let expected_actions := _estimate_expected_actions parts in
  let det_calls := _dedupe_calls (parse_parts parts available (Ctx None)) in
  let det_valid :=
    if nonempty det_calls then is_valid (_validate det_calls tools) else false in
  let det_quality :=
    if nonempty det_calls
    then _deterministic_quality det_calls tools user_query else 0%Q in
  Ok (DetState msgs user_query parts expected_actions det_calls det_valid det_quality).

Definition threshold : Q := 45 # 100.

Definition need_local_model (d : det_state) : bool :=
  negb (nonempty (det_calls d))
  || (negb (expected_actions d =? 0)%Z
      && (Z.of_nat (List.length (det_calls d)) <? expected_actions d)%Z)
  || (nonempty (det_calls d)
      && (negb (det_valid d) || Qltb (det_quality d) threshold)).

(** The candidate pool of the escalation branch. *)
Definition candidates (d : det_state) (local_calls : list call)
           (local_valid : bool) : list (origin * list call) :=
  let det_ok := det_valid d && nonempty (det_calls d) in
  let local_ok := local_valid && nonempty local_calls in
  ((if det_ok then [(Det, det_calls d)] else [])
   ++ (if local_ok then [(LocalTier, local_calls)] else [])
   ++ (if det_ok && local_ok
       then [(Merged, _dedupe_calls (det_calls d ++ local_calls))] else []))%list.

Definition adjusted_score (tools : list tool) (q : string) (expected : Z)
           (cand : origin * list call) : Z :=
  (_candidate_score (snd cand) tools q expected + det_bonus (fst cand))%Z.

(** The selection loop: a candidate replaces the best so far only when
    its score is strictly greater. *)
Fixpoint select (tools : list tool) (q : string) (expected : Z)
         (cands : list (origin * list call))
         (best : option origin * list call * Z)
  : option origin * list call * Z :=
  match cands with
  | [] => best
  | cand :: rest =>
      let score := adjusted_score tools q expected cand in
      if (snd best <? score)%Z
      then select tools q expected rest (Some (fst cand), snd cand, score)
      else select tools q expected rest best
  end.

Definition initial_best : option origin * list call * Z :=
  (None, [], (- 10 ^ 18)%Z).

Definition floor_of (best_name : option origin) : Q :=
  match best_name with
  | Some LocalTier => 80 # 100
  | Some Merged => 85 # 100
  | _ => 75 # 100
  end.

Definition empty_tier : tier_result := Tier [] 0 0.

Definition total_ms (local_time_ms elapsed_ms : Q) : Q :=
  if Qltb 0 local_time_ms then local_time_ms else elapsed_ms.

(** The branch taken when the deterministic pass needs rescue. *)
Definition escalate (w : world) (tools : list tool) (d : det_state)
  : hybrid_result :=
  let local :=
    match generate_cactus w (msgs d) tools with
    | Ok r => r
    | Raised => empty_tier
    end in
  let local_calls := _dedupe_calls (tier_calls local) in
  let local_valid :=
    if nonempty local_calls then is_valid (_validate local_calls tools) else false in
  let pool := candidates d local_calls local_valid in
  let '(chosen_calls, conf) :=
    match pool with
    | [] =>
        (if nonempty local_calls then local_calls else det_calls d,
         tier_confidence local)
    | _ =>
        let '(best_name, best_calls, _) :=
          select tools (user_query d) (expected_actions d) pool initial_best in
        (best_calls, py_max (tier_confidence local) (floor_of best_name))
    end in
  Hybrid chosen_calls (total_ms (tier_time_ms local) (clock_ms w)) conf "on-device".

(** The branch taken when the deterministic set is trusted. *)
Definition settle (w : world) (d : det_state) : Exc hybrid_result :=
  probe_ms <- _ondevice_probe_ms w ;;
  Ok (Hybrid (det_calls d) (total_ms probe_ms (clock_ms w))
             (py_max (92 # 100) (det_quality d)) "on-device").

(** [generate_hybrid(messages, tools)], with the external calls it made.
    The [confidence_threshold] parameter of the source is never read. *)
Definition generate_hybrid (w : world) (messages : list message)
           (tools : list tool) : list event * Exc hybrid_result :=
  match deterministic_pass messages tools with
  | Raised => ([], Raised)
  | Ok d =>
      if need_local_model d
      then ([CactusInference], Ok (escalate w tools d))
      else ([CactusProbe], settle w d)
  end.

(* ================================================================== *)
(** ** Specification vocabulary *)
(* ================================================================== *)

(** [l1] is [l2] with some elements left out, order kept. *)
Inductive Subseq {A : Type} : list A -> list A -> Prop :=
| Subseq_nil : Subseq [] []
| Subseq_skip : forall x l1 l2, Subseq l1 l2 -> Subseq l1 (x :: l2)
| Subseq_keep : forall x l1 l2, Subseq l1 l2 -> Subseq (x :: l1) (x :: l2).

(** The first call of [l] whose key is [k]. *)
Definition first_with_key (k : string * string) (l : list call) : option call :=
  find (fun c => key_eqb (_call_key c) k) l.

(** A string made of white space only ([s.strip() == ""]). *)
Definition blank (s : string) : bool := forallb Str.is_space (Str.of_string s).

(** A value the validator accepts for a required parameter. *)
Definition present (v : value) : Prop :=
  v <> VNone /\ v <> VStr "" /\ v <> VList [].

(** The registry of the seven capabilities, each with the parameters it
    requires. *)
Definition registry : list tool :=
  [ Tool "get_weather" ["location"];
    Tool "set_alarm" ["hour"; "minute"];
    Tool "send_message" ["recipient"; "message"];
    Tool "create_reminder" ["title"; "time"];
    Tool "search_contacts" ["query"];
    Tool "play_music" ["song"];
    Tool "set_timer" ["minutes"] ].

(** Sample requests used to exercise the theorems below. *)
Definition timer_request : list message :=
  [Msg "user" "set a timer for 5 minutes"].

Definition timer_call : call := Call "set_timer" [("minutes", VInt 5)].

Definition timer_state : det_state :=
  DetState timer_request "set a timer for 5 minutes"
           ["set a timer for 5 minutes"] 1 [timer_call] true 1.

(** A request with two expected actions of which only the first parses. *)
Definition timer_and_play_request : list message :=
  [Msg "user" "set a timer for 5 minutes and play"].

Definition timer_and_play_state : det_state :=
  DetState timer_and_play_request "set a timer for 5 minutes and play"
           ["set a timer for 5 minutes"; "play"] 2 [timer_call] true 1.

(** A message call addressed to a filler word. *)
Definition to_the (m : string) : call :=
  Call "send_message" [("recipient", VStr "the"); ("message", VStr m)].

(** A world whose local tier answers the timer and a message to "the",
    and whose probe answers in 3 ms. *)
Definition filler_world : world :=
  World (fun _ _ => Ok (Tier [timer_call; to_the "play"] 10 (1 # 2)))
        (Ok (Some 3%Q)) 5.

(** A world whose on-device engine raises on every call. *)
Definition broken_world : world := World (fun _ _ => Raised) Raised 1.

(** *** A declarative reading of one successful match

    [Steps r cu cs w cu' cs']: the pattern [r] can take the cursor [cu]
    to [cu'] by consuming exactly the text [w], turning the captures
    [cs] into [cs'].  The matcher is sound for it, which is what the
    range properties of captured groups rest on. *)

Module Sem.
Import Str Re.

(** The character before the cursor once [w] has been consumed. *)
Fixpoint last_opt (prev : option ascii) (w : chars) : option ascii :=
  match w with
  | [] => prev
  | c :: w' => last_opt (Some c) w'
  end.

(** The cursor [cu] moved over [w]. *)
Definition after (cu : cursor) (w : chars) (rest' : chars) : cursor :=
  Cur (last_opt (c_prev cu) w) (c_pos cu + List.length w) rest'.

Definition within (hi : option nat) (n : nat) : Prop :=
  match hi with
  | Some h => n <= h
  | None => True
  end.

Inductive Steps : regex -> cursor -> caps -> chars -> cursor -> caps -> Prop :=
| St_eps : forall cu cs, Steps REps cu cs [] cu cs
| St_cls : forall k cu cs c rest',
    c_rest cu = c :: rest' -> cls_match k c = true ->
    Steps (RCls k) cu cs [c] (after cu [c] rest') cs
| St_cat : forall r1 r2 cu cs w1 cu1 cs1 w2 cu2 cs2,
    Steps r1 cu cs w1 cu1 cs1 -> Steps r2 cu1 cs1 w2 cu2 cs2 ->
    Steps (RCat r1 r2) cu cs (w1 ++ w2)%list cu2 cs2
| St_alt_l : forall r1 r2 cu cs w cu' cs',
    Steps r1 cu cs w cu' cs' -> Steps (RAlt r1 r2) cu cs w cu' cs'
| St_alt_r : forall r1 r2 cu cs w cu' cs',
    Steps r2 cu cs w cu' cs' -> Steps (RAlt r1 r2) cu cs w cu' cs'
| St_many : forall g lo hi k cu cs w rest',
    c_rest cu = (w ++ rest')%list -> forallb (cls_match k) w = true ->
    lo <= List.length w -> within hi (List.length w) ->
    Steps (RMany g lo hi k) cu cs w (after cu w rest') cs
| St_opt_some : forall r cu cs w cu' cs',
    Steps r cu cs w cu' cs' -> Steps (ROpt r) cu cs w cu' cs'
| St_opt_none : forall r cu cs, Steps (ROpt r) cu cs [] cu cs
| St_grp : forall n r cu cs w cu' cs',
    Steps r cu cs w cu' cs' -> Steps (RGrp n r) cu cs w cu' ((n, w) :: cs')
| St_look : forall r cu cs w cu' cs',
    Steps r cu cs w cu' cs' -> Steps (RLook r) cu cs [] cu cs'
| St_bol : forall cu cs, c_pos cu = 0 -> Steps RBol cu cs [] cu cs
| St_eol : forall cu cs, at_eol cu = true -> Steps REol cu cs [] cu cs
| St_wordb : forall cu cs, at_boundary cu = true -> Steps RWordB cu cs [] cu cs.

(** The 256 characters. *)
Definition all_ascii : chars := map ascii_of_nat (seq 0 256).


(** Under [re.IGNORECASE] the literal [x] matches only characters that
    lower to [x]. *)
Definition letter_class_ok (x : ascii) : bool :=
  forallb (fun c => implb (cls_match (Cls false true [IChr x]) c)
                          (Ascii.eqb (lower_c c) x))
          all_ascii.


End Sem.

(** *** White-space normal form

    A text is normalized when its only white space is single blanks
    between words: no leading or trailing white space, no run of two,
    no tab or newline. *)

Module Norm.
Import Str.

Definition head_space (l : chars) : bool :=
  match l with
  | c :: _ => is_space c
  | [] => false
  end.

(** Every white-space character is a blank and no white space follows it. *)
Fixpoint spaced (l : chars) : bool :=
  match l with
  | [] => true
  | c :: l' =>
      (if is_space c then Ascii.eqb c " " && negb (head_space l') else true)
      && spaced l'
  end.

Definition normal (l : chars) : bool :=
  spaced l && negb (head_space l) && negb (head_space (rev l)).

(** What [re.sub(r"\s+", " ", text)] computes: each maximal run of white
    space becomes one blank; [in_run] tells that the blank of the current
    run is already out. *)
Fixpoint collapse (in_run : bool) (l : chars) : chars :=
  match l with
  | [] => []
  | c :: l' =>
      if is_space c
      then if in_run then collapse true l' else " "%char :: collapse true l'
      else c :: collapse false l'
  end.

(** Length of the leading run of characters of class [k]. *)
Fixpoint span (k : Re.cls) (l : chars) : nat :=
  match l with
  | c :: l' => if Re.cls_match k c then S (span k l') else 0
  | [] => 0
  end.

(** The cursor after that run. *)
Fixpoint run_end (k : Re.cls) (prev : option ascii) (pos : nat) (l : chars)
  : Re.cursor :=
  match l with
  | c :: l' =>
      if Re.cls_match k c then run_end k (Some c) (S pos) l'
      else Re.Cur prev pos l
  | [] => Re.Cur prev pos []
  end.

(** The class [\s]. *)
Definition ws : Re.cls := Re.Cls false false [Re.ISpace].


End Norm.

Definition normalized (s : string) : bool := Norm.normal (Str.of_string s).

(** A string argument as the extractors emit it: not empty, not blank,
    normalized. *)
Definition good_text (s : string) : bool :=
  Str.non_empty s && negb (blank s) && normalized s.






(** A key of the number-word table. *)
Definition known_word (w : string) : bool :=
  Str.mem_s w (map fst _WORD_TO_NUM).



(* ================================================================== *)
(** ** Further functions of the source *)
(* ================================================================== *)

(** [" ".join(m["content"] for m in messages if m["role"] == "user")]. *)
Definition user_text (messages : list message) : string :=
  Str.join " " (map content
                    (filter (fun m => String.eqb (role m) "user") messages)).

(** *** Keyword-based tool pre-selector *)


(** *** Compound-query splitter *)

Definition _SPLIT_PATTERNS : list string :=
  [ "\s*,\s*and\s+";
    "\s+and\s+";
    "\s*,\s*then\s+";
    "\s+then\s+";
    "\s+also\s+";
    "\s*,\s+(?=[A-Z])" ].

Definition _SPLITTER : Re.regex := rxi (Str.join "|" _SPLIT_PATTERNS).

(** [s.rstrip(set)]. *)
Definition rstrip_chars (set : string) (s : string) : string :=
  Str.to_string (Str.rstrip_by (Str.mem_c (Str.of_string set)) (Str.of_string s)).

(** [sum(1 for kw in kws if kw in part_lower)]. *)
Definition keyword_score (nm part_lower : string) : nat :=
  List.length (filter (fun kw => Str.contains kw part_lower) (_TOOL_KEYWORDS nm)).

(** The inner loop over [relevant_tools]: the best unused tool so far and
    its score. *)
Fixpoint best_tool_from (used : list string) (part_lower : string)
         (tools : list tool) (best : option tool * nat) : option tool * nat :=
  match tools with
  | [] => best
  | t :: rest =>
      if Str.mem_s (t_name t) used then best_tool_from used part_lower rest best
      else
        let score := keyword_score (t_name t) part_lower in
        if (snd best <? score)%nat
        then best_tool_from used part_lower rest (Some t, score)
        else best_tool_from used part_lower rest best
  end.

(** The outer loop over the parts, with its [used_tools] set. *)
Fixpoint assign_tools (used : list string) (relevant_tools : list tool)
         (pieces : list string) : list (string * tool) :=
  match pieces with
  | [] => []
  | part :: rest =>
      if negb (Str.non_empty part) then assign_tools used relevant_tools rest
      else
        match best_tool_from used (Str.lower part) relevant_tools (None, 0) with
        | (Some t, score) =>
            if (0 <? score)%nat
            then (part, t) :: assign_tools (t_name t :: used) relevant_tools rest
            else assign_tools used relevant_tools rest
        | (None, _) => assign_tools used relevant_tools rest
        end
  end.

(** [None] when the query is not compound. *)
Definition _split_compound (messages : list message) (relevant_tools : list tool)
  : option (list (string * tool)) :=
  let query := user_text messages in
  let pieces :=
    map (fun p => rstrip_chars ".,;" (Str.strip p))
        (filter (fun p => Str.non_empty p && Str.non_empty (Str.strip p))
                (Re.split _SPLITTER query)) in
  if (List.length pieces <=? 1)%nat then None
  else
    let result := assign_tools [] relevant_tools pieces in
    if (2 <=? List.length result)%nat then Some result else None.

(** *** Post-processing of tool call arguments *)

Definition _TIME_FIELDS : list string := ["hour"; "minute"; "minutes"].

Definition _REMIND_STRIP : Re.regex :=
  rxi "^(remind me (about|to)|reminder (about|to)|remember to|don'?t forget (about|to))\s+".

Definition _ISO_TS : Re.regex := rx "^\d{4}-\d{2}-\d{2}T(\d{2}):(\d{2}):\d{2}".

(** [s.isdigit()] on ASCII text. *)
Definition isdigit (s : string) : bool :=
  Str.non_empty s && forallb Str.is_digit (Str.of_string s).

(** [s.lstrip("-")] and the number of dashes it removes. *)
Definition lstrip_dash (s : string) : string :=
  Str.to_string (Str.lstrip_by (fun c => Ascii.eqb c "-") (Str.of_string s)).

Definition dashes (s : string) : nat :=
  String.length s - String.length (lstrip_dash s).

(** [int(v)] for a text that is dashes followed by digits: one sign is
    read, a second one is a [ValueError]. *)
Definition int_of_dashed (v : string) : Exc Z :=
  match dashes v with
  | 0 => Ok (Str.int_of_digits v)
  | 1 => Ok (- Str.int_of_digits (lstrip_dash v))%Z
  | _ => Raised
  end.

(** What becomes of a string value under key [k]. *)
Definition clean_text (k v : string) : Exc value :=
  let v := rstrip_chars "!.',;:" v in
  if isdigit (lstrip_dash v) then
    n <- int_of_dashed v ;; Ok (VInt (Z.abs n))
  else
    match Re.match_ _ISO_TS v with
    | Some m =>
        let h := Str.int_of_digits (grp m 1) in
        let mn := Str.int_of_digits (grp m 2) in
        let per := if (h <? 12)%Z then "AM" else "PM" in
        let h12 := if (h mod 12 =? 0)%Z then 12%Z else (h mod 12)%Z in
        Ok (VStr (Str.dec h12 ++ ":" ++ Str.dec2 mn ++ " " ++ per))
    | None =>
        let v := if String.eqb k "title"
                 then Str.strip (Re.sub _REMIND_STRIP "" v) else v in
        Ok (VStr v)
    end.

(** What becomes of a number under key [k]: a time field keeps the
    absolute value, any other field gets the text of the number. *)
Definition clean_number (k : string) (v : value) (n : Z) : value :=
  if Str.mem_s k _TIME_FIELDS then VInt (Z.abs n) else VStr (Py.str v).

(** One [(k, v)] of the loop of [_clean_calls]; a list stands for its
    first element (or the empty text), and a value that is neither text
    nor number leaves the entry as it is. *)
Definition clean_value (k : string) (v : value) : Exc value :=
  let head :=
    match v with
    | VList [] => VStr ""
    | VList (x :: _) => x
    | _ => v
    end in
  match head with
  | VStr s => clean_text k s
  | VInt n => Ok (clean_number k head n)
  | VBool b => Ok (clean_number k head (if b then 1 else 0)%Z)
  | _ => Ok v
  end.

Fixpoint clean_args (d : args) : Exc args :=
  match d with
  | [] => Ok []
  | (k, v) :: rest =>
      v' <- clean_value k v ;;
      rest' <- clean_args rest ;;
      Ok ((k, v') :: rest')
  end.

Fixpoint _clean_calls (calls : list call) : Exc (list call) :=
  match calls with
  | [] => Ok []
  | c :: rest =>
      a <- clean_args (arguments c) ;;
      rest' <- _clean_calls rest ;;
      Ok (Call (name c) a :: rest')
  end.

(** *** The cached model handle *)

(** The on-device engine as the cache manager sees it: what
    [cactus_init], [cactus_reset] and [cactus_destroy] do when called.
    A handle is an [option]: [None] is Python's [None], which
    [cactus_init] may return like any other value. *)
Record engine : Type :=
  Engine { cactus_init : Exc (option nat);
           cactus_reset : nat -> Exc unit;
           cactus_destroy : nat -> Exc unit }.

Inductive engine_call : Type :=
| CallInit
| CallReset (h : nat)
| CallDestroy (h : nat).

(** [_destroy_cached_model]: the calls made and the new [_CACHED_MODEL];
    an exception of [cactus_destroy] is swallowed. *)
Definition _destroy_cached_model (e : engine) (cached : option nat)
  : list engine_call * option nat :=
  match cached with
  | Some h =>
      match cactus_destroy e h with
      | Ok _ => ([CallDestroy h], None)
      | Raised => ([CallDestroy h], None)
      end
  | None => ([], None)
  end.

(** [_get_cached_model]: the calls made, the new [_CACHED_MODEL] and the
    handle returned; an exception of [cactus_init] leaves the cache as
    it was before the assignment. *)
Definition _get_cached_model (e : engine) (cached : option nat)
  : list engine_call * option nat * Exc (option nat) :=
  let fresh (trace : list engine_call) (cached : option nat) :=
    match cactus_init e with
    | Ok h => ((trace ++ [CallInit])%list, h, Ok h)
    | Raised => ((trace ++ [CallInit])%list, cached, Raised)
    end in
  match cached with
  | None => fresh [] None
  | Some h =>
      match cactus_reset e h with
      | Ok _ => ([CallReset h], Some h, Ok (Some h))
      | Raised =>
          let '(trace, cached') := _destroy_cached_model e (Some h) in
          fresh (CallReset h :: trace) cached'
      end
  end.

(** A span as the splitter hands it on: stripped and not empty. *)
Definition solid (p : string) : Prop := Str.strip p = p /\ p <> "".

(** The 12-hour text of the time of day [hour:minute] on the 24-hour
    clock. *)
Definition clock_text (hour minute : Z) : string :=
  Str.dec (if (hour mod 12 =? 0)%Z then 12%Z else (hour mod 12)%Z)
  ++ ":" ++ Str.dec2 minute ++ " " ++ (if (hour <? 12)%Z then "AM" else "PM").

(** The contact a call names: the query of a contact search, the
    recipient of a message. *)
Definition contact_of (c : call) : option string :=
  if String.eqb (name c) "search_contacts" then
    match lookup "query" (arguments c) with Some (VStr q) => Some q | _ => None end
  else if String.eqb (name c) "send_message" then
    match lookup "recipient" (arguments c) with Some (VStr r) => Some r | _ => None end
  else None.

(** The context after a span, as the call it gave tells it. *)
Definition context_after (ctx : context) (o : option call) : context :=
  match o with
  | Some c =>
      match contact_of c with
      | Some s => Ctx (Some s)
      | None => ctx
      end
  | None => ctx
  end.

(** What [_clean_calls] leaves under a key: no bool, no negative
    integer. *)
Definition cleaned (v : value) : Prop :=
  match v with
  | VInt n => (0 <= n)%Z
  | VBool _ => False
  | _ => True
  end.

(** The order [sort_keys] puts the entries in. *)
Definition key_le (a b : string * value) : Prop :=
  String.leb (fst a) (fst b) = true.


(* ================================================================== *)
(** * Properties *)
(* ================================================================== *)

(** ** The matcher on patterns of the source

    The expected values are what Python's [re] answers for the same
    pattern, flags and text. *)

Example matcher_search_0 :
  option_map (fun m => map (Re.group m) (seq 1 2))
             (Re.search (rxi "\b(?:at|for)\s+(\d{1,2})(?::([0-5]\d))?\b") "Set an alarm FOR 7:30 please")
  = Some [Some "7"; Some "30"].
Proof. vm_compute. reflexivity. Qed.

Example matcher_search_1 :
  option_map (fun m => map (Re.group m) (seq 1 3))
             (Re.search (rx "\b(\d{1,2})(?::(\d{2}))?\s*([AaPp])\.?\s*[Mm]\.?\b") "meet at 9:05 p.m. sharp")
  = Some [Some "9"; Some "05"; Some "p"].
Proof. vm_compute. reflexivity. Qed.

Example matcher_search_2 :
  option_map (fun m => map (Re.group m) (seq 1 2))
             (Re.search (rx "\b([01]?\d|2[0-3]):([0-5]\d)\b") "at 25:61 or 23:59")
  = Some [Some "23"; Some "59"].
Proof. vm_compute. reflexivity. Qed.

Example matcher_search_3 :
  option_map (fun m => map (Re.group m) (seq 1 2))
             (Re.search (rxi "\bremind me\s+(about|to)\s+(.+?)\s+at\b") "Remind me to call the dentist at 3:00 PM")
  = Some [Some "to"; Some "call the dentist"].
Proof. vm_compute. reflexivity. Qed.

Example matcher_search_4 :
  option_map (fun m => map (Re.group m) (seq 1 1))
             (Re.search (rxi "\b(?:find|look up|lookup|look for|search(?: for)?)\s+(.+?)(?=\s+(?:in|from)\s+my\s+contacts?\b|$)") "look up Sarah in my contacts")
  = Some [Some "Sarah"].
Proof. vm_compute. reflexivity. Qed.

Example matcher_search_5 :
  option_map (fun m => map (Re.group m) (seq 1 1))
             (Re.search (rxi "\bsend\s+(.+?)\s+(?:(?:a|the)\s+)?message\b") "send Bob a message saying hello")
  = Some [Some "Bob"].
Proof. vm_compute. reflexivity. Qed.

Example matcher_search_6 :
  option_map (fun m => map (Re.group m) (seq 1 1))
             (Re.search (rxi "\b([A-Za-z][A-Za-z\s'\-]+?)\s+(?:weather|forecast|temperature)\b") "Tokyo weather tomorrow")
  = Some [Some "Tokyo"].
Proof. vm_compute. reflexivity. Qed.

Example matcher_sub_7 :
  Re.sub (rxi "\bwake me up at\b") "set an alarm for" "Wake Me Up At 6 and wake me up at 7"
  = "set an alarm for 6 and set an alarm for 7".
Proof. vm_compute. reflexivity. Qed.

Example matcher_sub_8 :
  Re.sub (rx "\s+") " " ("  a " ++ String (ascii_of_nat 9) "" ++ " b" ++ String (ascii_of_nat 10) "")
  = " a b ".
Proof. vm_compute. reflexivity. Qed.

Example matcher_sub_9 :
  Re.sub (rxi "\b(?:today|tomorrow|tonight|now|right now|currently|outside|please)\b.*$") "" "Paris today or so"
  = "Paris ".
Proof. vm_compute. reflexivity. Qed.

Example matcher_split_10 :
  Re.split (rxi "\b(?:and|then|also|plus|after that|next)\b|&") "x & y then z also w and"
  = ["x "; " y "; " z "; " w "; ""].
Proof. vm_compute. reflexivity. Qed.

Example matcher_split_11 :
  Re.split (rx "\s*[,;]\s*") "a , b;c ,, d"
  = ["a"; "b"; "c"; ""; "d"].
Proof. vm_compute. reflexivity. Qed.

Example matcher_split_12 :
  Re.split (rx "[^a-z0-9]+") "lo-fi beats, 24/7"
  = ["lo"; "fi"; "beats"; "24"; "7"].
Proof. vm_compute. reflexivity. Qed.

(** ** Duplicate removal *)

Section DedupeFacts.
Variables (A K : Type) (key : A -> K) (eqb : K -> K -> bool).
Hypothesis eqb_spec : forall a b, eqb a b = true <-> a = b.

Lemma seen_mem_In : forall k seen, seen_mem eqb k seen = true <-> In k seen.
Proof.
  intros k seen. unfold seen_mem. rewrite existsb_exists. split.
  - intros [x [Hin Hx]]. apply eqb_spec in Hx. now subst.
  - intros Hin. exists k. split; [assumption | now apply eqb_spec].
Qed.

Lemma seen_mem_false : forall k seen, seen_mem eqb k seen = false <-> ~ In k seen.
Proof.
  intros k seen. rewrite <- seen_mem_In. now destruct (seen_mem eqb k seen).
Qed.

Lemma dedupe_from_subseq : forall l seen, Subseq (dedupe_from key eqb seen l) l.
Proof.
  induction l as [|c rest IH]; intros seen; simpl.
  - constructor.
  - destruct (seen_mem eqb (key c) seen); constructor; apply IH.
Qed.

Lemma dedupe_from_fresh : forall l seen x,
  In x (dedupe_from key eqb seen l) -> ~ In (key x) seen.
Proof.
  induction l as [|c rest IH]; intros seen x; simpl; [tauto|].
  destruct (seen_mem eqb (key c) seen) eqn:E.
  - apply IH.
  - intros [-> | Hin].
    + now apply seen_mem_false.
    + intros Hs. apply (IH _ _ Hin). now right.
Qed.

Lemma dedupe_from_NoDup : forall l seen, NoDup (map key (dedupe_from key eqb seen l)).
Proof.
  induction l as [|c rest IH]; intros seen; simpl; [constructor|].
  destruct (seen_mem eqb (key c) seen) eqn:E; [apply IH|].
  simpl. constructor; [|apply IH].
  rewrite in_map_iff. intros [x [Hk Hin]].
  apply dedupe_from_fresh in Hin. apply Hin. left. now symmetry.
Qed.

Lemma dedupe_from_find : forall l seen k,
  ~ In k seen ->
  find (fun c => eqb (key c) k) (dedupe_from key eqb seen l)
  = find (fun c => eqb (key c) k) l.
Proof.
  induction l as [|c rest IH]; intros seen k Hk; simpl; [reflexivity|].
  destruct (seen_mem eqb (key c) seen) eqn:E.
  - destruct (eqb (key c) k) eqn:Ek.
    + apply eqb_spec in Ek. subst k. apply seen_mem_In in E. contradiction.
    + now apply IH.
  - simpl. destruct (eqb (key c) k) eqn:Ek; [reflexivity|].
    apply IH. intros [Heq | Hin]; [|contradiction].
    assert (eqb (key c) k = true) by now apply eqb_spec.
    congruence.
Qed.

Lemma dedupe_from_fixed : forall l seen,
  NoDup (map key l) ->
  (forall x, In x l -> ~ In (key x) seen) ->
  dedupe_from key eqb seen l = l.
Proof.
  induction l as [|c rest IH]; intros seen Hnd Hfresh; simpl; [reflexivity|].
  inversion Hnd as [|k ks Hnotin Hnd']; subst.
  assert (E : seen_mem eqb (key c) seen = false).
  { apply seen_mem_false. apply Hfresh. now left. }
  rewrite E. f_equal. apply IH; [assumption|].
  intros x Hin [Heq | Hs].
  - apply Hnotin. rewrite Heq. now apply in_map.
  - apply (Hfresh x); [now right | assumption].
Qed.

Lemma dedupe_from_idem : forall l,
  dedupe_from key eqb [] (dedupe_from key eqb [] l) = dedupe_from key eqb [] l.
Proof.
  intros l. apply dedupe_from_fixed.
  - apply dedupe_from_NoDup.
  - intros x _ [].
Qed.
End DedupeFacts.

Lemma key_eqb_spec : forall a b : string * string, key_eqb a b = true <-> a = b.
Proof.
  intros [a1 a2] [b1 b2]. unfold key_eqb. simpl.
  rewrite andb_true_iff, !String.eqb_eq. split.
  - now intros [-> ->].
  - intros H. inversion H. now split.
Qed.

(** C8. Deduplication keeps, for every key (tool name, canonical JSON of
    the arguments), exactly the first call carrying it, leaves the
    survivors in their original order, and deduplicating a second time
    changes nothing. *)
Theorem dedupe_calls_first_occurrence_idempotent : forall calls : list call,
  Subseq (_dedupe_calls calls) calls
  /\ NoDup (map _call_key (_dedupe_calls calls))
  /\ (forall k, first_with_key k (_dedupe_calls calls) = first_with_key k calls)
  /\ _dedupe_calls (_dedupe_calls calls) = _dedupe_calls calls.
Proof.
  intros calls. unfold _dedupe_calls, first_with_key. repeat split.
  - apply dedupe_from_subseq.
  - apply dedupe_from_NoDup, key_eqb_spec.
  - intros k. apply dedupe_from_find; [apply key_eqb_spec | intros []].
  - apply dedupe_from_idem, key_eqb_spec.
Qed.

(** ** Schema validation *)

Lemma is_missing_present : forall v, is_missing v = false <-> present v.
Proof.
  intros v. unfold present. split.
  - intros H. repeat split; intros ->; discriminate.
  - intros [H1 [H2 H3]]. destruct v as [| | |s|l]; try reflexivity.
    + contradiction.
    + destruct s; [contradiction | reflexivity].
    + destruct l; [contradiction | reflexivity].
Qed.

Lemma validate_call_valid : forall tools c,
  validate_call tools c = Valid <->
  exists t, tool_map_get tools (name c) = Some t
            /\ forall req, In req (t_required t) -> present (get (arguments c) req).
Proof.
  intros tools c. unfold validate_call.
  destruct (tool_map_get tools (name c)) as [t|].
  - destruct (find _ (t_required t)) as [req|] eqn:F.
    + split; [discriminate|]. intros [t' [Ht Hall]]. inversion Ht; subst t'.
      apply find_some in F. destruct F as [Hin Hm].
      apply Hall, is_missing_present in Hin. congruence.
    + split; [|reflexivity]. intros _. exists t. split; [reflexivity|].
      intros req Hin. apply is_missing_present.
      now apply (find_none _ _ F).
  - split; [discriminate|]. intros [t [Ht _]]. discriminate.
Qed.

Lemma validate_valid : forall calls tools,
  is_valid (_validate calls tools) = true <->
  forall c, In c calls -> validate_call tools c = Valid.
Proof.
  induction calls as [|c rest IH]; intros tools; simpl.
  - split; [intros _ c [] | reflexivity].
  - destruct (validate_call tools c) eqn:E.
    + rewrite IH. split.
      * intros H c' [<- | Hin]; [assumption | now apply H].
      * intros H c' Hin. apply H. now right.
    + split; [discriminate|]. intros H. specialize (H c (or_introl eq_refl)). congruence.
    + split; [discriminate|]. intros H. specialize (H c (or_introl eq_refl)). congruence.
Qed.

(** C4 (as amended). A call set is valid exactly when every call names a
    registered tool and every parameter that tool requires is present
    and is neither [None], nor the empty string, nor the empty list; a
    string of white space that is not empty is accepted. *)
Theorem validate_requires_present_nonempty : forall calls tools,
  (is_valid (_validate calls tools) = true <->
   forall c, In c calls ->
     exists t, tool_map_get tools (name c) = Some t
               /\ forall req, In req (t_required t) ->
                              present (get (arguments c) req))
  /\ (forall s, s <> "" -> present (VStr s)).
Proof.
  intros calls tools. split.
  - rewrite validate_valid. split; intros H c Hin; apply validate_call_valid; auto.
  - intros s Hs. repeat split; try discriminate. intros E. inversion E. contradiction.
Qed.

(** C4 (as stated) fails: a required parameter holding one blank is
    accepted. *)
Lemma validate_blank_required_accepted :
  let tools := [Tool "play_music" ["song"]] in
  let c := Call "play_music" [("song", VStr " ")] in
  tool_map_get tools (name c) = Some (Tool "play_music" ["song"])
  /\ get (arguments c) "song" = VStr " "
  /\ blank " " = true
  /\ is_valid (_validate [c] tools) = true.
Proof. repeat split. Qed.

(** ** Escalation and confidence *)

Lemma Qltb_false : forall a b : Q, Qltb a b = false <-> (b <= a)%Q.
Proof.
  intros a b. unfold Qltb. rewrite negb_false_iff. apply Qle_bool_iff.
Qed.

Lemma Qltb_true : forall a b : Q, Qltb a b = true <-> (a < b)%Q.
Proof.
  intros a b. unfold Qltb. rewrite negb_true_iff. split.
  - intros H. apply Qnot_le_lt. intros Hle. apply Qle_bool_iff in Hle. congruence.
  - intros H. destruct (Qle_bool b a) eqn:E; [|reflexivity].
    apply Qle_bool_iff in E. exfalso. now apply (Qlt_not_le a b).
Qed.

Lemma py_max_ge_l : forall a b : Q, (a <= py_max a b)%Q.
Proof.
  intros a b. unfold py_max. destruct (Qltb a b) eqn:E.
  - apply Qltb_true in E. now apply Qlt_le_weak.
  - apply Qle_refl.
Qed.


Lemma deterministic_pass_fields : forall messages tools d,
  deterministic_pass messages tools = Ok d ->
  msgs d = _preprocess messages
  /\ user_query d
     = Str.strip (Str.join " " (map content
         (filter (fun m => String.eqb (role m) "user") (_preprocess messages))))
  /\ (if Str.non_empty (user_query d)
      then _split_actions (user_query d) else Ok []) = Ok (parts d)
  /\ expected_actions d = _estimate_expected_actions (parts d)
  /\ det_calls d = _dedupe_calls (parse_parts (parts d) (map t_name tools) (Ctx None))
  /\ det_valid d = (if nonempty (det_calls d)
                    then is_valid (_validate (det_calls d) tools) else false)
  /\ det_quality d = _deterministic_quality (det_calls d) tools (user_query d).
Proof.
  intros messages tools d. unfold deterministic_pass.
  match goal with |- context [bindE ?m _] => destruct m as [ps|] eqn:Hps end;
    simpl; [|discriminate].
  intros H. inversion H; subst; clear H. simpl. repeat split; try assumption.
  destruct (_dedupe_calls _); reflexivity.
Qed.

Lemma quality_empty : forall tools q, _deterministic_quality [] tools q = 0%Q.
Proof. reflexivity. Qed.

(** C1. Monotonic escalation: when the deterministic set is valid, its
    quality is at least 0.45 and it holds as many calls as actions are
    expected, [generate_hybrid] does not need the local model and never
    calls [generate_cactus]. *)
Theorem no_escalation_when_confident :
  forall (w : world) (messages : list message) (tools : list tool) (d : det_state),
    deterministic_pass messages tools = Ok d ->
    is_valid (_validate (det_calls d) tools) = true ->
    (threshold <= _deterministic_quality (det_calls d) tools (user_query d))%Q ->
    Z.of_nat (List.length (det_calls d)) = _estimate_expected_actions (parts d) ->
    need_local_model d = false
    /\ ~ In CactusInference (fst (generate_hybrid w messages tools)).
Proof.
  intros w messages tools d Hd Hvalid Hq Hcount.
  destruct (deterministic_pass_fields _ _ Hd) as [_ [_ [_ [He [_ [Hv Hdq]]]]]].
  assert (Hne : nonempty (det_calls d) = true).
  { destruct (det_calls d); [|reflexivity].
    rewrite quality_empty in Hq. exfalso. revert Hq. unfold threshold, Qle. simpl. lia. }
  assert (Hneed : need_local_model d = false).
  { unfold need_local_model. rewrite Hne, Hv, Hne, Hvalid, Hdq, He, <- Hcount.
    rewrite Z.ltb_irrefl, andb_false_r. simpl.
    now apply Qltb_false. }
  split; [assumption|].
  unfold generate_hybrid. rewrite Hd, Hneed. simpl.
  intros [H | []]. discriminate.
Qed.

Lemma escalate_branch : forall w messages tools d,
  deterministic_pass messages tools = Ok d ->
  need_local_model d = true ->
  generate_hybrid w messages tools = ([CactusInference], Ok (escalate w tools d)).
Proof.
  intros w messages tools d Hd Hn. unfold generate_hybrid. now rewrite Hd, Hn.
Qed.

Lemma settle_branch : forall w messages tools d,
  deterministic_pass messages tools = Ok d ->
  need_local_model d = false ->
  generate_hybrid w messages tools = ([CactusProbe], settle w d).
Proof.
  intros w messages tools d Hd Hn. unfold generate_hybrid. now rewrite Hd, Hn.
Qed.

(** A request whose deterministic pass succeeds is aborted exactly when
    it takes the probe branch and the probe's model call raises. *)
Lemma generate_hybrid_raises_iff : forall w messages tools d,
  deterministic_pass messages tools = Ok d ->
  (snd (generate_hybrid w messages tools) = Raised
   <-> need_local_model d = false /\ probe_completion w = Raised).
Proof.
  intros w messages tools d Hd. destruct (need_local_model d) eqn:Hn.
  - rewrite (escalate_branch w _ _ Hd Hn). simpl. split; [discriminate|].
    intros [H _]. discriminate.
  - rewrite (settle_branch w _ _ Hd Hn). simpl.
    unfold settle, _ondevice_probe_ms.
    destruct (probe_completion w); simpl; split; try tauto; try discriminate.
    intros [_ H]. discriminate.
Qed.

(** C3 (failing input). With the single turn "set a timer for 5 minutes"
    the deterministic set is trusted, the presence probe is issued, and
    when its model call raises the whole request raises. *)
Theorem probe_failure_aborts_request :
  generate_hybrid (World (fun _ _ => Ok empty_tier) Raised 1)
                  [Msg "user" "set a timer for 5 minutes"] registry
  = ([CactusProbe], Raised).
Proof. vm_compute. reflexivity. Qed.



(** ** Scenarios of the deterministic pipeline *)

Lemma parse_parts_cons : forall p rest available ctx,
  parse_parts (p :: rest) available ctx
  = match _parse_part p available ctx with
    | (Some c, ctx') => c :: parse_parts rest available ctx'
    | (None, ctx') => parse_parts rest available ctx'
    end.
Proof. reflexivity. Qed.

(** Evaluate a closed test or extraction inside the goal. *)
Ltac evaluate t :=
  let v := eval vm_compute in t in
  replace t with v by (vm_compute; reflexivity).

Ltac open_parse_part :=
  unfold _parse_part, parse_search, parse_message, parse_reminder,
         parse_alarm, parse_timer, parse_weather, parse_music.

Ltac close_parse_part :=
  rewrite ?andb_false_r, ?andb_true_r; cbn [first_some keep option_map];
  reflexivity.

Lemma timer_span : forall available ctx,
  has "set_timer" available = true ->
  _parse_part "set a timer for 5 minutes" available ctx
  = (Some (Call "set_timer" [("minutes", VInt 5)]), ctx).
Proof.
  intros available ctx H. open_parse_part.
  set (low := Str.lower "set a timer for 5 minutes").
  evaluate (search_cue low). evaluate (message_cue low).
  evaluate (reminder_cue low). evaluate (alarm_cue low).
  evaluate (timer_cue low).
  evaluate (_parse_minutes "set a timer for 5 minutes").
  rewrite H. close_parse_part.
Qed.

Lemma reminder_span : forall available ctx,
  has "create_reminder" available = true ->
  _parse_part "remind me to call Bob at 3 PM" available ctx
  = (Some (Call "create_reminder"
                [("title", VStr "call Bob"); ("time", VStr "3:00 PM")]), ctx).
Proof.
  intros available ctx H. open_parse_part.
  set (low := Str.lower "remind me to call Bob at 3 PM").
  evaluate (search_cue low). evaluate (message_cue low).
  evaluate (reminder_cue low).
  evaluate (_extract_reminder_title "remind me to call Bob at 3 PM").
  evaluate (_parse_reminder_time "remind me to call Bob at 3 PM").
  rewrite H. close_parse_part.
Qed.

Lemma alarm_span : forall available ctx,
  has "set_alarm" available = true ->
  _parse_part "set an alarm for 6" available ctx
  = (Some (Call "set_alarm" [("hour", VInt 6); ("minute", VInt 0)]), ctx).
Proof.
  intros available ctx H. open_parse_part.
  set (low := Str.lower "set an alarm for 6").
  evaluate (search_cue low). evaluate (message_cue low).
  evaluate (reminder_cue low). evaluate (alarm_cue low).
  evaluate (_parse_alarm_args "set an alarm for 6").
  rewrite H. close_parse_part.
Qed.

(** The deterministic pass on one user turn whose text and spans are
    known. *)
Lemma deterministic_pass_single : forall text query spans tools,
  content (hd (Msg "" "") (_preprocess [Msg "user" text])) = query ->
  Str.strip query = query ->
  Str.non_empty query = true ->
  _split_actions query = Ok spans ->
  exists d, deterministic_pass [Msg "user" text] tools = Ok d
            /\ msgs d = [Msg "user" query]
            /\ parts d = spans
            /\ det_calls d
               = _dedupe_calls (parse_parts spans (map t_name tools) (Ctx None)).
Proof.
  intros text query spans tools Hpre Hstrip Hne Hsplit.
  unfold deterministic_pass.
  assert (Hm : _preprocess [Msg "user" text] = [Msg "user" query]).
  { rewrite <- Hpre. reflexivity. }
  rewrite Hm.
  change (filter (fun m => String.eqb (role m) "user") [Msg "user" query])
    with [Msg "user" query].
  change (Str.join " " (map content [Msg "user" query])) with query.
  rewrite Hstrip, Hne, Hsplit. cbn [bindE].
  eexists. split; [reflexivity|]. repeat split.
Qed.

(** C2. Scenario B: for every registry offering [set_timer] and
    [create_reminder], the utterance is preprocessed unchanged, split in
    two spans, and the deterministic set is the timer call followed by
    the reminder call. *)
Theorem scenario_timer_then_reminder : forall tools : list tool,
  has "set_timer" (map t_name tools) = true ->
  has "create_reminder" (map t_name tools) = true ->
  exists d,
    deterministic_pass
      [Msg "user" "set a timer for 5 minutes and remind me to call Bob at 3 PM"]
      tools = Ok d
    /\ parts d = ["set a timer for 5 minutes"; "remind me to call Bob at 3 PM"]
    /\ det_calls d
       = [ Call "set_timer" [("minutes", VInt 5)];
           Call "create_reminder"
                [("title", VStr "call Bob"); ("time", VStr "3:00 PM")] ].
Proof.
  intros tools Ht Hr.
  assert (H : exists d,
             deterministic_pass
               [Msg "user" "set a timer for 5 minutes and remind me to call Bob at 3 PM"]
               tools = Ok d
             /\ msgs d = [Msg "user" "set a timer for 5 minutes and remind me to call Bob at 3 PM"]
             /\ parts d = ["set a timer for 5 minutes"; "remind me to call Bob at 3 PM"]
             /\ det_calls d
                = _dedupe_calls
                    (parse_parts ["set a timer for 5 minutes"; "remind me to call Bob at 3 PM"]
                                 (map t_name tools) (Ctx None))).
  { apply deterministic_pass_single; vm_compute; reflexivity. }
  destruct H as [d [Hd [_ [Hp Hc]]]].
  exists d. split; [assumption|]. split; [assumption|].
  rewrite Hc, parse_parts_cons, (timer_span _ _ Ht). cbv beta iota.
  rewrite parse_parts_cons, (reminder_span _ _ Hr).
  vm_compute. reflexivity.
Qed.

(** C9. Scenario C: the single user turn "wake me up at 6" is rewritten
    to "set an alarm for 6", and for every registry offering [set_alarm]
    the deterministic set is exactly the alarm at 6:00. *)
Theorem scenario_wake_me_up : forall tools : list tool,
  has "set_alarm" (map t_name tools) = true ->
  _preprocess [Msg "user" "wake me up at 6"] = [Msg "user" "set an alarm for 6"]
  /\ exists d,
       deterministic_pass [Msg "user" "wake me up at 6"] tools = Ok d
       /\ msgs d = [Msg "user" "set an alarm for 6"]
       /\ det_calls d = [Call "set_alarm" [("hour", VInt 6); ("minute", VInt 0)]].
Proof.
  intros tools Ha. split; [vm_compute; reflexivity|].
  assert (H : exists d,
             deterministic_pass [Msg "user" "wake me up at 6"] tools = Ok d
             /\ msgs d = [Msg "user" "set an alarm for 6"]
             /\ parts d = ["set an alarm for 6"]
             /\ det_calls d
                = _dedupe_calls
                    (parse_parts ["set an alarm for 6"] (map t_name tools) (Ctx None))).
  { apply deterministic_pass_single; vm_compute; reflexivity. }
  destruct H as [d [Hd [Hm [_ Hc]]]].
  exists d. split; [assumption|]. split; [assumption|].
  rewrite Hc, parse_parts_cons, (alarm_span _ _ Ha).
  vm_compute. reflexivity.
Qed.

(** ** Selection among candidates *)

Lemma select_bounds : forall tools q e pool best bn bc sc,
  select tools q e pool best = (bn, bc, sc) ->
  (snd best <= sc)%Z
  /\ (forall cand, In cand pool -> (adjusted_score tools q e cand <= sc)%Z)
  /\ (best = (bn, bc, sc)
      \/ exists o, bn = Some o /\ In (o, bc) pool
                   /\ sc = adjusted_score tools q e (o, bc)).
Proof.
  induction pool as [|cand rest IH]; intros best bn bc sc; simpl.
  - intros ->. simpl. split; [lia|]. split; [intros ? []|now left].
  - destruct (snd best <? adjusted_score tools q e cand)%Z eqn:E; intros H;
      apply IH in H; destruct H as [H1 [H2 H3]]; simpl in H1.
    + apply Z.ltb_lt in E. split; [lia|]. split.
      * intros c [<- | Hin]; [assumption | now apply H2].
      * right. destruct H3 as [H3 | [o [Ho [Hin Hs]]]].
        -- inversion H3; subst. exists (fst cand). destruct cand; simpl.
           repeat split. now left.
        -- exists o. repeat split; try assumption. now right.
    + apply Z.ltb_ge in E. split; [assumption|]. split.
      * intros c [<- | Hin]; [lia | now apply H2].
      * destruct H3 as [H3 | [o [Ho [Hin Hs]]]]; [now left|].
        right. exists o. repeat split; try assumption. now right.
Qed.

Lemma arg_score_bounds : forall q v, (0 <= arg_score q v <= 3)%Z.
Proof.
  intros q v. unfold arg_score.
  destruct (as_int v); [destruct (number_in _ _); lia|].
  destruct v; try lia.
  repeat match goal with |- context [if ?b then _ else _] => destruct b end; lia.
Qed.

Lemma args_score_nonneg : forall q (a : args),
  (0 <= sumZ (map (fun kv => arg_score q (snd kv)) a))%Z.
Proof.
  induction a as [|kv a IH]; simpl; [lia|].
  pose proof (arg_score_bounds q (snd kv)). lia.
Qed.

Lemma message_penalty_nonneg : forall q a, (0 <= message_penalty q a)%Z.
Proof.
  intros q a. unfold message_penalty.
  repeat match goal with |- context [if ?b then _ else _] => destruct b end; lia.
Qed.







(** ** The theorems at sample requests *)

(** The timer request: valid set, quality 1, one call for one expected
    action; no escalation even with a broken engine. *)
Lemma no_escalation_when_confident_witness :
  need_local_model timer_state = false
  /\ ~ In CactusInference (fst (generate_hybrid broken_world timer_request registry)).
Proof.
  apply (@no_escalation_when_confident broken_world timer_request registry timer_state).
  - vm_compute. reflexivity.
  - vm_compute. reflexivity.
  - vm_compute. intros H. discriminate H.
  - vm_compute. reflexivity.
Defined.

(** Scenario B on the seven-tool registry. *)
Lemma scenario_timer_then_reminder_witness :
  exists d,
    deterministic_pass
      [Msg "user" "set a timer for 5 minutes and remind me to call Bob at 3 PM"]
      registry = Ok d
    /\ parts d = ["set a timer for 5 minutes"; "remind me to call Bob at 3 PM"]
    /\ det_calls d
       = [ Call "set_timer" [("minutes", VInt 5)];
           Call "create_reminder"
                [("title", VStr "call Bob"); ("time", VStr "3:00 PM")] ].
Proof.
  apply (scenario_timer_then_reminder registry); vm_compute; reflexivity.
Defined.

(** Scenario C on the seven-tool registry. *)
Lemma scenario_wake_me_up_witness :
  _preprocess [Msg "user" "wake me up at 6"] = [Msg "user" "set an alarm for 6"]
  /\ exists d,
       deterministic_pass [Msg "user" "wake me up at 6"] registry = Ok d
       /\ msgs d = [Msg "user" "set an alarm for 6"]
       /\ det_calls d = [Call "set_alarm" [("hour", VInt 6); ("minute", VInt 0)]].
Proof.
  apply (scenario_wake_me_up registry). vm_compute. reflexivity.
Defined.




(** ** Soundness of the matcher *)

Module SemFacts.
Import Str Re Sem.

Lemma after_nil : forall cu, after cu [] (c_rest cu) = cu.
Proof.
  intros [p n r]. unfold after. simpl. now rewrite Nat.add_0_r.
Qed.

Lemma last_opt_app : forall (w1 w2 : chars) p,
  last_opt p (w1 ++ w2)%list = last_opt (last_opt p w1) w2.
Proof.
  induction w1 as [|c w1 IH]; intros w2 p; simpl; [reflexivity | apply IH].
Qed.

(** A successful path consumes a prefix of the text ahead. *)
Lemma Steps_moved : forall r cu cs w cu' cs',
  Steps r cu cs w cu' cs' ->
  c_rest cu = (w ++ c_rest cu')%list /\ cu' = after cu w (c_rest cu').
Proof.
  induction 1; simpl;
    try (split; [reflexivity | now rewrite after_nil]);
    try assumption.
  - split; [assumption | reflexivity].
  - destruct IHSteps1 as [R1 A1]. destruct IHSteps2 as [R2 A2]. split.
    + rewrite R1, R2. now rewrite app_assoc.
    + rewrite A2 at 1. rewrite A1. unfold after. simpl.
      now rewrite last_opt_app, length_app, Nat.add_assoc.
  - split; [assumption | reflexivity].
Qed.

Lemma slice_after : forall cu w rest',
  c_rest cu = (w ++ rest')%list -> slice cu (after cu w rest') = w.
Proof.
  intros cu w rest' H. unfold slice, after. simpl. rewrite H.
  replace (c_pos cu + List.length w - c_pos cu) with (List.length w + 0) by lia.
  rewrite firstn_app_2. simpl. now rewrite app_nil_r.
Qed.

Section RepeatSound.
Variables (A : Type) (k : cls) (cont : cursor -> option A).

Lemma rep_greedy_sound : forall rest lo hi prev pos x,
  rep_greedy k cont lo hi prev pos rest = Some x ->
  exists w rest', rest = (w ++ rest')%list
    /\ forallb (cls_match k) w = true
    /\ lo <= List.length w /\ within hi (List.length w)
    /\ cont (Cur (last_opt prev w) (pos + List.length w) rest') = Some x.
Proof.
  assert (Hstop : forall rest lo hi prev pos x,
             (if (lo =? 0)%nat then cont (Cur prev pos rest) else None) = Some x ->
             exists w rest', rest = (w ++ rest')%list
               /\ forallb (cls_match k) w = true
               /\ lo <= List.length w /\ within hi (List.length w)
               /\ cont (Cur (last_opt prev w) (pos + List.length w) rest') = Some x).
  { intros rest lo hi prev pos x H. destruct (Nat.eqb_spec lo 0); [|discriminate].
    exists [], rest. simpl. rewrite Nat.add_0_r. repeat split; try assumption; try lia.
    destruct hi; simpl; lia. }
  induction rest as [|c rest IH]; intros lo hi prev pos x; simpl.
  - apply Hstop.
  - destruct (cls_match k c && hi_allows hi) eqn:E; [|apply Hstop].
    destruct (rep_greedy k cont (pred lo) (hi_pred hi) (Some c) (S pos) rest) eqn:R;
      [|apply Hstop].
    intros H. inversion H; subst a. apply IH in R.
    destruct R as [w [rest' [Hr [Hall [Hlo [Hhi Hc]]]]]].
    apply andb_true_iff in E. destruct E as [Ek Eh].
    exists (c :: w), rest'. simpl. rewrite Ek, Hall. subst rest.
    repeat split; try lia.
    + destruct hi as [[|h]|]; simpl in *; try discriminate; lia.
    + now rewrite <- Nat.add_succ_comm.
Qed.

Lemma rep_lazy_sound : forall rest lo hi prev pos x,
  rep_lazy k cont lo hi prev pos rest = Some x ->
  exists w rest', rest = (w ++ rest')%list
    /\ forallb (cls_match k) w = true
    /\ lo <= List.length w /\ within hi (List.length w)
    /\ cont (Cur (last_opt prev w) (pos + List.length w) rest') = Some x.
Proof.
  induction rest as [|c rest IH]; intros lo hi prev pos x; simpl.
  - destruct (Nat.eqb_spec lo 0); [|discriminate].
    destruct (cont (Cur prev pos [])) eqn:C; [|discriminate].
    intros H. inversion H; subst a. exists [], []. simpl. rewrite Nat.add_0_r.
    repeat split; try assumption; try lia. destruct hi; simpl; lia.
  - assert (Hmore :
      (if cls_match k c && hi_allows hi
       then rep_lazy k cont (pred lo) (hi_pred hi) (Some c) (S pos) rest
       else None) = Some x ->
      exists w rest', c :: rest = (w ++ rest')%list
        /\ forallb (cls_match k) w = true
        /\ lo <= List.length w /\ within hi (List.length w)
        /\ cont (Cur (last_opt prev w) (pos + List.length w) rest') = Some x).
    { destruct (cls_match k c && hi_allows hi) eqn:E; [|discriminate].
      intros R. apply IH in R.
      destruct R as [w [rest' [Hr [Hall [Hlo [Hhi Hc]]]]]].
      apply andb_true_iff in E. destruct E as [Ek Eh].
      exists (c :: w), rest'. simpl. rewrite Ek, Hall. subst rest.
      repeat split; try lia.
      + destruct hi as [[|h]|]; simpl in *; try discriminate; lia.
      + now rewrite <- Nat.add_succ_comm. }
    destruct (Nat.eqb_spec lo 0); [|exact Hmore].
    destruct (cont (Cur prev pos (c :: rest))) eqn:C; [|exact Hmore].
    intros H. inversion H; subst a. exists [], (c :: rest). simpl.
    rewrite Nat.add_0_r. repeat split; try assumption; try lia.
    destruct hi; simpl; lia.
Qed.
End RepeatSound.

(** Every answer of the matcher comes from a path of [Steps]. *)
Lemma rmatch_sound : forall r (A : Type) cu cs (cont : cursor -> caps -> option A) x,
  rmatch r cu cs cont = Some x ->
  exists w cu' cs', Steps r cu cs w cu' cs' /\ cont cu' cs' = Some x.
Proof.
  induction r as [|k|r1 IH1 r2 IH2|r1 IH1 r2 IH2|g lo hi k|r1 IH1|n r1 IH1|r1 IH1| | | |];
    intros A cu cs cont x; simpl.
  - intros H. exists [], cu, cs. split; [constructor | assumption].
  - destruct (c_rest cu) as [|c rest'] eqn:R; [discriminate|].
    destruct (cls_match k c) eqn:E; [|discriminate].
    intros H. exists [c], (after cu [c] rest'), cs. split.
    + now constructor.
    + unfold after. simpl. unfold advance in H.
      now replace (c_pos cu + 1) with (S (c_pos cu)) by lia.
  - intros H. apply IH1 in H. destruct H as [w1 [cu1 [cs1 [S1 H]]]].
    apply IH2 in H. destruct H as [w2 [cu2 [cs2 [S2 H]]]].
    exists (w1 ++ w2)%list, cu2, cs2. split; [econstructor; eassumption | assumption].
  - destruct (rmatch r1 cu cs cont) eqn:E.
    + intros H. inversion H; subst a. apply IH1 in E.
      destruct E as [w [cu' [cs' [S1 H1]]]].
      exists w, cu', cs'. split; [now apply St_alt_l | assumption].
    + intros H. apply IH2 in H. destruct H as [w [cu' [cs' [S1 H1]]]].
      exists w, cu', cs'. split; [now apply St_alt_r | assumption].
  - intros H.
    assert (Hs : exists w rest', c_rest cu = (w ++ rest')%list
               /\ forallb (cls_match k) w = true
               /\ lo <= List.length w /\ within hi (List.length w)
               /\ cont (Cur (last_opt (c_prev cu) w) (c_pos cu + List.length w) rest') cs
                  = Some x).
    { destruct g; [apply rep_greedy_sound in H | apply rep_lazy_sound in H]; exact H. }
    destruct Hs as [w [rest' [Hr [Hall [Hlo [Hhi Hc]]]]]].
    exists w, (after cu w rest'), cs. split; [now constructor | exact Hc].
  - destruct (rmatch r1 cu cs cont) eqn:E.
    + intros H. inversion H; subst a. apply IH1 in E.
      destruct E as [w [cu' [cs' [S1 H1]]]].
      exists w, cu', cs'. split; [now apply St_opt_some | assumption].
    + intros H. exists [], cu, cs. split; [apply St_opt_none | assumption].
  - intros H. apply IH1 in H. destruct H as [w [cu' [cs' [S1 H1]]]].
    exists w, cu', ((n, w) :: cs'). split; [now constructor|].
    destruct (Steps_moved S1) as [Hr Ha].
    rewrite Ha in H1 at 2. rewrite (@slice_after _ _ _ Hr) in H1. exact H1.
  - destruct (rmatch r1 cu cs (fun _ cs' => Some cs')) as [cs1|] eqn:E; [|discriminate].
    intros H. apply IH1 in E. destruct E as [w [cu' [cs' [S1 H1]]]].
    inversion H1; subst cs'.
    exists [], cu, cs1. split; [econstructor; eassumption | assumption].
  - destruct (Nat.eqb_spec (c_pos cu) 0); [|discriminate].
    intros H. exists [], cu, cs. split; [now constructor | assumption].
  - destruct (at_eol cu) eqn:E; [|discriminate].
    intros H. exists [], cu, cs. split; [now constructor | assumption].
  - destruct (at_boundary cu) eqn:E; [|discriminate].
    intros H. exists [], cu, cs. split; [now constructor | assumption].
  - discriminate.
Qed.

Lemma match_at_sound : forall r cu m,
  match_at r cu = Some m ->
  m_start m = cu /\ exists w, Steps r cu [] w (m_end m) (m_caps m).
Proof.
  intros r cu m H. unfold match_at in H. apply rmatch_sound in H.
  destruct H as [w [cu' [cs' [S1 H]]]]. inversion H; subst m. simpl.
  split; [reflexivity | now exists w].
Qed.

Lemma search_from_sound : forall r rest prev pos m,
  search_from r prev pos rest = Some m ->
  exists w, Steps r (m_start m) [] w (m_end m) (m_caps m).
Proof.
  induction rest as [|c rest IH]; intros prev pos m; simpl.
  - destruct (match_at r (Cur prev pos [])) eqn:E; [|discriminate].
    intros H. inversion H; subst m0. apply match_at_sound in E.
    destruct E as [-> E]. exact E.
  - destruct (match_at r (Cur prev pos (c :: rest))) eqn:E.
    + intros H. inversion H; subst m0. apply match_at_sound in E.
      destruct E as [Hs E]. rewrite Hs. exact E.
    + apply IH.
Qed.

Lemma search_sound : forall r s m,
  search r s = Some m ->
  exists w, Steps r (m_start m) [] w (m_end m) (m_caps m).
Proof. intros r s m. apply search_from_sound. Qed.

(** Checking a property of characters on all 256 of them. *)
Lemma all_ascii_complete : forall c, In c all_ascii.
Proof.
  intros c. unfold all_ascii. rewrite <- (ascii_nat_embedding c).
  apply in_map, in_seq. pose proof (nat_ascii_bounded c). lia.
Qed.

Lemma by_cases_on_ascii : forall p : ascii -> bool,
  forallb p all_ascii = true -> forall c, p c = true.
Proof.
  intros p H c. rewrite forallb_forall in H. apply H, all_ascii_complete.
Qed.

End SemFacts.

(** ** The alarm time parser *)

Module AlarmFacts.
Import Str Re Sem SemFacts.

Lemma of_to_string : forall l : chars, of_string (to_string l) = l.
Proof. exact list_ascii_of_string_of_list_ascii. Qed.

Lemma digits_fold_nonneg : forall (l : chars) (acc : Z),
  (0 <= acc)%Z ->
  (0 <= fold_left (fun a c => 10 * a + digit_val c)%Z l acc)%Z.
Proof.
  induction l as [|c l IH]; intros acc Hacc; cbn [fold_left]; [assumption|].
  apply IH. unfold digit_val. lia.
Qed.

Lemma int_of_digits_nonneg : forall s, (0 <= int_of_digits s)%Z.
Proof. intros s. apply digits_fold_nonneg. lia. Qed.

Lemma int_or0_nonneg : forall o, (0 <= int_or0 o)%Z.
Proof.
  intros [s|]; simpl; [|lia].
  destruct (non_empty s); [apply int_of_digits_nonneg | lia].
Qed.

Lemma word_to_num_range : forall w, (0 <= word_to_num w <= 60)%Z.
Proof.
  intros w. unfold word_to_num.
  destruct (find _ _WORD_TO_NUM) as [kv|] eqn:F; [|lia].
  apply find_some in F. destruct F as [Hin _].
  assert (Hall : Forall (fun kv : string * Z => (0 <= snd kv <= 60)%Z) _WORD_TO_NUM).
  { unfold _WORD_TO_NUM. repeat constructor; simpl; lia. }
  rewrite Forall_forall in Hall. now apply Hall.
Qed.


Lemma letter_class_spec : forall x c,
  letter_class_ok x = true ->
  cls_match (Cls false true [IChr x]) c = true -> lower_c c = x.
Proof.
  intros x c H Hc.
  pose proof (by_cases_on_ascii _ H c) as Hp. simpl in Hp.
  rewrite Hc in Hp. simpl in Hp. now apply Ascii.eqb_eq.
Qed.

(** Take a path through a known pattern apart. *)
Ltac invert_steps :=
  repeat match goal with
  | H : Steps REps _ _ _ _ _ |- _ => inversion H; subst; clear H
  | H : Steps (RCls _) _ _ _ _ _ |- _ => inversion H; subst; clear H
  | H : Steps (RCat _ _) _ _ _ _ _ |- _ => inversion H; subst; clear H
  | H : Steps (RAlt _ _) _ _ _ _ _ |- _ => inversion H; subst; clear H
  | H : Steps (RMany _ _ _ _) _ _ _ _ _ |- _ => inversion H; subst; clear H
  | H : Steps (ROpt _) _ _ _ _ _ |- _ => inversion H; subst; clear H
  | H : Steps (RGrp _ _) _ _ _ _ _ |- _ => inversion H; subst; clear H
  | H : Steps (RLook _) _ _ _ _ _ |- _ => inversion H; subst; clear H
  | H : Steps RBol _ _ _ _ _ |- _ => inversion H; subst; clear H
  | H : Steps REol _ _ _ _ _ |- _ => inversion H; subst; clear H
  | H : Steps RWordB _ _ _ _ _ |- _ => inversion H; subst; clear H
  | H : Steps RFail _ _ _ _ _ |- _ => inversion H
  end.

(** The groups of a match of a known pattern. *)
Ltac open_search H m r :=
  let w := fresh "w" in
  apply search_sound in H; destruct H as [w H];
  unfold grp, group; destruct m; cbn [m_start m_end m_caps] in *;
  let v := eval vm_compute in r in change r with v in H.






Ltac letter_facts :=
  repeat match goal with
  | H : cls_match (Cls false true [IChr ?x]) ?c = true |- _ =>
      apply (@letter_class_spec x c) in H; [|vm_compute; reflexivity]
  end.




End AlarmFacts.




(** ** White-space normal form of the extracted text *)

Module NormFacts.
Import Str Re Sem SemFacts Norm AlarmFacts.
Local Open Scope list_scope.

Lemma ws_match : forall c, cls_match ws c = is_space c.
Proof. intros c. unfold cls_match, ws. simpl. now rewrite orb_false_r. Qed.

Lemma rx_ws : rx "\s+" = RMany true 1 None ws.
Proof. vm_compute. reflexivity. Qed.

Lemma run_end_pos : forall k l prev pos,
  c_pos (run_end k prev pos l) = pos + span k l.
Proof.
  induction l as [|c l IH]; intros prev pos; simpl; [lia|].
  destruct (cls_match k c); simpl; [rewrite IH|]; lia.
Qed.

(** With a continuation that always accepts, greedy repetition takes
    the whole run. *)
Lemma rep_greedy_total : forall (A : Type) k (f : cursor -> A) l lo prev pos,
  rep_greedy k (fun cu => Some (f cu)) lo None prev pos l
  = if (lo <=? span k l)%nat then Some (f (run_end k prev pos l)) else None.
Proof.
  induction l as [|c l IH]; intros lo prev pos; simpl.
  - destruct lo; reflexivity.
  - destruct (cls_match k c); simpl.
    + rewrite IH. destruct lo as [|lo]; simpl; [reflexivity|].
      destruct (lo <=? span k l)%nat; reflexivity.
    + destruct lo; reflexivity.
Qed.

Lemma match_at_ws : forall prev pos l,
  match_at (RMany true 1 None ws) (Cur prev pos l)
  = if (1 <=? span ws l)%nat
    then Some (Mtch (Cur prev pos l) (run_end ws prev pos l) [])
    else None.
Proof.
  intros prev pos l. unfold match_at. simpl.
  apply (rep_greedy_total ws (fun cu' => Mtch (Cur prev pos l) cu' [])).
Qed.

Lemma sub_ws_collapse_go : forall l prev pos,
  sub_go (RMany true 1 None ws) [" "%char] prev pos l 0 = collapse false l
  /\ sub_go (RMany true 1 None ws) [" "%char] prev pos l (span ws l) = collapse true l.
Proof.
  induction l as [|c l IH]; intros prev pos.
  - simpl. split; reflexivity.
  - assert (H0 : sub_go (RMany true 1 None ws) [" "%char] prev pos (c :: l) 0
                 = collapse false (c :: l)).
    { cbn [sub_go]. rewrite match_at_ws. cbn [span collapse].
      rewrite ws_match. destruct (is_space c) eqn:E.
      - cbn [Nat.leb]. unfold m_len. cbn [m_end m_start c_pos].
        rewrite run_end_pos. cbn [span]. rewrite ws_match, E.
        replace (pos + S (span ws l) - pos) with (S (span ws l)) by lia.
        cbn [app]. f_equal. apply IH.
      - cbn [Nat.leb]. f_equal. apply IH. }
    split; [exact H0|].
    cbn [span]. rewrite ws_match. destruct (is_space c) eqn:E.
    + cbn [sub_go collapse]. rewrite E. apply IH.
    + rewrite H0. cbn [collapse]. now rewrite E.
Qed.

(** [re.sub(r"\s+", " ", s)] is [collapse]. *)
Lemma sub_ws_collapse : forall s,
  Re.sub (rx "\s+") " " s = to_string (collapse false (of_string s)).
Proof.
  intros s. unfold Re.sub. rewrite rx_ws. f_equal.
  apply (sub_ws_collapse_go (of_string s) None 0).
Qed.

Lemma collapse_spaced : forall l b,
  spaced (collapse b l) = true
  /\ (b = true -> head_space (collapse b l) = false).
Proof.
  induction l as [|c l IH]; intros b; simpl; [now split|].
  destruct (is_space c) eqn:E.
  - destruct b.
    + apply IH.
    + split; [|discriminate]. simpl.
      destruct (IH true) as [Hs Hh]. now rewrite Hs, Hh.
  - simpl. rewrite E. split; [apply IH | reflexivity].
Qed.

Lemma spaced_tail : forall c l, spaced (c :: l) = true -> spaced l = true.
Proof. intros c l H. simpl in H. now apply andb_true_iff in H. Qed.

Lemma spaced_suffix : forall a b, spaced (a ++ b) = true -> spaced b = true.
Proof.
  induction a as [|c a IH]; intros b H; [assumption|].
  apply IH. now apply spaced_tail in H.
Qed.


Lemma spaced_prefix : forall a b, spaced (a ++ b) = true -> spaced a = true.
Proof.
  induction a as [|c a IH]; intros b H; [reflexivity|].
  simpl in *. apply andb_true_iff in H. destruct H as [Hc Hs].
  rewrite (IH _ Hs), andb_true_r.
  destruct (is_space c); [|reflexivity].
  apply andb_true_iff in Hc. destruct Hc as [Hb Hn]. rewrite Hb. simpl.
  destruct a as [|d a]; [reflexivity | exact Hn].
Qed.

(** In a spaced text, white space is a blank and what follows it is not
    white space. *)
Lemma spaced_at : forall a c b,
  spaced (a ++ c :: b) = true -> is_space c = true ->
  c = " "%char /\ head_space b = false.
Proof.
  intros a c b H Hc. apply spaced_suffix in H. simpl in H. rewrite Hc in H.
  apply andb_true_iff in H. destruct H as [H _].
  apply andb_true_iff in H. destruct H as [Hb Hn].
  apply Ascii.eqb_eq in Hb. apply negb_true_iff in Hn. now split.
Qed.

(** [drop_while] leaves a suffix whose head fails the test. *)
Lemma drop_while_suffix : forall p l, exists a, l = (a ++ drop_while p l)%list.
Proof.
  induction l as [|c l [a IH]]; simpl.
  - now exists [].
  - destruct (p c).
    + exists (c :: a). simpl. now f_equal.
    + now exists [].
Qed.

Lemma drop_while_head : forall p l c l',
  drop_while p l = c :: l' -> p c = false.
Proof.
  induction l as [|d l IH]; intros c l'; simpl; [discriminate|].
  destruct (p d) eqn:E; [apply IH|]. intros H. now inversion H; subst.
Qed.

Lemma rstrip_prefix : forall p l, exists b, l = (rstrip_by p l ++ b)%list.
Proof.
  intros p l. unfold rstrip_by.
  destruct (drop_while_suffix p (rev l)) as [a H].
  exists (rev a). rewrite <- rev_app_distr, <- H. now rewrite rev_involutive.
Qed.

Lemma rstrip_last : forall p l c l',
  rev (rstrip_by p l) = c :: l' -> p c = false.
Proof.
  intros p l c l'. unfold rstrip_by. rewrite rev_involutive.
  apply drop_while_head.
Qed.

(** The two ends of a stripped text fail the test. *)
Lemma strip_by_ends : forall p l,
  (forall c l', strip_by p l = c :: l' -> p c = false)
  /\ (forall c l', rev (strip_by p l) = c :: l' -> p c = false).
Proof.
  intros p l. unfold strip_by, lstrip_by. split.
  - intros c l' H.
    destruct (rstrip_prefix p (drop_while p l)) as [b Hb].
    rewrite H in Hb. simpl in Hb. now apply (drop_while_head p l Hb).
  - apply rstrip_last.
Qed.

Lemma strip_by_spaced : forall p l, spaced l = true -> spaced (strip_by p l) = true.
Proof.
  intros p l H. unfold strip_by, lstrip_by.
  destruct (rstrip_prefix p (drop_while p l)) as [b Hb].
  destruct (drop_while_suffix p l) as [a Ha].
  rewrite Ha in H. apply spaced_suffix in H. rewrite Hb in H.
  now apply spaced_prefix in H.
Qed.

Lemma spaced_head : forall c l,
  spaced (c :: l) = true -> is_space c = true -> c = " "%char.
Proof. intros c l H Hc. now apply (spaced_at [] c l). Qed.

Lemma spaced_last : forall l c l',
  spaced l = true -> rev l = c :: l' -> is_space c = true -> c = " "%char.
Proof.
  intros l c l' H Hr Hc.
  assert (Hl : l = (rev l' ++ [c])%list).
  { rewrite <- (rev_involutive l), Hr. reflexivity. }
  rewrite Hl in H. now apply (spaced_at (rev l') c []).
Qed.

(** Stripping a spaced text of a set that holds the blank normalizes it. *)
Lemma strip_by_normal : forall p l,
  p " "%char = true -> spaced l = true -> normal (strip_by p l) = true.
Proof.
  intros p l Hp Hs. unfold normal.
  pose proof (strip_by_spaced p l Hs) as Hs'.
  destruct (strip_by_ends p l) as [Hh Hl].
  rewrite Hs'. simpl. apply andb_true_iff. split; apply negb_true_iff.
  - destruct (strip_by p l) as [|c l'] eqn:E; [reflexivity|]. simpl.
    destruct (is_space c) eqn:Ec; [|reflexivity].
    apply (spaced_head _ _ Hs') in Ec. subst c.
    specialize (Hh _ _ eq_refl). congruence.
  - destruct (rev (strip_by p l)) as [|c l'] eqn:E; [reflexivity|]. simpl.
    destruct (is_space c) eqn:Ec; [|reflexivity].
    apply (spaced_last _ Hs' E) in Ec. subst c.
    specialize (Hl _ _ eq_refl). congruence.
Qed.

Lemma to_of_string : forall s : string, to_string (of_string s) = s.
Proof. exact string_of_list_ascii_of_string. Qed.

(** Whatever its input, [_clean_span] answers a normalized text. *)
Lemma clean_span_normalized : forall text, normalized (_clean_span text) = true.
Proof.
  intros text. unfold normalized, _clean_span, strip_chars, strip.
  rewrite sub_ws_collapse, !of_to_string.
  apply strip_by_normal; [vm_compute; reflexivity|].
  apply strip_by_spaced. apply (collapse_spaced (of_string text) false).
Qed.




(** *** The canonical time text *)

Lemma of_string_app : forall a b : string,
  of_string (a ++ b)%string = of_string a ++ of_string b.
Proof.
  induction a as [|c a IH]; intros b; simpl; [reflexivity|].
  unfold of_string in *. simpl. now rewrite IH.
Qed.











End NormFacts.

(** ** Cutting a prefix or a suffix off a normalized text *)

Module CutFacts.
Import Str Re Sem SemFacts Norm NormFacts AlarmFacts.
Local Open Scope list_scope.



(** *** Patterns anchored at the start *)










(** *** Patterns that start on white space and end the text *)









End CutFacts.

(** ** What the extractors emit *)

Module ExtractFacts.
Import Str Re Norm NormFacts CutFacts AlarmFacts.

















End ExtractFacts.

(** ** The deterministic set is well formed *)

Module WellFormed.
Import Str Norm NormFacts ExtractFacts AlarmFacts.




















Lemma good_text_not_blank : forall s, good_text s = true -> blank s = false.
Proof.
  intros s H. unfold good_text in H. apply andb_true_iff in H.
  destruct H as [H _]. apply andb_true_iff in H. destruct H as [_ H].
  now apply negb_true_iff.
Qed.

End WellFormed.


(** ** The number-word table is only read at its keys *)

Module WordFacts.
Import Str Re Sem SemFacts AlarmFacts.

Ltac read_known :=
  unfold known_word;
  cbn [assoc_caps option_map Nat.eqb]; unfold lower, lower_l;
  rewrite ?of_to_string; cbn [map app];
  repeat match goal with
  | H : lower_c ?c = _ |- context [lower_c ?c] => rewrite H
  end;
  match goal with
  | |- mem_s ?s ?l = true => evaluate (mem_s s l)
  end;
  reflexivity.

(** The word-hour form of [_parse_ampm_time]. *)
Lemma ampm_word_known : forall text m,
  search (rxi ("\b(" ++ words_upto 12 ++ ")\s*([AaPp])\.?\s*[Mm]\.?\b")) text = Some m ->
  known_word (lower (grp m 1)) = true.
Proof.
  intros text m H.
  open_search H m (rxi ("\b(" ++ words_upto 12 ++ ")\s*([AaPp])\.?\s*[Mm]\.?\b")).
  invert_steps; letter_facts; read_known.
Qed.

(** The bare word-hour form of [_parse_alarm_args]. *)
Lemma bare_word_known : forall text m,
  search _BARE_HOUR_WORD_RE text = Some m ->
  known_word (lower (grp m 1)) = true.
Proof.
  intros text m H. open_search H m _BARE_HOUR_WORD_RE.
  invert_steps; letter_facts; read_known.
Qed.

(** The spelled-out form of [_parse_minutes]. *)
Lemma minutes_word_known : forall text m,
  search (rxi ("\b(" ++ Str.join "|" (map fst _WORD_TO_NUM)
                     ++ ")\s+(?:minutes?|mins?)\b")) text = Some m ->
  known_word (lower (grp m 1)) = true.
Proof.
  intros text m H.
  open_search H m (rxi ("\b(" ++ Str.join "|" (map fst _WORD_TO_NUM)
                             ++ ")\s+(?:minutes?|mins?)\b")).
  invert_steps; letter_facts; read_known.
Qed.

End WordFacts.



(** ** Further facts about the request pipeline *)

(** A comma chunk that holds nothing but a conjunction leaves the
    splitter without a first segment: [_split_actions] raises, and so
    does the request, before any tier is called. *)
Lemma conjunction_only_chunk_raises :
  _split_actions "and" = Raised
  /\ generate_hybrid broken_world [Msg "user" "find Bob, and"] registry
     = ([], Raised).
Proof. split; vm_compute; reflexivity. Qed.

(** The selection loop settles on a candidate as soon as one of them
    scores above the initial [-1e18]. *)
Lemma select_some : forall tools q e pool cand,
  In cand pool ->
  (- 10 ^ 18 < adjusted_score tools q e cand)%Z ->
  exists o calls sc,
    select tools q e pool initial_best = (Some o, calls, sc) /\ In (o, calls) pool.
Proof.
  intros tools q e pool cand Hin Hsc.
  destruct (select tools q e pool initial_best) as [[bn bc] sc] eqn:E.
  destruct (select_bounds _ _ _ _ _ E) as [_ [Hmax Hwho]].
  specialize (Hmax _ Hin).
  destruct Hwho as [Hinit | [o [Ho [Ho_in _]]]].
  - unfold initial_best in Hinit. inversion Hinit; subst. lia.
  - subst bn. now exists o, bc, sc.
Qed.

(** Scenario A and scenario D of the deterministic pass. *)
Example scenario_weather :
  option_map det_calls
    (match deterministic_pass [Msg "user" "What is the weather in San Francisco?"]
                              [Tool "get_weather" ["location"]] with
     | Ok d => Some d
     | Raised => None
     end)
  = Some [Call "get_weather" [("location", VStr "San Francisco")]].
Proof. vm_compute. reflexivity. Qed.

Example scenario_find_contact :
  option_map det_calls
    (match deterministic_pass [Msg "user" "find Bob"] registry with
     | Ok d => Some d
     | Raised => None
     end)
  = Some [Call "search_contacts" [("query", VStr "Bob")]].
Proof. vm_compute. reflexivity. Qed.

(* ================================================================== *)
(** * Further properties of the code *)
(* ================================================================== *)

(** ** Validation composes *)

(** X1. Validating a concatenation reports the first violation: the
    verdict of [a ++ b] is that of [a] unless [a] is valid, and then it
    is that of [b]. *)
Theorem validate_app_first_violation : forall (a b : list call) (tools : list tool),
  _validate (a ++ b)%list tools
  = match _validate a tools with
    | Valid => _validate b tools
    | bad => bad
    end.
Proof.
  induction a as [|c a IH]; intros b tools; simpl; [reflexivity|].
  destruct (validate_call tools c); [apply IH | reflexivity | reflexivity].
Qed.

Lemma tool_map_get_last : forall tools t,
  tool_map_get (tools ++ [t])%list (t_name t) = Some t.
Proof.
  intros tools t. unfold tool_map_get. rewrite rev_app_distr. simpl.
  now rewrite String.eqb_refl.
Qed.

(** X2. A descriptor registered later overrides every earlier one of the
    same name: the call is judged against the last descriptor alone. *)
Theorem validate_last_descriptor_wins : forall (tools : list tool) (t : tool) (c : call),
  name c = t_name t ->
  validate_call (tools ++ [t])%list c = validate_call [t] c.
Proof.
  intros tools t c Hn. unfold validate_call. rewrite Hn.
  rewrite tool_map_get_last.
  change [t] with ([] ++ [t])%list. now rewrite tool_map_get_last.
Qed.

Lemma validate_last_descriptor_wins_witness :
  validate_call ([Tool "play_music" ["song"; "artist"]] ++ [Tool "play_music" ["song"]])%list
                (Call "play_music" [("song", VStr "jazz")])
  = validate_call [Tool "play_music" ["song"]]
                  (Call "play_music" [("song", VStr "jazz")]).
Proof.
  apply (validate_last_descriptor_wins
           [Tool "play_music" ["song"; "artist"]] (Tool "play_music" ["song"])).
  reflexivity.
Defined.

(** ** The quality estimate *)

Lemma req_credit_bounds : forall q v, (0 <= req_credit q v <= 2)%Z.
Proof.
  intros q v. unfold req_credit.
  destruct (as_int v); [destruct (number_in _ _); lia|].
  destruct v; try lia.
  repeat match goal with |- context [if ?b then _ else _] => destruct b end; lia.
Qed.

Lemma req_credits_bounds : forall q (a : args) (required : list string),
  (0 <= sumZ (map (fun req => req_credit q (get a req)) required)
   <= 2 * Z.of_nat (List.length required))%Z.
Proof.
  induction required as [|r rs IH]; cbn [map sumZ fold_right List.length]; [lia|].
  pose proof (req_credit_bounds q (get a r)).
  change (fold_right Z.add 0%Z (map (fun req => req_credit q (get a req)) rs))
    with (sumZ (map (fun req => req_credit q (get a req)) rs)).
  lia.
Qed.

Lemma quality_credit_bounds : forall tools q c,
  (0 <= fst (quality_credit tools q c) <= snd (quality_credit tools q c))%Z
  /\ (2 <= snd (quality_credit tools q c))%Z.
Proof.
  intros tools q c. unfold quality_credit. cbn [fst snd].
  pose proof (req_credits_bounds q (arguments c) (required_of tools (name c))).
  destruct (keyword_hit (name c) q); lia.
Qed.

Lemma quality_credits_sum : forall tools q calls,
  let credits := map (quality_credit tools q) calls in
  (0 <= sumZ (map fst credits) <= sumZ (map snd credits))%Z
  /\ (2 * Z.of_nat (List.length calls) <= sumZ (map snd credits))%Z.
Proof.
  induction calls as [|c calls IH]; cbn [map sumZ fold_right List.length]; [lia|].
  destruct (quality_credit_bounds tools q c) as [H1 H2].
  cbv zeta in IH.
  change (fold_right Z.add 0%Z (map fst (map (quality_credit tools q) calls)))
    with (sumZ (map fst (map (quality_credit tools q) calls))).
  change (fold_right Z.add 0%Z (map snd (map (quality_credit tools q) calls)))
    with (sumZ (map snd (map (quality_credit tools q) calls))).
  lia.
Qed.

Lemma clamp_in_range : forall s m : Z,
  (0 <= s <= m)%Z -> (0 < m)%Z ->
  (py_max 0 (py_min 1 (s # Z.to_pos m)) == s # Z.to_pos m)%Q
  /\ (0 <= s # Z.to_pos m)%Q /\ (s # Z.to_pos m <= 1)%Q.
Proof.
  intros s m Hs Hm.
  assert (H0 : (0 <= s # Z.to_pos m)%Q).
  { unfold Qle. simpl. lia. }
  assert (H1 : (s # Z.to_pos m <= 1)%Q).
  { unfold Qle. simpl. rewrite Z2Pos.id by lia. lia. }
  split; [|now split].
  unfold py_max, py_min.
  destruct (Qltb (s # Z.to_pos m) 1) eqn:E1.
  - destruct (Qltb 0 (s # Z.to_pos m)) eqn:E0; [reflexivity|].
    apply Qltb_false in E0. now apply Qle_antisym.
  - apply Qltb_false in E1.
    destruct (Qltb 0 1) eqn:E0; [now apply Qle_antisym|].
    apply Qltb_false in E0. exfalso. revert E0. unfold Qle. simpl. lia.
Qed.

Lemma quality_le_one : forall calls tools query,
  (_deterministic_quality calls tools query <= 1)%Q.
Proof.
  intros calls tools query. unfold _deterministic_quality.
  destruct calls as [|c calls]; [unfold Qle; simpl; lia|].
  destruct (is_valid (_validate (c :: calls) tools)); cbn [negb];
    [|unfold Qle; simpl; lia].
  destruct (quality_credits_sum tools (Str.lower query) (c :: calls)) as [Hs Hm].
  cbv zeta in Hs, Hm. cbn [List.length] in Hm.
  set (score := sumZ (map fst (map (quality_credit tools (Str.lower query)) (c :: calls)))) in *.
  set (mx := sumZ (map snd (map (quality_credit tools (Str.lower query)) (c :: calls)))) in *.
  assert (Hpos : (0 < mx)%Z) by lia.
  destruct (mx <=? 0)%Z eqn:Em; [apply Z.leb_le in Em; lia|].
  destruct (clamp_in_range Hs Hpos) as [Heq [_ H1]].
  rewrite Heq. exact H1.
Qed.


(** ** The candidate pool and the selection *)

Lemma Subseq_In : forall (A : Type) (l1 l2 : list A) (x : A),
  Subseq l1 l2 -> In x l1 -> In x l2.
Proof.
  induction 1 as [|y l1 l2 Hs IH|y l1 l2 Hs IH]; intros Hin.
  - exact Hin.
  - right. now apply IH.
  - destruct Hin as [-> | Hin]; [now left | right; now apply IH].
Qed.

Lemma dedupe_calls_valid : forall calls tools,
  is_valid (_validate calls tools) = true ->
  is_valid (_validate (_dedupe_calls calls) tools) = true.
Proof.
  intros calls tools H. rewrite validate_valid in *.
  intros c Hin. apply H.
  apply (@Subseq_In _ (_dedupe_calls calls) calls c); [|exact Hin].
  apply dedupe_from_subseq.
Qed.

Lemma dedupe_calls_nonempty : forall calls,
  nonempty calls = true -> nonempty (_dedupe_calls calls) = true.
Proof. intros [|c calls] H; [discriminate | reflexivity]. Qed.

Lemma validate_app_valid : forall a b tools,
  is_valid (_validate a tools) = true -> is_valid (_validate b tools) = true ->
  is_valid (_validate (a ++ b)%list tools) = true.
Proof.
  intros a b tools Ha Hb. rewrite validate_valid in *.
  intros c Hin. apply in_app_iff in Hin. destruct Hin; auto.
Qed.

(** Every member of the candidate pool is a non-empty valid set: the
    deterministic set, the local set, and their deduplicated union when
    both are in. *)
Lemma pool_member_valid :
  forall messages tools d local_calls o calls,
    deterministic_pass messages tools = Ok d ->
    In (o, calls)
       (candidates d local_calls
          (if nonempty local_calls
           then is_valid (_validate local_calls tools) else false)) ->
    nonempty calls = true /\ is_valid (_validate calls tools) = true.
Proof.
  intros messages tools d local_calls o calls Hd.
  destruct (@deterministic_pass_fields _ _ _ Hd) as [_ [_ [_ [_ [_ [Hv _]]]]]].
  unfold candidates. rewrite Hv.
  destruct (nonempty (det_calls d)) eqn:Nd;
    destruct (is_valid (_validate (det_calls d) tools)) eqn:Vd;
    destruct (nonempty local_calls) eqn:Nl;
    destruct (is_valid (_validate local_calls tools)) eqn:Vl;
    cbn [andb app In]; intros H;
    repeat match goal with
    | H : _ \/ _ |- _ => destruct H as [H | H]
    | H : False |- _ => destruct H
    | H : (_, _) = (_, _) |- _ => inversion H; subst; clear H
    end; try (split; assumption).
  split.
  - apply dedupe_calls_nonempty. destruct (det_calls d); [discriminate | reflexivity].
  - now apply dedupe_calls_valid, validate_app_valid.
Qed.

Section DedupeAppend.
Variables (A K : Type) (key : A -> K) (eqb : K -> K -> bool).
Hypothesis eqb_spec : forall a b, eqb a b = true <-> a = b.

End DedupeAppend.



(** Where the selection loop stops: on the first candidate of the
    highest adjusted score, if that beats the score it started from. *)
Lemma select_first_maximum : forall tools q e pool best bn bc sc,
  select tools q e pool best = (bn, bc, sc) ->
  (best = (bn, bc, sc)
   /\ forall cand, In cand pool -> (adjusted_score tools q e cand <= snd best)%Z)
  \/ (exists o pre post,
        bn = Some o /\ pool = (pre ++ (o, bc) :: post)%list
        /\ sc = adjusted_score tools q e (o, bc)
        /\ (snd best < sc)%Z
        /\ (forall cand, In cand pre -> (adjusted_score tools q e cand < sc)%Z)
        /\ (forall cand, In cand post -> (adjusted_score tools q e cand <= sc)%Z)).
Proof.
  induction pool as [|cand rest IH]; intros best bn bc sc; simpl.
  - intros ->. left. split; [reflexivity | intros ? []].
  - destruct (snd best <? adjusted_score tools q e cand)%Z eqn:E; intros H;
      apply IH in H.
    + apply Z.ltb_lt in E. right.
      destruct H as [[Hb Hall] | [o [pre [post [Hn [Hp [Hs [Hlt [Hpre Hpost]]]]]]]]].
      * inversion Hb; subst. exists (fst cand), [], rest. destruct cand as [o c].
        simpl in *. repeat split; try assumption. intros ? [].
      * simpl in Hlt. exists o, (cand :: pre), post. subst bn rest.
        repeat split; try assumption; try lia.
        intros c [<- | Hin]; [lia | now apply Hpre].
    + apply Z.ltb_ge in E.
      destruct H as [[Hb Hall] | [o [pre [post [Hn [Hp [Hs [Hlt [Hpre Hpost]]]]]]]]].
      * left. split; [assumption|]. intros c [<- | Hin]; [lia | now apply Hall].
      * right. exists o, (cand :: pre), post. subst bn rest.
        repeat split; try assumption.
        intros c [<- | Hin]; [lia | now apply Hpre].
Qed.

(** X5. When the selection loop settles on a candidate, that candidate is
    in the pool, no candidate has a higher adjusted score, and every
    candidate before it in the pool has a strictly lower one. *)
Theorem select_is_first_maximum :
  forall tools q e pool o calls sc,
    select tools q e pool initial_best = (Some o, calls, sc) ->
    exists pre post,
      pool = (pre ++ (o, calls) :: post)%list
      /\ sc = adjusted_score tools q e (o, calls)
      /\ (forall cand, In cand pre -> (adjusted_score tools q e cand < sc)%Z)
      /\ (forall cand, In cand post -> (adjusted_score tools q e cand <= sc)%Z).
Proof.
  intros tools q e pool o calls sc H.
  apply select_first_maximum in H.
  destruct H as [[Hb _] | [o' [pre [post [Hn [Hp [Hs [_ [Hpre Hpost]]]]]]]]].
  - discriminate Hb.
  - inversion Hn; subst o'. exists pre, post. repeat split; assumption.
Qed.

Lemma select_is_first_maximum_witness :
  exists pre post,
    [ (Det, [timer_call]); (LocalTier, [timer_call; to_the "play"]);
      (Merged, [timer_call; to_the "play"]) ]
    = (pre ++ (LocalTier, [timer_call; to_the "play"]) :: post)%list
    /\ 119%Z = adjusted_score registry "set a timer for 5 minutes and play" 2
                 (LocalTier, [timer_call; to_the "play"])
    /\ (forall cand, In cand pre ->
          (adjusted_score registry "set a timer for 5 minutes and play" 2 cand < 119)%Z)
    /\ (forall cand, In cand post ->
          (adjusted_score registry "set a timer for 5 minutes and play" 2 cand <= 119)%Z).
Proof.
  apply (@select_is_first_maximum registry "set a timer for 5 minutes and play" 2%Z).
  vm_compute. reflexivity.
Defined.



(** ** The action splitter *)

Module SplitFacts.
Import Str Norm NormFacts AlarmFacts.
Local Open Scope list_scope.

Lemma drop_while_fixed : forall p (l : chars),
  (forall c l', l = c :: l' -> p c = false) -> drop_while p l = l.
Proof.
  intros p [|c l] H; [reflexivity|]. simpl. now rewrite (H c l eq_refl).
Qed.

Lemma strip_by_fixed : forall p (l : chars),
  (forall c l', l = c :: l' -> p c = false) ->
  (forall c l', rev l = c :: l' -> p c = false) ->
  strip_by p l = l.
Proof.
  intros p l Hh Hl. unfold strip_by, lstrip_by, rstrip_by.
  rewrite (@drop_while_fixed p l Hh), (@drop_while_fixed p (rev l) Hl).
  apply rev_involutive.
Qed.

Lemma strip_by_idem : forall p l, strip_by p (strip_by p l) = strip_by p l.
Proof.
  intros p l. destruct (strip_by_ends p l) as [Hh Hl].
  now apply strip_by_fixed.
Qed.

Lemma strip_idem : forall s, strip (strip s) = strip s.
Proof.
  intros s. unfold strip. now rewrite of_to_string, strip_by_idem.
Qed.

Lemma drop_while_nil : forall p (l : chars),
  drop_while p l = [] <-> forallb p l = true.
Proof.
  induction l as [|c l IH]; simpl; [tauto|].
  destruct (p c); simpl; [exact IH|]. split; discriminate.
Qed.

Lemma forallb_rev : forall (p : ascii -> bool) l, forallb p (rev l) = forallb p l.
Proof.
  induction l as [|c l IH]; [reflexivity|]. simpl.
  rewrite forallb_app, IH. simpl. rewrite andb_true_r. apply andb_comm.
Qed.

Lemma strip_by_nil : forall p (l : chars),
  strip_by p l = [] <-> forallb p l = true.
Proof.
  intros p l. unfold strip_by, lstrip_by, rstrip_by. split.
  - intros H. apply (f_equal (@rev ascii)) in H. rewrite rev_involutive in H.
    simpl in H. apply drop_while_nil in H. rewrite forallb_rev in H.
    destruct (drop_while_suffix p l) as [a Ha].
    destruct (drop_while p l) as [|c l'] eqn:E.
    + now apply drop_while_nil.
    + simpl in H. apply andb_true_iff in H.
      rewrite (drop_while_head p l E) in H. destruct H; discriminate.
  - intros H. apply drop_while_nil in H. rewrite H. reflexivity.
Qed.

Lemma to_string_nil : forall l : chars, to_string l = "" <-> l = [].
Proof.
  intros [|c l]; simpl; split; try reflexivity; discriminate.
Qed.

Lemma strip_empty : forall s,
  strip s = "" <-> forallb is_space (of_string s) = true.
Proof.
  intros s. unfold strip. rewrite to_string_nil. apply strip_by_nil.
Qed.

Lemma strip_app_nonempty : forall a b, strip a <> "" -> strip (a ++ b)%string <> "".
Proof.
  intros a b Ha Hab. apply Ha. apply strip_empty. apply strip_empty in Hab.
  rewrite of_string_app, forallb_app in Hab. now apply andb_true_iff in Hab.
Qed.

Lemma non_empty_spec : forall s, non_empty s = true <-> s <> "".
Proof.
  intros [|c s]; unfold non_empty; simpl; split;
    try congruence; try discriminate; try (intros _; discriminate).
Qed.

Lemma stripped_pieces_solid : forall pieces, Forall solid (stripped_pieces pieces).
Proof.
  intros pieces. unfold stripped_pieces. apply Forall_forall. intros p Hin.
  apply in_map_iff in Hin. destruct Hin as [q [<- Hq]].
  apply filter_In in Hq. destruct Hq as [_ Hq].
  apply andb_true_iff in Hq. destruct Hq as [_ Hq].
  split; [apply strip_idem | now apply non_empty_spec].
Qed.

Lemma merge_segments_solid : forall segs current,
  strip current <> "" -> Forall solid segs ->
  Forall solid (merge_segments current segs).
Proof.
  induction segs as [|seg rest IH]; intros current Hc Hs; simpl.
  - constructor; [|constructor]. split; [apply strip_idem | exact Hc].
  - inversion Hs as [|? ? [Hseg1 Hseg2] Hrest]; subst.
    assert (Hext : strip (current ++ " and " ++ seg)%string <> "")
      by now apply strip_app_nonempty.
    assert (Hseg : strip seg <> "") by now rewrite Hseg1.
    destruct (Re.found _ && negb (_contains_action seg)).
    + now apply IH.
    + destruct (_contains_action seg).
      * constructor; [split; [apply strip_idem | exact Hc] | now apply IH].
      * now apply IH.
Qed.

Lemma merge_segments_nonempty : forall segs current, merge_segments current segs <> [].
Proof.
  induction segs as [|seg rest IH]; intros current; simpl; [discriminate|].
  destruct (Re.found _ && negb (_contains_action seg)); [apply IH|].
  destruct (_contains_action seg); [discriminate | apply IH].
Qed.

Lemma split_chunk_solid : forall chunk out,
  split_chunk chunk = Ok out -> out <> [] /\ Forall solid out.
Proof.
  intros chunk out. unfold split_chunk.
  pose proof (stripped_pieces_solid
    (Re.split (rxi "\b(?:and|then|also|plus|after that|next)\b|&") chunk)) as Hs.
  destruct (stripped_pieces _) as [|s [|s' rest]]; intros H;
    [discriminate | |]; injection H as <-.
  - split; [discriminate | exact Hs].
  - inversion Hs as [|? ? [Hs1 Hs2] Hrest]; subst. split.
    + exact (@merge_segments_nonempty (s' :: rest) s).
    + apply (@merge_segments_solid (s' :: rest) s); [now rewrite Hs1 | exact Hrest].
Qed.

Lemma split_chunks_solid : forall chunks out,
  split_chunks chunks = Ok out ->
  Forall solid out /\ (chunks <> [] -> out <> []).
Proof.
  induction chunks as [|chunk rest IH]; intros out; simpl.
  - intros H. inversion H; subst. split; [constructor | congruence].
  - destruct (split_chunk chunk) as [here|] eqn:Eh; [|discriminate]. simpl.
    destruct (split_chunks rest) as [more|] eqn:Em; [|discriminate]. simpl.
    intros H. inversion H; subst.
    destruct (split_chunk_solid _ Eh) as [Hne Hsol].
    destruct (IH _ eq_refl) as [Hmore _]. split.
    + apply Forall_app. now split.
    + intros _ Happ. apply app_eq_nil in Happ. now destruct Happ.
Qed.

Lemma filter_length_le : forall (A : Type) (f : A -> bool) l,
  List.length (filter f l) <= List.length l.
Proof.
  induction l as [|x l IH]; simpl; [lia|]. destruct (f x); simpl; lia.
Qed.

(** X7. What the splitter answers is never empty; each span is stripped,
    and not empty unless the query itself is blank; the number of calls
    expected of the spans lies between one and the number of spans. *)
Theorem split_actions_spans : forall query spans,
  _split_actions query = Ok spans ->
  spans <> []
  /\ Forall (fun p => strip p = p) spans
  /\ (strip query <> "" -> Forall (fun p => p <> "") spans)
  /\ (1 <= _estimate_expected_actions spans <= Z.of_nat (List.length spans))%Z.
Proof.
  intros query spans. unfold _split_actions.
  destruct (split_chunks _) as [out|] eqn:E; [|discriminate]. simpl.
  intros H. inversion H; subst; clear H.
  destruct (split_chunks_solid _ E) as [Hsol _].
  assert (Hspans :
    (match out with [] => [strip query] | _ :: _ => out end) <> []
    /\ Forall (fun p => strip p = p)
              (match out with [] => [strip query] | _ :: _ => out end)
    /\ (strip query <> "" ->
        Forall (fun p => p <> "")
               (match out with [] => [strip query] | _ :: _ => out end))).
  { destruct out as [|p out].
    - split; [discriminate|]. split.
      + constructor; [apply strip_idem | constructor].
      + intros Hq. constructor; [exact Hq | constructor].
    - split; [discriminate|]. split.
      + eapply Forall_impl; [|exact Hsol]. now intros a [Ha _].
      + intros _. eapply Forall_impl; [|exact Hsol]. now intros a [_ Ha]. }
  destruct Hspans as [H1 [H2 H3]]. repeat split; try assumption.
  - unfold _estimate_expected_actions.
    destruct (match out with [] => [strip query] | _ :: _ => out end); [congruence | lia].
  - unfold _estimate_expected_actions.
    destruct (match out with [] => [strip query] | _ :: _ => out end) as [|p ps] eqn:Ep;
      [congruence|].
    pose proof (filter_length_le _contains_action (p :: ps)) as Hle.
    simpl List.length in *. lia.
Qed.

Lemma split_actions_spans_witness :
  ["set a timer for 5 minutes"; "play"] <> []
  /\ Forall (fun p => strip p = p) ["set a timer for 5 minutes"; "play"]
  /\ (strip "set a timer for 5 minutes and play" <> ""
      -> Forall (fun p => p <> "") ["set a timer for 5 minutes"; "play"])
  /\ (1 <= _estimate_expected_actions ["set a timer for 5 minutes"; "play"]
      <= Z.of_nat (List.length ["set a timer for 5 minutes"; "play"]))%Z.
Proof.
  apply (@split_actions_spans "set a timer for 5 minutes and play").
  vm_compute. reflexivity.
Defined.

End SplitFacts.

(** ** Span cleaning *)

Module CleanFacts.
Import Str Norm NormFacts AlarmFacts SplitFacts.
Local Open Scope list_scope.

Lemma collapse_fixed : forall l b,
  spaced l = true -> (b = true -> head_space l = false) -> collapse b l = l.
Proof.
  induction l as [|c l IH]; intros b Hs Hb; [reflexivity|].
  simpl in *. apply andb_true_iff in Hs. destruct Hs as [Hc Hs].
  destruct (is_space c) eqn:E.
  - apply andb_true_iff in Hc. destruct Hc as [Hc Hh].
    apply Ascii.eqb_eq in Hc. apply negb_true_iff in Hh.
    destruct b; [specialize (Hb eq_refl); discriminate|].
    subst c. f_equal. now apply IH.
  - f_equal. apply IH; [exact Hs | discriminate].
Qed.

Lemma normal_strip_fixed : forall l, normal l = true -> strip_by is_space l = l.
Proof.
  intros l H. unfold normal in H.
  apply andb_true_iff in H. destruct H as [H Hl].
  apply andb_true_iff in H. destruct H as [_ Hh].
  apply negb_true_iff in Hh. apply negb_true_iff in Hl.
  apply strip_by_fixed.
  - intros c l' ->. exact Hh.
  - intros c l' E. rewrite E in Hl. exact Hl.
Qed.

Lemma clean_span_fixed : forall s,
  normalized s = true ->
  strip_by (mem_c (of_string clean_set)) (of_string s) = of_string s ->
  _clean_span s = s.
Proof.
  intros s Hn Hfix. unfold _clean_span, strip_chars, strip.
  rewrite sub_ws_collapse, !of_to_string.
  assert (Hs : spaced (of_string s) = true).
  { unfold normalized, normal in Hn. apply andb_true_iff in Hn.
    destruct Hn as [Hn _]. now apply andb_true_iff in Hn. }
  rewrite (@collapse_fixed (of_string s) false Hs) by discriminate.
  rewrite (@normal_strip_fixed (of_string s) Hn).
  rewrite Hfix. apply to_of_string.
Qed.

(** X8. Cleaning a span twice is cleaning it once. *)
Theorem clean_span_idempotent : forall text,
  _clean_span (_clean_span text) = _clean_span text.
Proof.
  intros text. apply clean_span_fixed; [apply clean_span_normalized|].
  unfold _clean_span, strip_chars. rewrite !of_to_string.
  apply strip_by_idem.
Qed.

End CleanFacts.

(** ** The trusted branch of [generate_hybrid] *)

Lemma probe_positive : forall w t,
  _ondevice_probe_ms w = Ok t -> Qltb 0 t = true.
Proof.
  intros w t. unfold _ondevice_probe_ms.
  destruct (probe_completion w) as [[p|]|]; simpl; intros H; inversion H; subst.
  - destruct (Qltb 0 p) eqn:E; [exact E | reflexivity].
  - reflexivity.
Qed.

Lemma need_local_model_false : forall d,
  need_local_model d = false ->
  nonempty (det_calls d) = true
  /\ det_valid d = true
  /\ (threshold <= det_quality d)%Q
  /\ (expected_actions d <= Z.of_nat (List.length (det_calls d)))%Z.
Proof.
  intros d H. unfold need_local_model in H.
  apply orb_false_iff in H. destruct H as [H H3].
  apply orb_false_iff in H. destruct H as [H1 H2].
  apply negb_false_iff in H1. rewrite H1 in H3. simpl in H3.
  apply orb_false_iff in H3. destruct H3 as [Hv Hq].
  apply negb_false_iff in Hv. apply Qltb_false in Hq.
  repeat split; try assumption.
  destruct (expected_actions d =? 0)%Z eqn:E0.
  - apply Z.eqb_eq in E0. lia.
  - simpl in H2. apply Z.ltb_ge in H2. exact H2.
Qed.

(** X9. The trusted branch.  When the deterministic pass needs no rescue
    and the probe answers, the request makes the probe call only and
    returns the deterministic set, which is valid, not empty and holds at
    least as many calls as were expected; the confidence lies between
    0.92 and 1, and the reported time is the positive latency of the
    probe. *)
Theorem settled_result_contract :
  forall (w : world) (messages : list message) (tools : list tool)
         (d : det_state) (r : hybrid_result),
    deterministic_pass messages tools = Ok d ->
    need_local_model d = false ->
    snd (generate_hybrid w messages tools) = Ok r ->
    fst (generate_hybrid w messages tools) = [CactusProbe]
    /\ function_calls r = det_calls d
    /\ nonempty (function_calls r) = true
    /\ is_valid (_validate (function_calls r) tools) = true
    /\ (expected_actions d <= Z.of_nat (List.length (function_calls r)))%Z
    /\ (92 # 100 <= confidence r)%Q /\ (confidence r <= 1)%Q
    /\ _ondevice_probe_ms w = Ok (total_time_ms r)
    /\ (0 < total_time_ms r)%Q.
Proof.
  intros w messages tools d r Hd Hn.
  rewrite (settle_branch w _ _ Hd Hn). cbn [fst snd].
  destruct (need_local_model_false _ Hn) as [Hne [Hv [Hq He]]].
  destruct (@deterministic_pass_fields _ _ _ Hd) as [_ [_ [_ [_ [_ [Hdv Hdq]]]]]].
  rewrite Hne in Hdv. rewrite Hv in Hdv.
  unfold settle. destruct (_ondevice_probe_ms w) as [t|] eqn:Ep; [|discriminate].
  simpl. intros H. inversion H; subst r; clear H. cbn [function_calls confidence total_time_ms].
  pose proof (probe_positive _ Ep) as Ht.
  unfold total_ms. rewrite Ht.
  repeat split; try assumption; try (symmetry; assumption).
  - apply py_max_ge_l.
  - unfold py_max. destruct (Qltb (92 # 100) (det_quality d)).
    + rewrite Hdq. apply quality_le_one.
    + unfold Qle. simpl. lia.
  - now apply Qltb_true.
Qed.

Lemma settled_result_contract_witness :
  exists r,
    snd (generate_hybrid (World (fun _ _ => Raised) (Ok None) 5)
           [Msg "user" "set a timer for 5 minutes"] registry) = Ok r
    /\ function_calls r = [timer_call]
    /\ (confidence r <= 1)%Q
    /\ (0 < total_time_ms r)%Q.
Proof.
  eexists. split; [vm_compute; reflexivity|].
  destruct (@settled_result_contract (World (fun _ _ => Raised) (Ok None) 5)
              [Msg "user" "set a timer for 5 minutes"] registry timer_state
              (Hybrid [timer_call] 1 1 "on-device"))
    as [_ [Hc [_ [_ [_ [_ [Hle [_ Ht]]]]]]]];
    try (vm_compute; reflexivity).
  repeat split; assumption.
Defined.

(** ** Validity of what [generate_hybrid] returns *)

Lemma message_penalty_le : forall q a, (message_penalty q a <= 38)%Z.
Proof.
  intros q a. unfold message_penalty.
  repeat match goal with |- context [if ?b then _ else _] => destruct b end; lia.
Qed.

Lemma call_score_lower : forall q c, (- 38 <= call_score q c)%Z.
Proof.
  intros q c. unfold call_score.
  pose proof (args_score_nonneg q (arguments c)).
  pose proof (message_penalty_le q (arguments c)).
  destruct (keyword_hit _ q); destruct (String.eqb _ _); lia.
Qed.

Lemma calls_score_lower : forall q calls,
  (- 38 * Z.of_nat (List.length calls) <= sumZ (map (call_score q) calls))%Z.
Proof.
  induction calls as [|c calls IH]; [simpl; lia|].
  cbn [map sumZ fold_right List.length]. fold (sumZ (map (call_score q) calls)).
  pose proof (call_score_lower q c). lia.
Qed.

Lemma duplicate_names_le : forall calls,
  (duplicate_names calls <= Z.of_nat (List.length calls))%Z.
Proof.
  intros calls. unfold duplicate_names. rewrite length_map. lia.
Qed.

Lemma candidate_score_lower : forall calls tools q e,
  calls <> [] ->
  (- 100 - 33 * Z.of_nat (List.length calls) - 6 * Z.abs e
   <= _candidate_score calls tools q e)%Z.
Proof.
  intros calls tools q e Hne. unfold _candidate_score.
  destruct calls as [|c calls]; [congruence|].
  set (l := c :: calls).
  pose proof (calls_score_lower (Str.lower q) l).
  pose proof (duplicate_names_le l).
  destruct (is_valid (_validate l tools)); destruct (e =? 0)%Z; lia.
Qed.

Lemma Subseq_length : forall (A : Type) (l1 l2 : list A),
  Subseq l1 l2 -> List.length l1 <= List.length l2.
Proof. induction 1; simpl; lia. Qed.

Lemma dedupe_calls_length : forall calls,
  List.length (_dedupe_calls calls) <= List.length calls.
Proof. intros calls. apply Subseq_length, dedupe_from_subseq. Qed.

Lemma parse_parts_length : forall spans available ctx,
  List.length (parse_parts spans available ctx) <= List.length spans.
Proof.
  induction spans as [|p spans IH]; intros available ctx; [simpl; lia|].
  rewrite parse_parts_cons.
  destruct (_parse_part p available ctx) as [[c|] ctx'];
    specialize (IH available ctx'); simpl; lia.
Qed.

Lemma expected_actions_le : forall spans,
  (0 <= _estimate_expected_actions spans <= Z.max 1 (Z.of_nat (List.length spans)))%Z.
Proof.
  intros [|p spans]; unfold _estimate_expected_actions; [lia|].
  pose proof (SplitFacts.filter_length_le _contains_action (p :: spans)). lia.
Qed.

Lemma nonempty_spec : forall (A : Type) (l : list A), nonempty l = true <-> l <> [].
Proof. intros A [|x l]; simpl; split; congruence. Qed.

(** X10. What [generate_hybrid] returns is a valid, non-empty call set as
    soon as one of the two tiers produced one (the lists being of
    practical size, so that the scores stay above the loop's initial
    [-1e18]). *)
Theorem hybrid_result_valid :
  forall (w : world) (messages : list message) (tools : list tool)
         (d : det_state) (r : hybrid_result),
    deterministic_pass messages tools = Ok d ->
    snd (generate_hybrid w messages tools) = Ok r ->
    let local := match generate_cactus w (msgs d) tools with
                 | Ok t => t
                 | Raised => empty_tier
                 end in
    let local_calls := _dedupe_calls (tier_calls local) in
    (Z.of_nat (List.length (parts d)) + Z.of_nat (List.length (tier_calls local))
     < 10 ^ 16)%Z ->
    (nonempty (det_calls d) = true
     /\ is_valid (_validate (det_calls d) tools) = true)
    \/ (nonempty local_calls = true
        /\ is_valid (_validate local_calls tools) = true) ->
    nonempty (function_calls r) = true
    /\ is_valid (_validate (function_calls r) tools) = true.
Proof.
  intros w messages tools d r Hd Hr local local_calls Hsize Hsome.
  destruct (@deterministic_pass_fields _ _ _ Hd) as [_ [_ [_ [He [Hc [Hdv _]]]]]].
  destruct (need_local_model d) eqn:Hn.
  - rewrite (escalate_branch w _ _ Hd Hn) in Hr. cbn [snd] in Hr.
    inversion Hr as [Hr']; clear Hr.
    unfold escalate. fold local. fold local_calls.
    set (local_valid := if nonempty local_calls
                        then is_valid (_validate local_calls tools) else false).
    set (pool := candidates d local_calls local_valid).
    assert (Hlen_det : (Z.of_nat (List.length (det_calls d))
                        <= Z.of_nat (List.length (parts d)))%Z).
    { rewrite Hc. pose proof (dedupe_calls_length
        (parse_parts (parts d) (map t_name tools) (Ctx None))).
      pose proof (parse_parts_length (parts d) (map t_name tools) (Ctx None)). lia. }
    assert (Hlen_loc : (Z.of_nat (List.length local_calls)
                        <= Z.of_nat (List.length (tier_calls local)))%Z).
    { pose proof (dedupe_calls_length (tier_calls local)). unfold local_calls. lia. }
    pose proof (expected_actions_le (parts d)) as Hexp. rewrite <- He in Hexp.
    assert (Hcand : exists o calls,
               In (o, calls) pool /\ calls <> []
               /\ (Z.of_nat (List.length calls)
                   <= Z.of_nat (List.length (parts d))
                      + Z.of_nat (List.length (tier_calls local)))%Z).
    { destruct Hsome as [[Hne Hv] | [Hne Hv]].
      - exists Det, (det_calls d). unfold pool, candidates.
        rewrite Hdv, Hne, Hv. cbn [andb app]. split; [now left|].
        split; [now apply nonempty_spec | lia].
      - exists LocalTier, local_calls. unfold pool, candidates, local_valid.
        rewrite Hne, Hv. cbn [andb]. split.
        + apply in_app_iff. right. now left.
        + split; [now apply nonempty_spec | lia]. }
    destruct Hcand as [o [calls [Hin [Hne Hlen]]]].
    assert (Hscore : (- 10 ^ 18 < adjusted_score tools (user_query d)
                                    (expected_actions d) (o, calls))%Z).
    { unfold adjusted_score. cbn [fst snd].
      pose proof (candidate_score_lower tools (user_query d) (expected_actions d) Hne).
      assert (0 <= det_bonus o)%Z by (destruct o; simpl; lia).
      change (10 ^ 18)%Z with 1000000000000000000%Z.
      change (10 ^ 16)%Z with 10000000000000000%Z in Hsize. lia. }
    destruct (@select_some tools (user_query d) (expected_actions d) pool _ Hin Hscore)
      as [o' [calls' [sc [Hsel Hin']]]].
    destruct pool as [|p0 rest] eqn:Epool; [destruct Hin|].
    rewrite Hsel. cbn [function_calls].
    rewrite <- Epool in Hin'. unfold pool, local_valid in Hin'.
    apply (@pool_member_valid messages tools d local_calls o' calls' Hd Hin').
  - rewrite (settle_branch w _ _ Hd Hn) in Hr. cbn [snd] in Hr.
    destruct (need_local_model_false _ Hn) as [Hne [Hv _]].
    rewrite Hne, Hv in Hdv.
    unfold settle in Hr. destruct (_ondevice_probe_ms w); [|discriminate].
    simpl in Hr. inversion Hr; subst r. cbn [function_calls]. now split.
Qed.

Lemma hybrid_result_valid_witness :
  nonempty [timer_call; to_the "play"] = true
  /\ is_valid (_validate [timer_call; to_the "play"] registry) = true.
Proof.
  apply (@hybrid_result_valid filler_world timer_and_play_request registry
           timer_and_play_state
           (Hybrid [timer_call; to_the "play"] 10 (80 # 100) "on-device")).
  - vm_compute. reflexivity.
  - vm_compute. reflexivity.
  - vm_compute. reflexivity.
  - left. split; vm_compute; reflexivity.
Defined.

(** ** The two readings of a time of day *)

Module TimeFacts.
Import Str Re Sem SemFacts AlarmFacts.

Lemma meridiem_letter : forall icase c,
  cls_match (Cls false icase [IChr "A"; IChr "a"; IChr "P"; IChr "p"]) c = true ->
  upper_c c = "A"%char \/ upper_c c = "P"%char.
Proof.
  intros icase c Hc.
  assert (H : forallb (fun c =>
                implb (cls_match (Cls false icase
                         [IChr "A"; IChr "a"; IChr "P"; IChr "p"]) c)
                      (Ascii.eqb (upper_c c) "A" || Ascii.eqb (upper_c c) "P"))
              all_ascii = true)
    by (destruct icase; vm_compute; reflexivity).
  pose proof (by_cases_on_ascii _ H c) as Hp. cbv beta in Hp.
  rewrite Hc in Hp. simpl in Hp. apply orb_true_iff in Hp.
  destruct Hp as [Hp | Hp]; apply Ascii.eqb_eq in Hp; auto.
Qed.

Ltac read_letter :=
  cbn [assoc_caps option_map Nat.eqb]; unfold upper, upper_l;
  rewrite ?of_to_string; cbn [map app to_string string_of_list_ascii];
  match goal with
  | H : cls_match (Cls false _ [IChr "A"; IChr "a"; IChr "P"; IChr "p"]) ?c = true
    |- _ => destruct (meridiem_letter _ _ H) as [-> | ->]; auto
  end.

Lemma ampm_letter : forall text m,
  search _TIME_AMPM_RE text = Some m ->
  upper (grp m 3) = "A" \/ upper (grp m 3) = "P".
Proof.
  intros text m H. open_search H m _TIME_AMPM_RE.
  invert_steps; read_letter.
Qed.

Lemma ampm_word_letter : forall text m,
  search (rxi ("\b(" ++ words_upto 12 ++ ")\s*([AaPp])\.?\s*[Mm]\.?\b")) text = Some m ->
  upper (grp m 2) = "A" \/ upper (grp m 2) = "P".
Proof.
  intros text m H.
  open_search H m (rxi ("\b(" ++ words_upto 12 ++ ")\s*([AaPp])\.?\s*[Mm]\.?\b")).
  invert_steps; read_letter.
Qed.

(** What every answer of [_parse_ampm_time] satisfies. *)
Lemma ampm_facts : forall text h m ap,
  _parse_ampm_time text = Some (h, m, ap) ->
  (0 <= h)%Z /\ (0 <= m)%Z /\ (ap = "A" \/ ap = "P").
Proof.
  intros text h m ap. unfold _parse_ampm_time.
  destruct (search _TIME_AMPM_RE text) as [mn|] eqn:En.
  - intros H. inversion H; subst. split; [apply int_of_digits_nonneg|].
    split; [apply int_or0_nonneg | exact (ampm_letter _ En)].
  - match goal with
    | |- context [search ?r text] => destruct (search r text) as [mw|] eqn:Ew
    end.
    + intros H. inversion H; subst.
      pose proof (word_to_num_range (lower (grp mw 1))) as Hr.
      split; [destruct (word_to_num _ =? 0)%Z; lia|].
      split; [lia | exact (ampm_word_letter _ Ew)].
    + destruct (found (search (rxi "\bnoon\b") text)).
      * intros H. inversion H; subst. repeat split; try lia. now right.
      * destruct (found (search (rxi "\bmidnight\b") text)); [|discriminate].
        intros H. inversion H; subst. repeat split; try lia. now left.
Qed.

(** X11. A text that gives a reminder time gives an alarm time as well,
    and the two denote the same time of day: the reminder text is the
    12-hour form of the alarm's hour and minute.  (For a meridiem form
    the agreement needs the written hour to be at most 12.) *)
Theorem reminder_time_agrees_with_alarm : forall text t,
  _parse_reminder_time text = Some t ->
  exists hour minute,
    _parse_alarm_args text = Some (hour, minute)
    /\ ((forall h m ap, _parse_ampm_time text = Some (h, m, ap) -> (h <= 12)%Z) ->
        t = clock_text hour minute).
Proof.
  intros text t. unfold _parse_reminder_time, _parse_alarm_args.
  destruct (_parse_ampm_time text) as [[[h m] ap]|] eqn:Ea.
  - intros H. inversion H; subst; clear H.
    destruct (ampm_facts _ Ea) as [Hh [Hm Hap]].
    eexists. eexists. split; [reflexivity|].
    intros Hle. specialize (Hle _ _ _ eq_refl).
    rewrite (Z.abs_eq m Hm). unfold clock_text.
    assert (Hcases : (h = 0 \/ h = 1 \/ h = 2 \/ h = 3 \/ h = 4 \/ h = 5 \/ h = 6
                      \/ h = 7 \/ h = 8 \/ h = 9 \/ h = 10 \/ h = 11 \/ h = 12)%Z)
      by lia.
    destruct Hap; subst ap;
      repeat (destruct Hcases as [-> | Hcases]; [reflexivity|]);
      subst h; reflexivity.
  - destruct (search _TIME_24_RE text) as [m24|]; [|discriminate].
    intros H. inversion H; subst; clear H.
    eexists. eexists. split; [reflexivity|]. intros _. reflexivity.
Qed.

Lemma reminder_time_agrees_with_alarm_witness :
  exists hour minute,
    _parse_alarm_args "remind me to stretch at 3:15 pm" = Some (hour, minute)
    /\ "3:15 PM" = clock_text hour minute.
Proof.
  destruct (@reminder_time_agrees_with_alarm
              "remind me to stretch at 3:15 pm" "3:15 PM")
    as [hour [minute [Ha Ht]]]; [vm_compute; reflexivity|].
  exists hour, minute. split; [exact Ha|]. apply Ht.
  intros h m ap H. vm_compute in H. inversion H. lia.
Defined.

End TimeFacts.

(** ** The request context *)

Module ContextFacts.
Import Str.

Lemma parse_search_context : forall part low available c ctx ctx',
  parse_search part low available = Some (c, ctx') ->
  ctx' = context_after ctx (Some c) /\ name c = "search_contacts".
Proof.
  intros part low available c ctx ctx'. unfold parse_search.
  destruct (has "search_contacts" available && search_cue low); [|discriminate].
  destruct (_extract_search_query part) as [q|]; [|discriminate].
  destruct (non_empty q); [|discriminate].
  intros H. inversion H; subst. split; reflexivity.
Qed.

(** The recipient of a message span: the extracted one, or the last
    contact in the place of a pronoun. *)
Lemma parse_message_recipient : forall part low available ctx c ctx',
  parse_message part low available ctx = Some (c, ctx') ->
  exists r0 r b,
    fst (message_fields part) = Some r0
    /\ r = (if mem_s (lower r0) _PRONOUNS && truthy (last_contact ctx)
            then match last_contact ctx with Some lc => lc | None => r0 end
            else r0)
    /\ c = Call "send_message" [("recipient", VStr r); ("message", VStr b)]
    /\ ctx' = Ctx (Some r).
Proof.
  intros part low available ctx c ctx'. unfold parse_message.
  destruct (has "send_message" available && message_cue low); [|discriminate].
  destruct (message_fields part) as [[r0|] body]; [|discriminate].
  destruct (non_empty r0); [|discriminate].
  destruct body as [b|]; [|discriminate].
  destruct (non_empty b); [|discriminate].
  intros H. inversion H; subst.
  eexists. eexists. eexists. repeat split; reflexivity.
Qed.

Lemma keep_context : forall ctx o c ctx',
  keep ctx o = Some (c, ctx') -> o = Some c /\ ctx' = ctx.
Proof.
  intros ctx [c0|] c ctx'; simpl; [|discriminate].
  intros H. inversion H; subst. now split.
Qed.

(** What a span does, as one of the seven capabilities or none. *)
Lemma parse_part_cases : forall part available ctx o ctx',
  _parse_part part available ctx = (o, ctx') ->
  (exists c, o = Some c /\ parse_search part (lower part) available = Some (c, ctx'))
  \/ (exists c, o = Some c
                /\ parse_message part (lower part) available ctx = Some (c, ctx'))
  \/ (ctx' = ctx
      /\ (o = None
          \/ o = parse_reminder part (lower part) available
          \/ o = parse_alarm part (lower part) available
          \/ o = parse_timer part (lower part) available
          \/ o = parse_weather part (lower part) available
          \/ o = parse_music part (lower part) available)
      /\ match o with
         | Some c => In (name c) ["create_reminder"; "set_alarm"; "set_timer";
                                  "get_weather"; "play_music"]
         | None => True
         end).
Proof.
  intros part available ctx o ctx'. unfold _parse_part.
  set (low := lower part). cbn [first_some].
  destruct (parse_search part low available) as [[c1 x1]|] eqn:E1.
  { intros H. inversion H; subst. left. now exists c1. }
  destruct (parse_message part low available ctx) as [[c2 x2]|] eqn:E2.
  { intros H. inversion H; subst. right. left. now exists c2. }
  destruct (parse_reminder part low available) as [c3|] eqn:E3; cbn [keep option_map].
  { intros H. inversion H; subst. right. right. split; [reflexivity|]. split; [auto|].
    unfold parse_reminder in E3.
    destruct (has "create_reminder" available && reminder_cue low); [|discriminate].
    destruct (_extract_reminder_title part); [|discriminate].
    destruct (_parse_reminder_time part); [|discriminate].
    destruct (non_empty _ && non_empty _); [|discriminate].
    inversion E3; subst. simpl. auto. }
  destruct (parse_alarm part low available) as [c4|] eqn:E4; cbn [keep option_map].
  { intros H. inversion H; subst. right. right. split; [reflexivity|]. split; [auto|].
    unfold parse_alarm in E4.
    destruct (has "set_alarm" available && alarm_cue low); [|discriminate].
    destruct (_parse_alarm_args part) as [[h m]|]; [|discriminate].
    inversion E4; subst. simpl. auto. }
  destruct (parse_timer part low available) as [c5|] eqn:E5; cbn [keep option_map].
  { intros H. inversion H; subst. right. right. split; [reflexivity|]. split; [auto 6|].
    unfold parse_timer in E5.
    destruct (has "set_timer" available && timer_cue low); [|discriminate].
    destruct (_parse_minutes part); [|discriminate].
    inversion E5; subst. simpl. auto. }
  destruct (parse_weather part low available) as [c6|] eqn:E6; cbn [keep option_map].
  { intros H. inversion H; subst. right. right. split; [reflexivity|]. split; [auto 7|].
    unfold parse_weather in E6.
    destruct (has "get_weather" available && weather_cue low); [|discriminate].
    destruct (_extract_weather_location part) as [l|]; [|discriminate].
    destruct (non_empty l); [|discriminate].
    inversion E6; subst. simpl. auto. }
  destruct (parse_music part low available) as [c7|] eqn:E7; cbn [keep option_map].
  { intros H. inversion H; subst. right. right. split; [reflexivity|]. split; [auto 8|].
    unfold parse_music in E7.
    destruct (has "play_music" available && music_cue low); [|discriminate].
    destruct (_extract_song part) as [l|]; [|discriminate].
    destruct (non_empty l); [|discriminate].
    inversion E7; subst. simpl. auto 6. }
  intros H. inversion H; subst. right. right.
  split; [reflexivity|]. split; [auto | exact I].
Qed.

(** X12. The context remembers the contact last named: after a contact
    search its query, after a message its recipient; every other span,
    with or without a call, leaves the context as it was. *)
Theorem parse_part_context_law : forall part available ctx o ctx',
  _parse_part part available ctx = (o, ctx') ->
  ctx' = context_after ctx o.
Proof.
  intros part available ctx o ctx' H.
  destruct (parse_part_cases _ _ _ H)
    as [[c [-> Hs]] | [[c [-> Hm]] | [-> [_ Hn]]]].
  - now apply (parse_search_context _ _ _ ctx) in Hs.
  - destruct (parse_message_recipient _ _ _ _ Hm) as [r0 [r [b [_ [_ [-> ->]]]]]].
    reflexivity.
  - destruct o as [c|]; [|reflexivity].
    unfold context_after, contact_of. simpl in Hn.
    repeat (destruct Hn as [<- | Hn]; [reflexivity|]). destruct Hn.
Qed.

Lemma parse_part_context_law_witness :
  Ctx (Some "Tom")
  = context_after (Ctx None)
      (Some (Call "search_contacts" [("query", VStr "Tom")])).
Proof.
  apply (@parse_part_context_law "find Tom in my contacts"
           ["search_contacts"; "send_message"] (Ctx None)).
  vm_compute. reflexivity.
Defined.

(** X13. Once a contact is known that is not itself a pronoun, no message
    is addressed to [him], [her] or [them]: the pronoun is replaced by
    the last contact. *)
Theorem pronoun_recipient_resolved : forall part available ctx c ctx' lc r,
  _parse_part part available ctx = (Some c, ctx') ->
  name c = "send_message" ->
  last_contact ctx = Some lc ->
  non_empty lc = true ->
  mem_s (lower lc) _PRONOUNS = false ->
  contact_of c = Some r ->
  mem_s (lower r) _PRONOUNS = false.
Proof.
  intros part available ctx c ctx' lc r H Hname Hlc Hne Hp Hr.
  destruct (parse_part_cases _ _ _ H)
    as [[c1 [Hc Hs]] | [[c2 [Hc Hm]] | [_ [_ Hn]]]].
  - inversion Hc; subst c1. apply (parse_search_context _ _ _ ctx) in Hs.
    destruct Hs as [_ Hs]. congruence.
  - inversion Hc; subst c2.
    destruct (parse_message_recipient _ _ _ _ Hm) as [r0 [r1 [b [_ [Hr1 [-> _]]]]]].
    unfold contact_of in Hr. simpl in Hr. inversion Hr; subst r.
    rewrite Hlc in Hr1. cbn [truthy] in Hr1. rewrite Hne in Hr1.
    rewrite andb_true_r in Hr1.
    destruct (mem_s (lower r0) _PRONOUNS) eqn:E; subst r1; assumption.
  - simpl in Hn. rewrite Hname in Hn.
    repeat (destruct Hn as [Hn | Hn]; [discriminate Hn|]). destruct Hn.
Qed.

Lemma pronoun_recipient_resolved_witness :
  mem_s (lower "Tom") _PRONOUNS = false.
Proof.
  apply (@pronoun_recipient_resolved "text him saying hello"
           ["search_contacts"; "send_message"] (Ctx (Some "Tom"))
           (Call "send_message" [("recipient", VStr "Tom"); ("message", VStr "hello")])
           (Ctx (Some "Tom")) "Tom" "Tom"); vm_compute; reflexivity.
Defined.

End ContextFacts.

(** ** Cleaning of the local tier's arguments *)

Module CleanCallsFacts.
Import Str.
Local Open Scope list_scope.

Lemma clean_text_cleaned : forall k s v, clean_text k s = Ok v -> cleaned v.
Proof.
  intros k s v. unfold clean_text.
  destruct (isdigit _).
  - destruct (int_of_dashed _) as [n|]; simpl; [|discriminate].
    intros H. inversion H; subst. simpl. apply Z.abs_nonneg.
  - destruct (Re.match_ _ISO_TS _).
    + intros H. inversion H; subst. exact I.
    + intros H. inversion H; subst. exact I.
Qed.

Lemma clean_number_cleaned : forall k v n, cleaned (clean_number k v n).
Proof.
  intros k v n. unfold clean_number.
  destruct (mem_s k _TIME_FIELDS); simpl; [apply Z.abs_nonneg | exact I].
Qed.

Lemma clean_value_cleaned : forall k v v', clean_value k v = Ok v' -> cleaned v'.
Proof.
  intros k v v'. unfold clean_value.
  destruct v as [|b|n|s|[|x l]].
  - intros H. inversion H; subst. exact I.
  - intros H. inversion H; subst. apply clean_number_cleaned.
  - intros H. inversion H; subst. apply clean_number_cleaned.
  - apply clean_text_cleaned.
  - apply clean_text_cleaned.
  - destruct x as [|b|n|s|l'].
    + intros H. inversion H; subst. exact I.
    + intros H. inversion H; subst. apply clean_number_cleaned.
    + intros H. inversion H; subst. apply clean_number_cleaned.
    + apply clean_text_cleaned.
    + intros H. inversion H; subst. exact I.
Qed.

Lemma clean_args_shape : forall d d',
  clean_args d = Ok d' ->
  map fst d' = map fst d /\ Forall (fun kv => cleaned (snd kv)) d'.
Proof.
  induction d as [|[k v] d IH]; intros d'; simpl.
  - intros H. inversion H; subst. split; [reflexivity | constructor].
  - destruct (clean_value k v) as [v'|] eqn:Ev; simpl; [|discriminate].
    destruct (clean_args d) as [rest|]; simpl; [|discriminate].
    intros H. inversion H; subst. destruct (IH _ eq_refl) as [Hk Hc].
    simpl. split; [now f_equal|]. constructor; [|exact Hc].
    simpl. now apply clean_value_cleaned in Ev.
Qed.

(** X14. When [_clean_calls] returns, it has kept the calls, their names
    and the keys of their arguments, in order; and no argument is left a
    bool or a negative integer. *)
Theorem clean_calls_shape : forall calls out,
  _clean_calls calls = Ok out ->
  map name out = map name calls
  /\ map (fun c => map fst (arguments c)) out
     = map (fun c => map fst (arguments c)) calls
  /\ Forall (fun c => Forall (fun kv => cleaned (snd kv)) (arguments c)) out.
Proof.
  induction calls as [|c calls IH]; intros out; simpl.
  - intros H. inversion H; subst. repeat split; constructor.
  - destruct (clean_args (arguments c)) as [a|] eqn:Ea; simpl; [|discriminate].
    destruct (_clean_calls calls) as [rest|]; simpl; [|discriminate].
    intros H. inversion H; subst.
    destruct (IH _ eq_refl) as [Hn [Hk Hc]].
    destruct (clean_args_shape _ Ea) as [Hak Hac].
    simpl. repeat split; [now f_equal | now f_equal | now constructor].
Qed.

Lemma clean_calls_shape_witness :
  map name [Call "set_alarm" [("hour", VInt 7); ("minute", VInt 30)]]
  = map name [Call "set_alarm" [("hour", VStr "-7"); ("minute", VList [VStr "30!"])]]
  /\ map (fun c => map fst (arguments c))
         [Call "set_alarm" [("hour", VInt 7); ("minute", VInt 30)]]
     = map (fun c => map fst (arguments c))
           [Call "set_alarm" [("hour", VStr "-7"); ("minute", VList [VStr "30!"])]]
  /\ Forall (fun c => Forall (fun kv => cleaned (snd kv)) (arguments c))
            [Call "set_alarm" [("hour", VInt 7); ("minute", VInt 30)]].
Proof.
  apply (@clean_calls_shape
           [Call "set_alarm" [("hour", VStr "-7"); ("minute", VList [VStr "30!"])]]).
  vm_compute. reflexivity.
Defined.

End CleanCallsFacts.

(** ** Decimal text and its value *)

Module DigitFacts.
Import Str Sem SemFacts AlarmFacts SplitFacts.
Local Open Scope list_scope.







(** A digit is none of the characters the cleaner strips. *)
Lemma digit_kept : forall c,
  is_digit c = true ->
  mem_c (of_string "!.',;:") c = false /\ Ascii.eqb c "-" = false.
Proof.
  intros c Hc.
  assert (H : forallb (fun c => implb (is_digit c)
                (negb (mem_c (of_string "!.',;:") c) && negb (Ascii.eqb c "-")))
              all_ascii = true) by (vm_compute; reflexivity).
  pose proof (by_cases_on_ascii _ H c) as Hp. cbv beta in Hp.
  rewrite Hc in Hp. simpl in Hp. apply andb_true_iff in Hp.
  destruct Hp as [H1 H2]. apply negb_true_iff in H1. apply negb_true_iff in H2.
  now split.
Qed.

Lemma forallb_last : forall (p : ascii -> bool) l c l',
  forallb p l = true -> rev l = c :: l' -> p c = true.
Proof.
  intros p l c l' H E. rewrite <- forallb_rev, E in H. simpl in H.
  now apply andb_true_iff in H.
Qed.

(** Text that ends in a digit passes [rstrip] untouched. *)
Lemma rstrip_ends_digit : forall l c l',
  rev l = c :: l' -> is_digit c = true ->
  rstrip_by (mem_c (of_string "!.',;:")) l = l.
Proof.
  intros l c l' E Hc. unfold rstrip_by. rewrite E. cbn [drop_while].
  destruct (digit_kept _ Hc) as [Hk _]. rewrite Hk.
  rewrite <- E. apply rev_involutive.
Qed.






End DigitFacts.



(** ** A doubled sign *)

Module DashFacts.
Import Str AlarmFacts NormFacts SplitFacts DigitFacts.
Local Open Scope list_scope.

Lemma length_of_string : forall s, List.length (of_string s) = String.length s.
Proof. induction s as [|c s IH]; simpl; [reflexivity | now rewrite IH]. Qed.

Lemma length_to_string : forall l : chars, String.length (to_string l) = List.length l.
Proof. intros l. now rewrite <- length_of_string, of_to_string. Qed.

Lemma drop_while_length : forall p (l : chars),
  List.length (drop_while p l) <= List.length l.
Proof.
  intros p l. destruct (drop_while_suffix p l) as [a Ha].
  rewrite Ha at 2. rewrite length_app. lia.
Qed.

(** Two dashes, possibly more, then digits: [int] refuses the text. *)
Lemma clean_text_double_dash : forall k w,
  isdigit (lstrip_dash w) = true ->
  clean_text k (String "-" (String "-" w)) = Raised.
Proof.
  intros k w Hd.
  set (v := String "-" (String "-" w)).
  assert (Hl : lstrip_dash v = lstrip_dash w) by reflexivity.
  assert (Hr : rstrip_chars "!.',;:" v = v).
  { unfold rstrip_chars.
    assert (Hdig : isdigit (lstrip_dash w) = true) by exact Hd.
    unfold isdigit in Hdig. apply andb_true_iff in Hdig. destruct Hdig as [Hne Hall].
    unfold lstrip_dash, lstrip_by in Hne, Hall. rewrite of_to_string in Hall.
    set (D := drop_while (fun c => Ascii.eqb c "-") (of_string w)) in *.
    destruct (drop_while_suffix (fun c => Ascii.eqb c "-") (of_string w)) as [a Ha].
    fold D in Ha.
    destruct (rev D) as [|c l'] eqn:E.
    { apply (f_equal (@rev ascii)) in E. rewrite rev_involutive in E. simpl in E.
      rewrite E in Hne. discriminate. }
    assert (Hc : is_digit c = true) by (eapply forallb_last; eassumption).
    assert (Hv : rev (of_string v) = c :: (l' ++ rev a ++ ["-"; "-"]%char)).
    { unfold v. cbn [of_string list_ascii_of_string]. fold (of_string w).
      rewrite Ha. cbn [rev]. rewrite rev_app_distr, E. simpl.
      now rewrite <- !app_assoc. }
    rewrite (@rstrip_ends_digit _ c _ Hv Hc). apply to_of_string. }
  unfold clean_text. rewrite Hr, Hl, Hd.
  unfold int_of_dashed, dashes. rewrite Hl.
  assert (Hlen : String.length (lstrip_dash w) <= String.length w).
  { unfold lstrip_dash, lstrip_by. rewrite length_to_string, <- length_of_string.
    apply drop_while_length. }
  unfold v. cbn [String.length].
  destruct (S (S (String.length w)) - String.length (lstrip_dash w)) as [|[|n]] eqn:E;
    try lia. reflexivity.
Qed.

Lemma clean_args_raises : forall d k v,
  In (k, v) d -> clean_value k v = Raised -> clean_args d = Raised.
Proof.
  induction d as [|[k0 v0] d IH]; intros k v Hin Hr; [destruct Hin|].
  simpl. destruct Hin as [Heq | Hin].
  - inversion Heq; subst. now rewrite Hr.
  - destruct (clean_value k0 v0); [|reflexivity]. simpl.
    now rewrite (IH _ _ Hin Hr).
Qed.

Lemma clean_calls_raises : forall calls c,
  In c calls -> clean_args (arguments c) = Raised -> _clean_calls calls = Raised.
Proof.
  induction calls as [|c0 calls IH]; intros c Hin Hr; [destruct Hin|].
  simpl. destruct Hin as [-> | Hin].
  - now rewrite Hr.
  - destruct (clean_args (arguments c0)); [|reflexivity]. simpl.
    now rewrite (IH _ Hin Hr).
Qed.

End DashFacts.

(** X16. A text argument made of two or more dashes followed by digits,
    anywhere in the set, makes [_clean_calls] raise: the text passes the
    digit test with its dashes stripped, and [int] then refuses it. *)
Theorem clean_calls_double_dash_raises : forall calls c k w,
  In c calls ->
  In (k, VStr (String "-" (String "-" w))) (arguments c) ->
  isdigit (lstrip_dash w) = true ->
  _clean_calls calls = Raised.
Proof.
  intros calls c k w Hc Hk Hd.
  apply (@DashFacts.clean_calls_raises calls c Hc).
  apply (@DashFacts.clean_args_raises _ k _ Hk).
  unfold clean_value. now apply DashFacts.clean_text_double_dash.
Qed.

Lemma clean_calls_double_dash_raises_witness :
  _clean_calls [Call "set_timer" [("minutes", VStr "--5")]] = Raised.
Proof.
  apply (@clean_calls_double_dash_raises _
           (Call "set_timer" [("minutes", VStr "--5")]) "minutes" "5").
  - now left.
  - now left.
  - reflexivity.
Defined.

(** ** The keyword pre-selector *)





(** ** The compound-query splitter *)

Module CompoundFacts.
Import Str.
Local Open Scope list_scope.

Lemma mem_s_false : forall s set, mem_s s set = false <-> ~ In s set.
Proof.
  intros s set. unfold mem_s. split.
  - intros H Hin. assert (existsb (String.eqb s) set = true).
    { apply existsb_exists. exists s. split; [exact Hin | apply String.eqb_refl]. }
    congruence.
  - intros H. destruct (existsb (String.eqb s) set) eqn:E; [|reflexivity].
    apply existsb_exists in E. destruct E as [x [Hin Hx]].
    apply String.eqb_eq in Hx. subst x. contradiction.
Qed.

Lemma keyword_score_hit : forall nm low,
  0 < keyword_score nm low -> keyword_hit nm low = true.
Proof.
  intros nm low. unfold keyword_score, keyword_hit.
  induction (_TOOL_KEYWORDS nm) as [|kw kws IH]; simpl; [lia|].
  destruct (contains kw low); simpl; [reflexivity | exact IH].
Qed.

Lemma best_tool_from_spec : forall used low tools best t score,
  best_tool_from used low tools best = (Some t, score) ->
  best = (Some t, score)
  \/ (In t tools /\ mem_s (t_name t) used = false
      /\ score = keyword_score (t_name t) low /\ snd best < score).
Proof.
  induction tools as [|t0 tools IH]; intros best t score; simpl.
  - intros ->. now left.
  - destruct (mem_s (t_name t0) used) eqn:Eu.
    + intros H. destruct (IH _ _ _ H) as [Hb | [Hin Hrest]]; [now left|].
      right. split; [now right | exact Hrest].
    + destruct (snd best <? keyword_score (t_name t0) low)%nat eqn:El; intros H;
        destruct (IH _ _ _ H) as [Hb | [Hin [Hu [Hs Hlt]]]].
      * inversion Hb; subst. apply Nat.ltb_lt in El. right.
        repeat split; auto.
      * apply Nat.ltb_lt in El. simpl in Hlt. right.
        repeat split; auto; lia.
      * now left.
      * right. repeat split; auto.
Qed.

Lemma assign_tools_spec : forall relevant pieces used,
  let result := assign_tools used relevant pieces in
  Forall (fun pt => In (snd pt) relevant /\ fst pt <> ""
                    /\ keyword_hit (t_name (snd pt)) (lower (fst pt)) = true
                    /\ ~ In (t_name (snd pt)) used) result
  /\ NoDup (map (fun pt => t_name (snd pt)) result).
Proof.
  induction pieces as [|part rest IH]; intros used; cbn zeta; simpl.
  - split; constructor.
  - destruct (non_empty part) eqn:Ene; cbn [negb]; [|apply IH].
    destruct (best_tool_from used (lower part) relevant (None, 0)) as [[t|] score] eqn:Eb;
      [|apply IH].
    destruct (0 <? score)%nat eqn:Epos; [|apply IH].
    apply Nat.ltb_lt in Epos.
    destruct (best_tool_from_spec _ _ _ _ Eb) as [Hb | [Hin [Hu [Hs _]]]];
      [discriminate|].
    destruct (IH (t_name t :: used)) as [Hall Hnd]. split.
    + constructor.
      * cbn [fst snd]. split; [exact Hin|]. split; [now apply SplitFacts.non_empty_spec|].
        split; [apply keyword_score_hit; lia | now apply mem_s_false].
      * eapply Forall_impl; [|exact Hall]. intros pt [H1 [H2 [H3 H4]]].
        repeat split; auto. intros Hc. apply H4. now right.
    + cbn [map fst snd]. constructor; [|exact Hnd].
      intros Hc. apply in_map_iff in Hc. destruct Hc as [pt [Hname Hpt]].
      rewrite Forall_forall in Hall. destruct (Hall _ Hpt) as [_ [_ [_ Hfresh]]].
      apply Hfresh. left. now rewrite Hname.
Qed.

End CompoundFacts.

(** X18. When the compound splitter answers, it answers at least two
    parts; each part is paired with a tool of the given list one of
    whose keywords occurs in the lower-cased part, no part is empty, and
    no tool name is used twice. *)
Theorem split_compound_pairs :
  forall (messages : list message) (relevant_tools : list tool)
         (result : list (string * tool)),
    _split_compound messages relevant_tools = Some result ->
    2 <= List.length result
    /\ NoDup (map (fun pt => t_name (snd pt)) result)
    /\ Forall (fun pt => In (snd pt) relevant_tools /\ fst pt <> ""
                         /\ keyword_hit (t_name (snd pt)) (Str.lower (fst pt)) = true)
              result.
Proof.
  intros messages relevant_tools result. unfold _split_compound.
  match goal with
  | |- context [assign_tools [] relevant_tools ?p] => set (pieces := p)
  end.
  destruct (List.length pieces <=? 1)%nat; [discriminate|].
  destruct (2 <=? List.length (assign_tools [] relevant_tools pieces))%nat eqn:E;
    [|discriminate].
  intros H. inversion H; subst. apply Nat.leb_le in E.
  destruct (CompoundFacts.assign_tools_spec relevant_tools pieces []) as [Hall Hnd].
  split; [exact E|]. split; [exact Hnd|].
  eapply Forall_impl; [|exact Hall]. intros pt [H1 [H2 [H3 _]]]. now repeat split.
Qed.

Lemma split_compound_pairs_witness :
  2 <= List.length [("set an alarm for 7am", Tool "set_alarm" ["hour"; "minute"]);
                    ("play jazz", Tool "play_music" ["song"])]
  /\ NoDup (map (fun pt => t_name (snd pt))
                [("set an alarm for 7am", Tool "set_alarm" ["hour"; "minute"]);
                 ("play jazz", Tool "play_music" ["song"])])
  /\ Forall (fun pt => In (snd pt) registry /\ fst pt <> ""
                       /\ keyword_hit (t_name (snd pt)) (Str.lower (fst pt)) = true)
            [("set an alarm for 7am", Tool "set_alarm" ["hour"; "minute"]);
             ("play jazz", Tool "play_music" ["song"])].
Proof.
  apply (@split_compound_pairs [Msg "user" "set an alarm for 7am and play jazz."]
           registry).
  vm_compute. reflexivity.
Defined.

(** ** The cached model handle *)

(** X19. After [_get_cached_model] the cache holds exactly the handle it
    returned, and holds nothing when it raised, which happens only when
    [cactus_init] raises.  A cached handle whose reset succeeds is
    reused with no other call; a handle is destroyed only when it was
    the cached one and its reset failed, and [cactus_init] is called at
    most once. *)
Theorem cached_model_consistent : forall (e : engine) (cached : option nat),
  let '(trace, cached', r) := _get_cached_model e cached in
  (forall h, r = Ok h -> cached' = h)
  /\ (r = Raised -> cached' = None /\ cactus_init e = Raised)
  /\ (forall h, cached = Some h -> cactus_reset e h = Ok tt ->
        trace = [CallReset h] /\ r = Ok (Some h))
  /\ (forall h, In (CallDestroy h) trace ->
        cached = Some h /\ cactus_reset e h = Raised)
  /\ List.length (filter (fun c => match c with CallInit => true | _ => false end)
                         trace) <= 1.
Proof.
  intros e cached. unfold _get_cached_model, _destroy_cached_model.
  assert (Hswallow : forall h (X : Type) (a : X),
            match cactus_destroy e h with Ok _ => a | Raised => a end = a)
    by (intros h X a; destruct (cactus_destroy e h); reflexivity).
  destruct cached as [h0|];
    [destruct (cactus_reset e h0) as [[]|] eqn:Er; [|rewrite Hswallow]|];
    try (destruct (cactus_init e) as [h1|] eqn:Ei); cbn [app];
    repeat match goal with
    | |- _ /\ _ => split
    | |- _ -> _ => intro
    | |- forall _, _ => intro
    | H : Ok _ = Ok _ |- _ => inversion H; subst; clear H
    | H : In _ (_ :: _) |- _ => destruct H as [H | H]
    | H : In _ [] |- _ => destruct H
    | H : CallReset _ = CallDestroy _ |- _ => discriminate H
    | H : CallInit = CallDestroy _ |- _ => discriminate H
    | H : CallDestroy _ = CallDestroy _ |- _ => inversion H; subst; clear H
    end; try congruence; try reflexivity; try (simpl; lia).
Qed.

(** A failed reset: the stale handle is destroyed and a fresh one
    is cached and returned. *)
Example cached_model_after_failed_reset :
  _get_cached_model (Engine (Ok (Some 7)) (fun _ => Raised) (fun _ => Raised)) (Some 3)
  = ([CallReset 3; CallDestroy 3; CallInit], Some 7, Ok (Some 7)).
Proof. reflexivity. Qed.

(** ** The key of a call does not depend on the order of its arguments *)

Module KeyFacts.
Local Open Scope list_scope.

Lemma leb_spec : forall a b : string,
  String.leb a b = true <-> a = b \/ OrderedTypeEx.String_as_OT.lt a b.
Proof.
  intros a b. unfold String.leb.
  change (String.compare a b) with (OrderedTypeEx.String_as_OT.cmp a b).
  destruct (OrderedTypeEx.String_as_OT.cmp a b) eqn:E.
  - apply OrderedTypeEx.String_as_OT.cmp_eq in E. tauto.
  - apply OrderedTypeEx.String_as_OT.cmp_lt in E. tauto.
  - split; [discriminate|]. intros [H | H].
    + apply OrderedTypeEx.String_as_OT.cmp_eq in H. congruence.
    + apply OrderedTypeEx.String_as_OT.cmp_lt in H. congruence.
Qed.

Lemma leb_trans : forall a b c : string,
  String.leb a b = true -> String.leb b c = true -> String.leb a c = true.
Proof.
  intros a b c Hab Hbc. apply leb_spec. apply leb_spec in Hab. apply leb_spec in Hbc.
  destruct Hab as [-> | Hab]; [exact Hbc|].
  destruct Hbc as [<- | Hbc]; [now right|].
  right. eapply OrderedTypeEx.String_as_OT.lt_trans; eassumption.
Qed.

Lemma leb_refl : forall a : string, String.leb a a = true.
Proof. intros a. apply leb_spec. now left. Qed.

Lemma insert_perm : forall kv d, Permutation (Json.insert kv d) (kv :: d).
Proof.
  induction d as [|kv' d IH]; simpl; [reflexivity|].
  destruct (String.leb (fst kv) (fst kv')); [reflexivity|].
  rewrite IH. apply perm_swap.
Qed.

Lemma sort_keys_perm : forall d, Permutation (Json.sort_keys d) d.
Proof.
  induction d as [|kv d IH]; simpl; [reflexivity|].
  unfold Json.sort_keys in *. simpl. rewrite insert_perm. now constructor.
Qed.

Lemma insert_sorted : forall kv d,
  StronglySorted key_le d -> StronglySorted key_le (Json.insert kv d).
Proof.
  induction d as [|kv' d IH]; intros Hs; simpl.
  - constructor; constructor.
  - destruct (String.leb (fst kv) (fst kv')) eqn:E.
    + constructor; [exact Hs|]. constructor; [exact E|].
      inversion Hs as [|? ? _ Hall]; subst.
      eapply Forall_impl; [|exact Hall]. intros x Hx.
      unfold key_le in *. eapply leb_trans; eassumption.
    + inversion Hs as [|? ? Hs' Hall]; subst.
      constructor; [now apply IH|].
      assert (Hle : key_le kv' kv).
      { unfold key_le. destruct (String.leb_total (fst kv') (fst kv)); congruence. }
      rewrite Forall_forall. intros x Hx.
      apply (Permutation_in _ (insert_perm kv d)) in Hx.
      destruct Hx as [<- | Hx]; [exact Hle|].
      rewrite Forall_forall in Hall. now apply Hall.
Qed.

Lemma sort_keys_sorted : forall d, StronglySorted key_le (Json.sort_keys d).
Proof.
  induction d as [|kv d IH]; [constructor|].
  unfold Json.sort_keys in *. simpl. now apply insert_sorted.
Qed.

(** Two sorted lists with the same entries, the keys being distinct, are
    the same list. *)
Lemma sorted_unique : forall l1 l2 : args,
  StronglySorted key_le l1 -> StronglySorted key_le l2 ->
  Permutation l1 l2 -> NoDup (map fst l1) -> l1 = l2.
Proof.
  induction l1 as [|x l1 IH]; intros l2 H1 H2 Hp Hnd.
  - apply Permutation_nil in Hp. now subst.
  - destruct l2 as [|y l2].
    { symmetry in Hp. apply Permutation_nil in Hp. discriminate. }
    inversion H1 as [|? ? H1' Hx]; subst.
    inversion H2 as [|? ? H2' Hy]; subst.
    inversion Hnd as [|? ? Hfresh Hnd']; subst.
    assert (Hxy : x = y).
    { assert (Hin_x : In x (y :: l2)) by (apply (Permutation_in _ Hp); now left).
      assert (Hin_y : In y (x :: l1))
        by (apply (Permutation_in _ (Permutation_sym Hp)); now left).
      destruct Hin_x as [-> | Hin_x]; [reflexivity|].
      destruct Hin_y as [-> | Hin_y]; [reflexivity|].
      rewrite Forall_forall in Hx, Hy.
      pose proof (Hx _ Hin_y) as Hle1. pose proof (Hy _ Hin_x) as Hle2.
      unfold key_le in *. pose proof (String.leb_antisym _ _ Hle1 Hle2) as Hk.
      exfalso. apply Hfresh. rewrite Hk. now apply in_map. }
    subst y. f_equal. apply IH; try assumption.
    now apply Permutation_cons_inv in Hp.
Qed.

Lemma sort_keys_order_invariant : forall d1 d2 : args,
  Permutation d1 d2 -> NoDup (map fst d1) ->
  Json.sort_keys d1 = Json.sort_keys d2.
Proof.
  intros d1 d2 Hp Hnd. apply sorted_unique; try apply sort_keys_sorted.
  - rewrite sort_keys_perm, Hp. symmetry. apply sort_keys_perm.
  - eapply Permutation_NoDup; [|exact Hnd].
    apply Permutation_map. symmetry. apply sort_keys_perm.
Qed.

End KeyFacts.

(** X20. Two calls of the same tool whose arguments are the same entries
    in another order have the same key, so the second one is dropped as
    a duplicate. *)
Theorem call_key_order_invariant : forall a b : call,
  name a = name b ->
  Permutation (arguments a) (arguments b) ->
  NoDup (map fst (arguments a)) ->
  _call_key a = _call_key b /\ _dedupe_calls [a; b] = [a].
Proof.
  intros a b Hn Hp Hnd.
  assert (Hk : _call_key a = _call_key b).
  { unfold _call_key, Json.dumps. rewrite Hn.
    now rewrite (KeyFacts.sort_keys_order_invariant Hp Hnd). }
  split; [exact Hk|].
  unfold _dedupe_calls. cbn [dedupe_from seen_mem existsb]. rewrite <- Hk.
  assert (He : key_eqb (_call_key a) (_call_key a) = true) by now apply key_eqb_spec.
  rewrite He. reflexivity.
Qed.

Lemma call_key_order_invariant_witness :
  _call_key (Call "set_alarm" [("hour", VInt 7); ("minute", VInt 30)])
  = _call_key (Call "set_alarm" [("minute", VInt 30); ("hour", VInt 7)])
  /\ _dedupe_calls [Call "set_alarm" [("hour", VInt 7); ("minute", VInt 30)];
                    Call "set_alarm" [("minute", VInt 30); ("hour", VInt 7)]]
     = [Call "set_alarm" [("hour", VInt 7); ("minute", VInt 30)]].
Proof.
  apply call_key_order_invariant.
  - reflexivity.
  - apply perm_swap.
  - repeat constructor; simpl; intuition discriminate.
Defined.

(** ** A query without separators is one span *)

Module SingleSpanFacts.
Import Str Re Sem SemFacts AlarmFacts NormFacts CutFacts SplitFacts.
Local Open Scope list_scope.



Lemma prefix_l_app : forall w rest, prefix_l w (w ++ rest) = true.
Proof.
  induction w as [|c w IH]; intros rest; simpl; [reflexivity|].
  now rewrite Ascii.eqb_refl, IH.
Qed.








End SingleSpanFacts.



(** ** Turns the preprocessor leaves alone *)

Module PreprocessFacts.
Import Str Re Sem SemFacts AlarmFacts NormFacts CutFacts SplitFacts SingleSpanFacts.
Local Open Scope list_scope.










End PreprocessFacts.



(** ** Rescue of an empty deterministic set *)



(** ** Size of the deterministic set *)

(** X24. The deterministic pass gives at most one call per span, no two of
    its calls have the same key, and it expects at most as many calls as
    there are spans (one at least when there is a span, none when there
    is none). *)
Theorem deterministic_set_size :
  forall (messages : list message) (tools : list tool) (d : det_state),
    deterministic_pass messages tools = Ok d ->
    List.length (det_calls d) <= List.length (parts d)
    /\ NoDup (map _call_key (det_calls d))
    /\ (parts d = [] -> expected_actions d = 0%Z)
    /\ (parts d <> [] ->
        (1 <= expected_actions d <= Z.of_nat (List.length (parts d)))%Z).
Proof.
  intros messages tools d Hd.
  destruct (@deterministic_pass_fields _ _ _ Hd) as [_ [_ [_ [He [Hc _]]]]].
  split; [|split; [|split]].
  - rewrite Hc.
    pose proof (dedupe_calls_length
                  (parse_parts (parts d) (map t_name tools) (Ctx None))).
    pose proof (parse_parts_length (parts d) (map t_name tools) (Ctx None)). lia.
  - rewrite Hc. apply dedupe_from_NoDup, key_eqb_spec.
  - intros Hp. rewrite He, Hp. reflexivity.
  - intros Hp. rewrite He. unfold _estimate_expected_actions.
    destruct (parts d) as [|p ps]; [congruence|].
    pose proof (SplitFacts.filter_length_le _contains_action (p :: ps)) as Hle.
    simpl List.length in *. lia.
Qed.

Lemma deterministic_set_size_witness :
  List.length (det_calls timer_and_play_state)
  <= List.length (parts timer_and_play_state)
  /\ NoDup (map _call_key (det_calls timer_and_play_state))
  /\ (parts timer_and_play_state = [] -> expected_actions timer_and_play_state = 0%Z)
  /\ (parts timer_and_play_state <> [] ->
      (1 <= expected_actions timer_and_play_state
       <= Z.of_nat (List.length (parts timer_and_play_state)))%Z).
Proof.
  apply (@deterministic_set_size timer_and_play_request registry).
  vm_compute. reflexivity.
Defined.
